(** * Scroll-driven timeline of the portfolio scene (src/Portfolio2.jsx)

    A shallow embedding of the scroll/camera choreography: the damped
    scalar, the keyframe track of [CameraController], the wheel snap
    stepper of [Portfolio], the ethos overlay gate and the bio phase
    machine.

    Numbers.  JavaScript numbers are modelled as real numbers ([R]):
    [Math.max], [Math.min], [Math.abs] and [Math.exp] become [Rmax],
    [Rmin], [Rabs] and [exp]; rounding of IEEE doubles is not modelled.
    The stop index is an integer ([Z]), array positions and counts are
    [nat]. *)

From Stdlib Require Import Reals Lra Lia List Bool Arith.
From Stdlib Require Ascii.
Import ListNotations.

Open Scope R_scope.

(* ================================================================== *)
(** ** 3. Utilities *)
(* ================================================================== *)

(** [const clamp = (val, min, max) => Math.max(min, Math.min(max, val))] *)
Definition clamp (val min max : R) : R := Rmax min (Rmin max val).

(** [const smoothstep = (x) => x * x * (3 - 2 * x)] *)
Definition smoothstep (x : R) : R := x * x * (3 - 2 * x).

Module MathUtils.
(** three.js, [MathUtils.lerp( x, y, t )]: [( 1 - t ) * x + t * y]. *)
Definition lerp (x y t : R) : R := (1 - t) * x + t * y.

(** three.js, [MathUtils.damp( x, y, lambda, dt )]:
    [lerp( x, y, 1 - Math.exp( - lambda * dt ) )]. *)
Definition damp (x y lambda dt : R) : R :=
  lerp x y (1 - exp (- lambda * dt)).
End MathUtils.

(** [const dampValue = (current, target, smoothing, delta) =>
       THREE.MathUtils.damp(current, target, smoothing, delta)] *)
Definition dampValue (current target smoothing delta : R) : R :=
  MathUtils.damp current target smoothing delta.

(** [n] successive calls of [dampValue] with the same [delta], each fed
    the previous result, as a frame loop does. *)
Fixpoint damp_iter (n : nat) (current target smoothing delta : R) : R :=
  match n with
  | O => current
  | S k => damp_iter k (dampValue current target smoothing delta)
                     target smoothing delta
  end.

(** Successive calls of [dampValue] over a list of frame deltas. *)
Fixpoint damp_run (deltas : list R) (current target smoothing : R) : R :=
  match deltas with
  | [] => current
  | d :: ds => damp_run ds (dampValue current target smoothing d)
                        target smoothing
  end.

(** The decay formula of the specification. *)
Definition decay_formula (current target rate deltaTime : R) : R :=
  target + (current - target) * exp (- rate * deltaTime).

(* ================================================================== *)
(** ** 1. Configuration and camera path *)
(* ================================================================== *)

Definition Vec3 : Type := (R * R * R)%type.

(** One entry of [CAMERA_PATH]: [{ t, pos, look, fov, roll }]. *)
Record Keyframe : Type := mkKeyframe {
  kf_t    : R;
  kf_pos  : Vec3;
  kf_look : Vec3;
  kf_fov  : R;
  kf_roll : R
}.

Definition ETHOS_POS : Vec3 := (70, 0, -15).

Definition CAMERA_PATH : list Keyframe := [
  mkKeyframe 0.00 (0, 1, 16)      (0, 0, 0)       70 0;
  mkKeyframe 0.08 (40, 0.3, 14)   ETHOS_POS       64 0;
  mkKeyframe 0.24 (65, 0, 12)     ETHOS_POS       60 0;
  mkKeyframe 0.30 (80, 0.5, 12)   (80, 0, 0)      68 0;
  mkKeyframe 0.38 (100, 0, 9)     (100, 0, 0)     62 (-1);
  mkKeyframe 0.44 (100, 0, 6)     (100, 0, 0)     52 0;
  mkKeyframe 0.52 (110, 0.3, 10)  (110, 0, 0)     60 1;
  mkKeyframe 0.58 (120, 0, 9)     (120, 0, 0)     58 (-0.5);
  mkKeyframe 0.62 (120, 0, 6)     (120, 0, 0)     52 0;
  mkKeyframe 0.70 (130, 0.3, 10)  (130, 0, 0)     60 0.5;
  mkKeyframe 0.76 (140, 0, 9)     (140, 0, 0)     58 (-0.5);
  mkKeyframe 0.80 (140, 0, 6)     (140, 0, 0)     52 0;
  mkKeyframe 0.86 (140, 0, 0)     (140, -1, -20)  42 0;
  mkKeyframe 0.93 (140, 0, -15)   (140, -1, -35)  42 0;
  mkKeyframe 1.00 (140, 0, -25)   (140, -1, -45)  42 0
].

(** Section snap stops: the camera always rests at one of these. *)
Definition SECTION_STOPS : list R :=
  [0.00; 0.16; 0.22; 0.44; 0.62; 0.80; 0.96].

Definition WHEEL_THRESHOLD : R := 60.

Definition SCROLL_SMOOTHING : R := 3.

(** A list of numbers increases strictly from each entry to the next. *)
Fixpoint strictly_increasing (l : list R) : Prop :=
  match l with
  | a :: ((b :: _) as tl) => a < b /\ strictly_increasing tl
  | _ => True
  end.

(* ================================================================== *)
(** ** 3. Core engine: ScrollSmoother *)
(* ================================================================== *)

(** [SECTION_STOPS[i]].  The index held in [currentSectionRef] always
    designates an entry (see the snap stepper), so the default of [nth]
    is never read. *)
Definition stop_at (i : Z) : R := nth (Z.to_nat i) SECTION_STOPS 0.

(** The frame callback of [ScrollSmoother]: the new [scrollRef.current]. *)
Definition ScrollSmoother (currentSection : Z) (scroll delta : R) : R :=
  let target := stop_at currentSection in
  dampValue scroll target SCROLL_SMOOTHING delta.

(** [scrollRef.current] after a run of frames with the given deltas. *)
Fixpoint scroll_run (currentSection : Z) (deltas : list R) (scroll : R) : R :=
  match deltas with
  | [] => scroll
  | d :: ds => scroll_run currentSection ds (ScrollSmoother currentSection scroll d)
  end.

(* ================================================================== *)
(** ** 3. Core engine: CameraController *)
(* ================================================================== *)

(** The [for] loop over adjacent keyframes: the first index [i], counted
    from [i0], with [t >= path[i].t && t <= path[i + 1].t]; [None] when
    the loop ends without [break]. *)
Fixpoint scan_segments (t : R) (i0 : nat) (path : list Keyframe) : option nat :=
  match path with
  | a :: ((b :: _) as tl) =>
      if Rge_dec t (kf_t a) then
        if Rle_dec t (kf_t b) then Some i0 else scan_segments t (S i0) tl
      else scan_segments t (S i0) tl
  | _ => None
  end.

Definition default_keyframe : Keyframe := mkKeyframe 0 (0, 0, 0) (0, 0, 0) 0 0.

(** [path[i]]; every path below has at least two keyframes and the
    indices read are [startIndex] and [startIndex + 1]. *)
Definition keyframe_at (path : list Keyframe) (i : nat) : Keyframe :=
  nth i path default_keyframe.

(** [startIndex] after the loop and the test against the last keyframe.
    [CAMERA_PATH] has fifteen keyframes; on a path of fewer than two the
    source would read outside the array, and every statement below
    assumes at least two. *)
Definition startIndex (path : list Keyframe) (t : R) : nat :=
  let found := match scan_segments t 0 path with
               | Some i => i
               | None => 0%nat
               end in
  if Rge_dec t (kf_t (keyframe_at path (length path - 1)))
  then (length path - 2)%nat
  else found.

(** [localT]: linear fraction inside the segment, 1 for a segment of
    zero (or negative) width. *)
Definition localT (path : list Keyframe) (t : R) : R :=
  let start := keyframe_at path (startIndex path t) in
  let end_ := keyframe_at path (startIndex path t + 1) in
  if Rgt_dec (kf_t end_) (kf_t start)
  then (t - kf_t start) / (kf_t end_ - kf_t start)
  else 1.

Definition easeT (path : list Keyframe) (t : R) : R :=
  smoothstep (clamp (localT path t) 0 1).

(** three.js, [Vector3.lerpVectors( v1, v2, alpha )]:
    [this.x = v1.x + ( v2.x - v1.x ) * alpha], and so for y and z. *)
Definition lerpVectors (v1 v2 : Vec3) (alpha : R) : Vec3 :=
  let '(x1, y1, z1) := v1 in
  let '(x2, y2, z2) := v2 in
  (x1 + (x2 - x1) * alpha, y1 + (y2 - y1) * alpha, z1 + (z2 - z1) * alpha).

(** three.js, [Vector3.lerp( v, alpha )]:
    [this.x += ( v.x - this.x ) * alpha], and so for y and z. *)
Definition vec_lerp (this v : Vec3) (alpha : R) : Vec3 :=
  let '(x1, y1, z1) := this in
  let '(x2, y2, z2) := v in
  (x1 + (x2 - x1) * alpha, y1 + (y2 - y1) * alpha, z1 + (z2 - z1) * alpha).

(** The pose interpolated on the keyframe track at scroll position [t]:
    [_targetPos], [_targetLook], [baseFov] and the interpolated roll
    (in degrees, before the conversion to radians). *)
Record Pose : Type := mkPose {
  targetPos  : Vec3;
  targetLook : Vec3;
  baseFov    : R;
  rollDeg    : R
}.

Definition interpolate (path : list Keyframe) (t : R) : Pose :=
  let start := keyframe_at path (startIndex path t) in
  let end_ := keyframe_at path (startIndex path t + 1) in
  let e := easeT path t in
  mkPose (lerpVectors (kf_pos start) (kf_pos end_) e)
         (lerpVectors (kf_look start) (kf_look end_) e)
         (MathUtils.lerp (kf_fov start) (kf_fov end_) e)
         (MathUtils.lerp (kf_roll start) (kf_roll end_) e).

(** The interval test of the loop at index [k]. *)
Definition within (path : list Keyframe) (t : R) (k : nat) : Prop :=
  kf_t (keyframe_at path k) <= t <= kf_t (keyframe_at path (k + 1)).

(** The eased blend of keyframes [k] and [k + 1] at scroll position [t],
    as the specification describes it for the segment that holds [t]. *)
Definition segment_pose (path : list Keyframe) (k : nat) (t : R) : Pose :=
  let start := keyframe_at path k in
  let end_ := keyframe_at path (k + 1) in
  let e := smoothstep
             (clamp ((t - kf_t start) / (kf_t end_ - kf_t start)) 0 1) in
  mkPose (lerpVectors (kf_pos start) (kf_pos end_) e)
         (lerpVectors (kf_look start) (kf_look end_) e)
         (MathUtils.lerp (kf_fov start) (kf_fov end_) e)
         (MathUtils.lerp (kf_roll start) (kf_roll end_) e).

(** The pose a keyframe prescribes. *)
Definition pose_of (k : Keyframe) : Pose :=
  mkPose (kf_pos k) (kf_look k) (kf_fov k) (kf_roll k).

(** The mutable state the frame callback of [CameraController] reads
    and writes.  The orientation set by [camera.lookAt] is not part of
    the model; [targetRoll] is kept as the value the roll is damped to. *)
Record Camera : Type := mkCamera {
  prevScroll      : R;
  velocityRef     : R;
  camera_position : Vec3;
  lookAtTarget    : Vec3;
  camera_fov      : R;
  targetRoll      : R;
  warpOffset      : R
}.

(** [Math.abs(t - prevScroll.current) / Math.max(delta, 0.001)] *)
Definition rawVelocity (t prev delta : R) : R :=
  Rabs (t - prev) / Rmax delta 0.001.

(** The velocity estimate written to [velocityRef.current]. *)
Definition velocity_update (velocity t prev delta : R) : R :=
  dampValue velocity (clamp (rawVelocity t prev delta * 40) 0 1) 14 delta.

(** [targetFov = baseFov + velocityRef.current * 12] *)
Definition targetFov (path : list Keyframe) (t velocity : R) : R :=
  baseFov (interpolate path t) + velocity * 12.

(** One frame of [CameraController] at scroll position [t]. *)
Definition CameraController (path : list Keyframe) (t delta : R) (c : Camera)
  : Camera :=
  let velocity := velocity_update (velocityRef c) t (prevScroll c) delta in
  let p := interpolate path t in
  let pathRoll := rollDeg p * (PI / 180) in
  let lerpFactor := 1 - exp (- 6 * delta) in
  let chromaticStr := 0.001 + velocity * 0.045 in
  mkCamera t
           velocity
           (vec_lerp (camera_position c) (targetPos p) lerpFactor)
           (vec_lerp (lookAtTarget c) (targetLook p) lerpFactor)
           (dampValue (camera_fov c) (targetFov path t velocity) 6 delta)
           (pathRoll * (1 + velocity * 3.5))
           chromaticStr.

(** The camera as mounted: [<Canvas camera={{ position: [0, 1, 16],
    fov: 70 }}>], both refs 0, [lookAtTarget] the zero vector and
    [warpOffset] as exported. *)
Definition camera_init : Camera :=
  mkCamera 0 0 (0, 1, 16) (0, 0, 0) 70 0 0.002.

(** One rendered frame of [Scene]: [ScrollSmoother] runs first, then
    [CameraController] reads the new [scrollRef.current]. *)
Definition frame (path : list Keyframe) (currentSection : Z) (delta : R)
    (s : R * Camera) : R * Camera :=
  let scroll := ScrollSmoother currentSection (fst s) delta in
  (scroll, CameraController path scroll delta (snd s)).

(** [CameraController] over a run of frames, each given as the scroll
    position it reads and its delta. *)
Fixpoint camera_run (path : list Keyframe) (ticks : list (R * R)) (c : Camera)
  : Camera :=
  match ticks with
  | [] => c
  | (t, d) :: rest => camera_run path rest (CameraController path t d c)
  end.







(* ================================================================== *)
(** ** Wheel-to-section snapping ([Portfolio], the wheel effect) *)
(* ================================================================== *)

(** The closure variables [wheelAccum] and [locked], the shared
    [currentSectionRef.current], and the number of [setTimeout]
    callbacks that have been scheduled and have not run yet. *)
Record Stepper : Type := mkStepper {
  wheelAccum     : R;
  locked         : bool;
  currentSection : Z;
  pendingTimers  : nat
}.

(** What can happen to the stepper: a wheel event with its [deltaY], the
    expiry of a scheduled 800 ms timeout, and a click on checkpoint [i]
    of the scroll bar ([onClick={() => { currentSectionRef.current = i }}]). *)
Inductive Event : Type :=
  | Wheel (deltaY : R)
  | Timeout
  | Click (i : Z).

Definition stepper_init : Stepper := mkStepper 0 false 0 0.

(** [SECTION_STOPS.length - 1] *)
Definition last_stop : Z := Z.of_nat (length SECTION_STOPS) - 1.

(** The body of [onWheel]. *)
Definition onWheel (deltaY : R) (s : Stepper) : Stepper :=
  if locked s then s
  else
    let acc := wheelAccum s + deltaY in
    if Rge_dec acc WHEEL_THRESHOLD then
      mkStepper 0 true (Z.min (currentSection s + 1) last_stop)
                (S (pendingTimers s))
    else if Rle_dec acc (- WHEEL_THRESHOLD) then
      mkStepper 0 true (Z.max (currentSection s - 1) 0)
                (S (pendingTimers s))
    else
      mkStepper acc (locked s) (currentSection s) (pendingTimers s).

(** The callback of [setTimeout(() => { locked = false }, 800)]; it can
    only run when one has been scheduled. *)
Definition onTimeout (s : Stepper) : Stepper :=
  match pendingTimers s with
  | O => s
  | S n => mkStepper (wheelAccum s) false (currentSection s) n
  end.

(** The click handler of a scroll-bar checkpoint. *)
Definition jumpToStop (i : Z) (s : Stepper) : Stepper :=
  mkStepper (wheelAccum s) (locked s) i (pendingTimers s).

Definition step (s : Stepper) (e : Event) : Stepper :=
  match e with
  | Wheel dy => onWheel dy s
  | Timeout => onTimeout s
  | Click i => jumpToStop i s
  end.

Definition run (s : Stepper) (es : list Event) : Stepper :=
  fold_left step es s.

(** The scroll bar renders one checkpoint per entry of [SECTION_STOPS],
    so a click carries an index of that array. *)
Definition valid_index (i : Z) : Prop := (0 <= i <= last_stop)%Z.

Definition valid_event (e : Event) : Prop :=
  match e with
  | Click i => valid_index i
  | _ => True
  end.

(** A wheel event triggers a section change: the stepper is unlocked
    and the accumulated [deltaY] reaches the threshold on either side. *)
Definition triggers (deltaY : R) (s : Stepper) : Prop :=
  locked s = false /\
  (wheelAccum s + deltaY >= WHEEL_THRESHOLD \/
   wheelAccum s + deltaY <= - WHEEL_THRESHOLD).

(** The lock is held exactly while one timeout is pending, so it is
    always released by the next [Timeout]. *)
Definition lock_consistent (s : Stepper) : Prop :=
  pendingTimers s = if locked s then 1%nat else 0%nat.

(** One gesture as the stepper sees it: a wheel event [fst g], the
    further wheel events [snd g] of the same burst, and then the expiry
    of the timeout. *)
Definition gesture (g : R * list R) : list Event :=
  Wheel (fst g) :: map Wheel (snd g) ++ [Timeout].

(* ================================================================== *)
(** ** Ethos overlay: fade gate and checkpoints *)
(* ================================================================== *)

Definition ETHOS_ENTER : R := 0.08.
Definition ETHOS_EXIT  : R := 0.24.

(** Width of the fade band at either edge, the literal [0.025]. *)
Definition FADE_BAND : R := 0.025.

Definition THRESHOLDS : list R := [0.12; 0.48; 0.80].

(** [raw = (t - ETHOS_ENTER) / (ETHOS_EXIT - ETHOS_ENTER)] *)
Definition ethos_raw (t : R) : R :=
  (t - ETHOS_ENTER) / (ETHOS_EXIT - ETHOS_ENTER).

(** [progress = Math.max(0, Math.min(1, raw))] *)
Definition ethos_progress (t : R) : R := Rmax 0 (Rmin 1 (ethos_raw t)).

Definition fadeIn (t : R) : R :=
  Rmin 1 (Rmax 0 ((t - ETHOS_ENTER) / FADE_BAND)).

Definition fadeOut (t : R) : R :=
  Rmin 1 (Rmax 0 ((ETHOS_EXIT - t) / FADE_BAND)).

Definition opacity (t : R) : R := Rmin (fadeIn t) (fadeOut t).

(** The test [progress >= th] of the filter callback. *)
Definition reached (progress th : R) : bool :=
  if Rge_dec progress th then true else false.

(** [THRESHOLDS.filter(th => progress >= th).length] *)
Definition count_reached (thresholds : list R) (progress : R) : nat :=
  length (filter (reached progress) thresholds).

Definition newCount (t : R) : nat := count_reached THRESHOLDS (ethos_progress t).

(** One animation frame of the overlay on [prevCountRef.current]: the
    new value of the ref, and the argument of [setActiveCount] when it
    is called. *)
Definition ethos_tick (t : R) (prevCount : nat) : nat * option nat :=
  let n := newCount t in
  if Nat.eqb n prevCount then (prevCount, None) else (n, Some n).

(** The calls of [setActiveCount] over a run of frames, oldest first. *)
Fixpoint ethos_emissions (ts : list R) (prevCount : nat) : list nat :=
  match ts with
  | [] => []
  | t :: rest =>
      match ethos_tick t prevCount with
      | (p, Some n) => n :: ethos_emissions rest p
      | (p, None) => ethos_emissions rest p
      end
  end.

(** No value is emitted twice in a row: the first call of
    [setActiveCount] differs from the count held before the run, and
    each later call differs from the call before it. *)
Fixpoint no_repeat (prev : nat) (l : list nat) : Prop :=
  match l with
  | [] => True
  | n :: rest => n <> prev /\ no_repeat n rest
  end.

(* ================================================================== *)
(** ** Bio section: the phase machine of [BioSection] *)
(* ================================================================== *)

Definition BIO_ENTER : R := 0.86.
Definition BIO_FULL  : R := 0.93.

Inductive Phase : Type := idle | debris | collapse | appeared | afterglow.

Definition Phase_eqb (p q : Phase) : bool :=
  match p, q with
  | idle, idle | debris, debris | collapse, collapse
  | appeared, appeared | afterglow, afterglow => true
  | _, _ => false
  end.

(** [phaseRef.current] and [timerRef.current]. *)
Record Bio : Type := mkBio {
  phaseRef : Phase;
  timerRef : R
}.

Definition bio_init : Bio := mkBio idle 0.

(** The four guarded assignments that follow [timerRef.current += delta];
    each one reads the state left by the one before. *)
Definition advance_idle (t : R) (b : Bio) : Bio :=
  if Phase_eqb (phaseRef b) idle then
    if Rge_dec t BIO_ENTER then mkBio debris 0 else b
  else b.

Definition advance_debris (b : Bio) : Bio :=
  if Phase_eqb (phaseRef b) debris then
    if Rgt_dec (timerRef b) 1.4 then mkBio collapse 0 else b
  else b.

Definition advance_collapse (b : Bio) : Bio :=
  if Phase_eqb (phaseRef b) collapse then
    if Rgt_dec (timerRef b) 0.4 then mkBio appeared 0 else b
  else b.

Definition advance_appeared (b : Bio) : Bio :=
  if Phase_eqb (phaseRef b) appeared then
    if Rgt_dec (timerRef b) 0.6 then mkBio afterglow (timerRef b) else b
  else b.

(** The frame callback of [BioSection]; [mounted] is [groupRef.current]
    being set. *)
Definition bio_frame (mounted : bool) (t delta : R) (b : Bio) : Bio :=
  if negb mounted then b
  else if Rlt_dec t (BIO_ENTER - 0.04) then
    (if negb (Phase_eqb (phaseRef b) idle) then mkBio idle 0 else b)
  else
    let b1 := mkBio (phaseRef b) (timerRef b + delta) in
    advance_appeared (advance_collapse (advance_debris (advance_idle t b1))).

(** A frame as the phase machine sees it: whether the group is mounted,
    the scroll position and the frame delta. *)
Definition Tick : Type := (bool * R * R)%type.

Definition bio_tick (b : Bio) (k : Tick) : Bio :=
  let '(mounted, t, delta) := k in bio_frame mounted t delta b.

Definition bio_run (b : Bio) (ks : list Tick) : Bio := fold_left bio_tick ks b.

(** The successor in the fixed order of phases. *)
Definition next_phase (p : Phase) : option Phase :=
  match p with
  | idle => Some debris
  | debris => Some collapse
  | collapse => Some appeared
  | appeared => Some afterglow
  | afterglow => None
  end.

(** The timer bound that gates leaving a phase (none for [idle], which
    is gated by the scroll position, and none for [afterglow]). *)
Definition phase_timeout (p : Phase) : option R :=
  match p with
  | debris => Some 1.4
  | collapse => Some 0.4
  | appeared => Some 0.6
  | _ => None
  end.

(** A change of phase the machine is meant to make in one frame: none,
    the step to the successor, or the reset to [idle]. *)
Definition allowed (p q : Phase) : Prop :=
  q = p \/ next_phase p = Some q \/ q = idle.

Fixpoint phases_allowed (p : Phase) (l : list Phase) : Prop :=
  match l with
  | [] => True
  | q :: rest => allowed p q /\ phases_allowed q rest
  end.

(** The phase after each frame of a run. *)
Fixpoint bio_trace (b : Bio) (ks : list Tick) : list Phase :=
  match ks with
  | [] => []
  | k :: rest => phaseRef (bio_tick b k) :: bio_trace (bio_tick b k) rest
  end.

(* ================================================================== *)
(** ** 3. Utilities: remap *)
(* ================================================================== *)

(** [const remap = (val, inMin, inMax, outMin, outMax) =>
       outMin + ((clamp(val, inMin, inMax) - inMin) * (outMax - outMin))
                / (inMax - inMin)] *)
Definition remap (val inMin inMax outMin outMax : R) : R :=
  outMin + ((clamp val inMin inMax - inMin) * (outMax - outMin))
           / (inMax - inMin).

(* ================================================================== *)
(** ** The page as a whole: input events and rendered frames *)
(* ================================================================== *)

(** The state shared by [Portfolio] and [Scene]: the wheel stepper with
    [currentSectionRef], [scrollRef.current] and the camera. *)
Record World : Type := mkWorld {
  stepper     : Stepper;
  scrollRef   : R;
  camera      : Camera
}.

(** Something that happens to the page: an input event handled by
    [Portfolio] or [ScrollBar], or a rendered frame of [Scene] with its
    delta. *)
Inductive Action : Type :=
  | Input (e : Event)
  | Render (delta : R).

Definition world_step (w : World) (a : Action) : World :=
  match a with
  | Input e => mkWorld (step (stepper w) e) (scrollRef w) (camera w)
  | Render d =>
      let s := frame CAMERA_PATH (currentSection (stepper w)) d
                     (scrollRef w, camera w) in
      mkWorld (stepper w) (fst s) (snd s)
  end.

Definition world_run (w : World) (l : list Action) : World :=
  fold_left world_step l w.

(** [useRef(0)] for both refs, the stepper at rest, the camera as
    mounted. *)
Definition world_init : World := mkWorld stepper_init 0 camera_init.

(** Clicks carry an index of [SECTION_STOPS]; frame deltas are not
    negative. *)
Definition valid_action (a : Action) : Prop :=
  match a with
  | Input e => valid_event e
  | Render d => 0 <= d
  end.

(** What every step of the page preserves. *)
Definition world_ok (w : World) : Prop :=
  valid_index (currentSection (stepper w)) /\
  0 <= scrollRef w <= 0.96 /\
  0 <= velocityRef (camera w) <= 1 /\
  42 <= camera_fov (camera w) <= 82 /\
  0.001 <= warpOffset (camera w) <= 0.046.

(* ================================================================== *)
(** ** Visibility of the sections and the scroll bar *)
(* ================================================================== *)

(** [EthosSection]: [groupRef.current.visible =
      t >= ETHOS_ENTER - 0.03 && t <= ETHOS_EXIT + 0.03] *)
Definition ethos_section_visible (t : R) : bool :=
  if Rge_dec t (ETHOS_ENTER - 0.03)
  then (if Rle_dec t (ETHOS_EXIT + 0.03) then true else false)
  else false.

(** [BioOverlay]: [progress = Math.max(0, Math.min(1, (t - BIO_FULL) / 0.05))],
    written to the wrapper's opacity. *)
Definition bio_overlay_opacity (t : R) : R :=
  Rmax 0 (Rmin 1 ((t - BIO_FULL) / 0.05)).

(** [BioOverlay]: [setVisible(t >= BIO_ENTER)] *)
Definition bio_overlay_visible (t : R) : bool :=
  if Rge_dec t BIO_ENTER then true else false.

(** [BioSection]: [groupRef.current.visible = t >= BIO_ENTER - 0.04] *)
Definition bio_group_visible (t : R) : bool :=
  if Rge_dec t (BIO_ENTER - 0.04) then true else false.

(** [ScrollBar]: the three looks of a checkpoint dot. *)
Inductive DotStyle : Type := ACCENT | PAST | IDLE.

(** [isPast = SECTION_STOPS[i] < t + 0.01], for the dot of index [i]. *)
Definition isPast (i : nat) (t : R) : bool :=
  if Rlt_dec (nth i SECTION_STOPS 0) (t + 0.01) then true else false.

(** [isActive = i === active] *)
Definition isActive (i : nat) (active : Z) : bool := Z.eqb (Z.of_nat i) active.

(** [dot.style.background = isActive ? ACCENT : isPast ? PAST : IDLE] *)
Definition dot_background (i : nat) (active : Z) (t : R) : DotStyle :=
  if isActive i active then ACCENT
  else if isPast i t then PAST else IDLE.

(* ================================================================== *)
(** ** Project cards: scan trigger, scan line, collapse flash *)
(* ================================================================== *)

(** The frame callback of [ProjectCard] on [scanFiredRef.current], for a
    card with [config.appear = appear]: the new value of the ref, and
    whether [setScanActive(true)] is called. *)
Definition scan_trigger (appear t : R) (fired : bool) : bool * bool :=
  if negb fired then
    if Rge_dec t (appear - 0.015) then (true, true) else (fired, false)
  else (fired, false).

(** The ref after a run of frames at the given scroll positions, and the
    number of calls of [setScanActive]. *)
Fixpoint scan_trigger_run (appear : R) (ts : list R) (fired : bool)
  : bool * nat :=
  match ts with
  | [] => (fired, 0%nat)
  | t :: rest =>
      let '(f, called) := scan_trigger appear t fired in
      let '(f', n) := scan_trigger_run appear rest f in
      (f', ((if called then 1 else 0) + n)%nat)
  end.

(** [ScanReveal]: [progressRef], [doneRef] and what the callback writes
    to the mesh. *)
Record Scan : Type := mkScan {
  progressRef      : R;
  doneRef          : bool;
  scan_y           : R;
  scan_opacity     : R;
  scan_visible     : bool
}.

(** [useRef(-2.5)], [useRef(false)], the mesh at [[0, -2.5, 0]] with
    material opacity 0. *)
Definition scan_init : Scan := mkScan (-2.5) false (-2.5) 0 true.

(** The frame callback of [ScanReveal]; the second component tells
    whether [onComplete] is called. *)
Definition scan_frame (mounted active : bool) (delta : R) (s : Scan)
  : Scan * bool :=
  if negb mounted || doneRef s || negb active then (s, false)
  else
    let p := progressRef s + delta * 4.5 in
    let op := if Rgt_dec p 2.2 then Rmax 0 (1 - (p - 2.2) * 6) else 1.0 in
    if Rgt_dec p 2.8
    then (mkScan p true p (op * 0.55) false, true)
    else (mkScan p (doneRef s) p (op * 0.55) (scan_visible s), false).

(** A run of frames, each with [active] and its delta, the mesh being
    mounted; the number of calls of [onComplete] is counted. *)
Fixpoint scan_run (ticks : list (bool * R)) (s : Scan) : Scan * nat :=
  match ticks with
  | [] => (s, 0%nat)
  | (active, d) :: rest =>
      let '(s1, called) := scan_frame true active d s in
      let '(s2, n) := scan_run rest s1 in
      (s2, ((if called then 1 else 0) + n)%nat)
  end.

(** [CollapseFlash]: [firedRef], [opacityRef] and what the callback
    writes to the mesh. *)
Record Flash : Type := mkFlash {
  firedRef      : bool;
  opacityRef    : R;
  flash_opacity : R;
  flash_visible : bool
}.

Definition flash_init : Flash := mkFlash false 0 0 false.

(** The frame callback of [CollapseFlash]. *)
Definition flash_frame (mounted active : bool) (delta : R) (f : Flash) : Flash :=
  if negb mounted then f
  else
    let f1 := if active && negb (firedRef f)
              then mkFlash true 1.0 (flash_opacity f) (flash_visible f)
              else f in
    if Rgt_dec (opacityRef f1) 0 then
      let o := dampValue (opacityRef f1) 0 8 delta in
      mkFlash (firedRef f1) o o (if Rgt_dec o 0.01 then true else false)
    else f1.

Definition flash_run (f : Flash) (ticks : list (bool * R)) : Flash :=
  fold_left (fun f k => flash_frame true (fst k) (snd k) f) ticks f.

(* ================================================================== *)
(** ** Bio section: debris pieces *)
(* ================================================================== *)

Definition BIO_CENTER : Vec3 := (140, 0, -35).

(** three.js, [Vector3.sub( v )]. *)
Definition vec_sub (a b : Vec3) : Vec3 :=
  let '(x1, y1, z1) := a in
  let '(x2, y2, z2) := b in
  (x1 - x2, y1 - y2, z1 - z2).

(** three.js, [Vector3.length()]:
    [Math.sqrt( this.x * this.x + this.y * this.y + this.z * this.z )]. *)
Definition vec_length (v : Vec3) : R :=
  let '(x, y, z) := v in sqrt (x * x + y * y + z * z).

(** three.js, [Vector3.multiplyScalar( scalar )]. *)
Definition multiplyScalar (v : Vec3) (s : R) : Vec3 :=
  let '(x, y, z) := v in (x * s, y * s, z * s).

(** three.js, [Vector3.normalize()]:
    [this.divideScalar( this.length() || 1 )], where
    [divideScalar( s )] is [multiplyScalar( 1 / s )]. *)
Definition normalize (v : Vec3) : Vec3 :=
  multiplyScalar v
    (1 / (if Req_dec_T (vec_length v) 0 then 1 else vec_length v)).

(** three.js, [Vector3.addScaledVector( v, s )]:
    [this.x += v.x * s], and so for y and z. *)
Definition addScaledVector (this v : Vec3) (s : R) : Vec3 :=
  let '(x1, y1, z1) := this in
  let '(x2, y2, z2) := v in
  (x1 + x2 * s, y1 + y2 * s, z1 + z2 * s).

(** [DebrisPiece]: [posRef], [scaleRef] and the opacity written to the
    material. *)
Record Debris : Type := mkDebris {
  posRef         : Vec3;
  scaleRef       : R;
  debris_opacity : R
}.

(** [useRef(new THREE.Vector3(...piece.startPos))], [useRef(0)], the
    material created with opacity 0. *)
Definition debris_init (startPos : Vec3) : Debris := mkDebris startPos 0 0.

(** The frame callback of [DebrisPiece] for a piece of the given
    [speed]; [progress] and [exploded] are its props. *)
Definition debris_frame (speed : R) (mounted exploded : bool)
    (progress delta : R) (d : Debris) : Debris :=
  if negb mounted then d
  else
    let target := BIO_CENTER in
    let '(pos, scale) :=
      if exploded then
        let away := normalize (vec_sub (posRef d) target) in
        (addScaledVector (posRef d) away (delta * speed * 3),
         dampValue (scaleRef d) 0 8 delta)
      else if Rgt_dec progress 0 then
        (vec_lerp (posRef d) target (delta * speed * 0.6),
         dampValue (scaleRef d) 0.8 5 delta)
      else (posRef d, scaleRef d) in
    mkDebris pos scale (scale * 0.7).

(* ================================================================== *)
(** ** Ethos checkpoints: the typing effect *)
(* ================================================================== *)

(** [useTypingEffect]: [indexRef], the [displayed] state, [prevActive],
    and whether the interval set by the last run of the effect is still
    scheduled.  A string is the list of its code units. *)
Record Typing : Type := mkTyping {
  indexRef   : nat;
  displayed  : list Ascii.ascii;
  prevActive : bool;
  interval   : bool
}.

Definition typing_init : Typing := mkTyping 0 [] false false.

(** The body of the effect, run after mount and whenever [active],
    [text] or [speed] changes; the cleanup of the run before has
    cleared its interval. *)
Definition typing_effect (text : list Ascii.ascii) (active : bool)
    (s : Typing) : Typing :=
  if negb active then mkTyping 0 [] false false
  else if prevActive s && (length text <=? indexRef s)%nat
  then mkTyping (indexRef s) (displayed s) (prevActive s) false
  else mkTyping (indexRef s) (displayed s) true true.

(** The interval callback: [indexRef.current++], then either
    [clearInterval] or [setDisplayed(text.slice(0, indexRef.current))]. *)
Definition typing_tick (text : list Ascii.ascii) (s : Typing) : Typing :=
  if interval s then
    let i := S (indexRef s) in
    if (length text <? i)%nat
    then mkTyping i (displayed s) (prevActive s) false
    else mkTyping i (firstn i text) (prevActive s) true
  else s.

Inductive TypingEvent : Type :=
  | Effect (active : bool)
  | IntervalTick.

Definition typing_step (text : list Ascii.ascii) (s : Typing)
    (e : TypingEvent) : Typing :=
  match e with
  | Effect active => typing_effect text active s
  | IntervalTick => typing_tick text s
  end.

Definition typing_run (text : list Ascii.ascii) (s : Typing)
    (es : list TypingEvent) : Typing :=
  fold_left (typing_step text) es s.

(** The sum of the frame deltas of a run of the bio section. *)
Definition elapsed (ks : list Tick) : R :=
  fold_right Rplus 0 (map (fun k : Tick => snd k) ks).

(** What the timer and the time elapsed since the start of the run have
    to do with each other in each phase. *)
Definition bio_timed (b : Bio) (total : R) : Prop :=
  match phaseRef b with
  | idle => True
  | debris => timerRef b <= total
  | collapse => 0 <= timerRef b /\ 1.4 + timerRef b < total
  | appeared => 0 <= timerRef b /\ 1.8 + timerRef b < total
  | afterglow => 2.4 < total
  end.

(* ================================================================== *)
(** ** 4. Sigil corridor: stroke builders *)
(* ================================================================== *)

(** [makePoly(sides, r)]: the flat array of [sides + 1] vertices (the
    rounding of a [Float32Array] to single precision is not modelled,
    like all rounding). *)
Definition makePoly (sides : nat) (r : R) : list R :=
  flat_map (fun i : nat =>
              let a := (INR i / INR sides) * PI * 2 - PI / 2 in
              [cos a * r; sin a * r; 0])
           (seq 0 (S sides)).

(** [makeStar(n, outer, inner)]: [2 n + 1] vertices, the radius
    alternating with the parity of the index. *)
Definition makeStar (n : nat) (outer inner : R) : list R :=
  flat_map (fun i : nat =>
              let a := (INR i / INR (n * 2)) * PI * 2 - PI / 2 in
              let r := if Nat.eqb (i mod 2) 0 then outer else inner in
              [cos a * r; sin a * r; 0])
           (seq 0 (S (n * 2))).

(** [makeTri(r, flip = false)]: four vertices. *)
Definition makeTri (r : R) (flip : bool) : list R :=
  flat_map (fun i : nat =>
              let a := (INR i / 3) * PI * 2 + (if flip then 0 else PI) in
              [cos a * r; sin a * r; 0])
           (seq 0 4).

(** Vertex [i] of a flat array read with [itemSize] 3, as the buffer
    attribute of a stroke reads it. *)
Definition vertex (pts : list R) (i : nat) : Vec3 :=
  (nth (3 * i) pts 0, nth (3 * i + 1) pts 0, nth (3 * i + 2) pts 0).

(* ================================================================== *)
(** ** Hero section: spine letters *)
(* ================================================================== *)

(** The fields of [HERO_CONFIG] the layout reads. *)
Record HeroConfig : Type := mkHeroConfig {
  letters        : nat;
  spacing        : R;
  targetFraction : R
}.

Definition HERO_CONFIG : HeroConfig := mkHeroConfig 7 3.6 0.72.

(** [visH = 2 * Math.tan(fovRad / 2) * 16] with
    [fovRad = (70 * Math.PI) / 180]. *)
Definition hero_visH : R := 2 * tan ((70 * PI) / 180 / 2) * 16.

(** [visW = visH * (size.width / size.height)].  With [size.height = 0]
    JavaScript yields [Infinity] or [NaN] here, which the real numbers
    do not have: the layout is stated for a non-zero height. *)
Definition hero_visW (width height : R) : R := hero_visH * (width / height).

(** [letterScale] of [HeroSection]. *)
Definition letterScale (cfg : HeroConfig) (width height : R) : R :=
  let totalSpan := (INR (letters cfg) - 1) * spacing cfg in
  (hero_visW width height * targetFraction cfg) / totalSpan.

(** [actualSpacing = cfg.spacing * scale] *)
Definition actualSpacing (cfg : HeroConfig) (width height : R) : R :=
  spacing cfg * letterScale cfg width height.

(** The x coordinate of letter [i]: [startX + i * actualSpacing] with
    [startX = -((cfg.letters.length - 1) / 2) * actualSpacing]. *)
Definition letter_x (cfg : HeroConfig) (width height : R) (i : nat) : R :=
  let startX := - ((INR (letters cfg) - 1) / 2) * actualSpacing cfg width height in
  startX + INR i * actualSpacing cfg width height.

(** [CACHE_STEPS] of [WritingSpineLetter]; the caches hold
    [CACHE_STEPS + 1] entries. *)
Definition CACHE_STEPS : Z := 128.

(** JavaScript's [x % 1]: the remainder has the sign of [x]. *)
Definition fmod1 (x : R) : R :=
  x - IZR (if Rle_dec 0 x then Zfloor x else Zceil x).

(** [movementSpeed = 0.5 * Math.max(0, 1 - drawProgressRef.current)] *)
Definition movementSpeed (drawProgress : R) : R :=
  0.5 * Rmax 0 (1 - drawProgress).

(** [offsetRef.current = (offsetRef.current + delta * movementSpeed) % 1] *)
Definition spine_offset (offset delta drawProgress : R) : R :=
  fmod1 (offset + delta * movementSpeed drawProgress).

(** [t = (i * spacing + offsetRef.current) % 1] with [spacing = 1 / count]. *)
Definition link_t (count i : nat) (offset : R) : R :=
  fmod1 (INR i * (1 / INR count) + offset).

(** [idx0 = Math.floor(t * CACHE_STEPS)], [frac = raw - idx0] and the
    second index [Math.min(idx0 + 1, CACHE_STEPS)]. *)
Definition cache_idx0 (t : R) : Z := Zfloor (t * IZR CACHE_STEPS).
Definition cache_frac (t : R) : R := t * IZR CACHE_STEPS - IZR (cache_idx0 t).
Definition cache_idx1 (t : R) : Z := Z.min (cache_idx0 t + 1) CACHE_STEPS.

(* ================================================================== *)
(** ** Project cards: reticle, HUD panel and zone grid *)
(* ================================================================== *)

(** [TargetingReticle]: [scaleRef] and [opacityRef]. *)
Record Reticle : Type := mkReticle {
  reticle_scale   : R;
  reticle_opacity : R
}.

(** [useRef(1.6)] and [useRef(0)]. *)
Definition reticle_init : Reticle := mkReticle 1.6 0.

Definition reticle_frame (hovered appeared : bool) (delta : R) (r : Reticle)
  : Reticle :=
  mkReticle
    (dampValue (reticle_scale r) (if hovered then 1.0 else 1.6) 7 delta)
    (dampValue (reticle_opacity r)
               (if appeared then (if hovered then 1.0 else 0.35) else 0.0)
               5 delta).

Definition reticle_run (r : Reticle) (ticks : list (bool * bool * R)) : Reticle :=
  fold_left (fun r k => reticle_frame (fst (fst k)) (snd (fst k)) (snd k) r)
            ticks r.

(** [HudPanel]: [opacityRef.current = dampValue(opacityRef.current,
    appeared ? 1 : 0, 4, delta)]. *)
Definition hud_frame (appeared : bool) (delta opacity : R) : R :=
  dampValue opacity (if appeared then 1 else 0) 4 delta.

(** [ProjectZoneGrid]: [opacityRef.current = dampValue(opacityRef.current,
    (t >= 0.35 && t <= 0.85) ? 1 : 0, 3, delta)]. *)
Definition grid_frame (t delta opacity : R) : R :=
  dampValue opacity
    (if Rge_dec t 0.35 then (if Rle_dec t 0.85 then 1 else 0) else 0)
    3 delta.

(** [mat.opacity = op * (dim ? 0.06 : 0.12)] *)
Definition grid_line_opacity (dim : bool) (op : R) : R :=
  op * (if dim then 0.06 else 0.12).

(* ================================================================== *)
(** ** Ambient motion: particles, afterglow lights, grid, cursor orb *)
(* ================================================================== *)

(** [InteractiveParticleField]: the drift of a particle's base height,
    [basePositions[iy] -= delta * 0.3;
     if (basePositions[iy] < -15) basePositions[iy] = 15]. *)
Definition base_drift (delta y : R) : R :=
  let y1 := y - delta * 0.3 in
  if Rlt_dec y1 (-15) then 15 else y1.

Fixpoint base_drift_run (deltas : list R) (y : R) : R :=
  match deltas with
  | [] => y
  | d :: ds => base_drift_run ds (base_drift d y)
  end.

(** [RaveAfterglowLights]: [hueRef.current = (hueRef.current +
    delta * 0.012) % 1], and the hues of the second and third light. *)
Definition hue_step (hue delta : R) : R := fmod1 (hue + delta * 0.012).
Definition hue2 (h : R) : R := fmod1 (h + 0.33).
Definition hue3 (h : R) : R := fmod1 (h + 0.66).

(** The three light intensities at clock time [t]. *)
Definition intensity1 (t : R) : R := 8 + sin (t * 0.7) * 3.
Definition intensity2 (t : R) : R := 6 + sin (t * 0.5 + 1.2) * 2.5.
Definition intensity3 (t : R) : R := 4 + sin (t * 0.9 + 2.4) * 2.

(** [BioGrid]: [baseOpacity = 0.08 + Math.sin(elapsedTime * 0.8) * 0.03] *)
Definition bio_grid_opacity (t : R) : R := 0.08 + sin (t * 0.8) * 0.03.

(** [CursorFX]: [breathe = 1 + Math.sin(elapsedTime * 2.2) * 0.04] *)
Definition breathe (t : R) : R := 1 + sin (t * 2.2) * 0.04.

(* ================================================================== *)
(** ** Bio section: the fragmented portrait *)
(* ================================================================== *)

Definition COLS : nat := 4.
Definition ROWS : nat := 6.
Definition SHARD_W : R := 0.72.
Definition SHARD_H : R := 0.96.
Definition GAP : R := 0.045.

(** [textures.length]: [useTexture] loads the three [PLACEHOLDER_IMAGES]. *)
Definition textures_length : nat := 3.

(** What [FragmentedPortrait] pushes for one shard.  [worldPos] holds
    the centre of the shard and [rotation] the Euler angles handed to
    its group. *)
Record Shard : Type := mkShard {
  shard_index : nat;
  texIndex    : nat;
  uvOffset    : R * R;
  uvSize      : R * R;
  worldPos    : Vec3;
  worldSize   : R * R;
  rotation    : Vec3
}.

(** [Math.floor(index / (COLS * ROWS / textures.length)) % textures.length] *)
Definition texIndex_of (index : nat) : nat :=
  Z.to_nat (Zfloor (INR index / (INR COLS * INR ROWS / INR textures_length)))
    mod textures_length.

(** The body of the two loops for one [row] and [col].  [rnd k] is the
    value of the [k]-th call of [Math.random] made while the shards are
    built, a number of [0, 1): the literal draws one for the depth and
    three for the rotation, in that order. *)
Definition shard (rnd : nat -> R) (row col : nat) : Shard :=
  let totalW := INR COLS * (SHARD_W + GAP) in
  let totalH := INR ROWS * (SHARD_H + GAP) in
  let index := (row * COLS + col)%nat in
  mkShard index
          (texIndex_of index)
          (INR col / INR COLS, 1 - (INR row + 1) / INR ROWS)
          (1 / INR COLS, 1 / INR ROWS)
          ((INR col + 0.5) * (SHARD_W + GAP) - totalW / 2,
           (INR ROWS - INR row - 0.5) * (SHARD_H + GAP) - totalH / 2,
           (rnd (4 * index)%nat - 0.5) * 1.2)
          (SHARD_W, SHARD_H)
          ((rnd (4 * index + 1)%nat - 0.5) * 0.12,
           (rnd (4 * index + 2)%nat - 0.5) * 0.08,
           (rnd (4 * index + 3)%nat - 0.5) * 0.06).

(** The loops [for row] / [for col] of [FragmentedPortrait]. *)
Definition shards (rnd : nat -> R) : list Shard :=
  flat_map (fun row => map (shard rnd row) (seq 0 COLS)) (seq 0 ROWS).

(** The coordinates of a [Vector3] or of an array of three numbers. *)
Definition vx (v : Vec3) : R := fst (fst v).
Definition vy (v : Vec3) : R := snd (fst v).
Definition vz (v : Vec3) : R := snd v.

(* ================================================================== *)
(** * Properties *)
(* ================================================================== *)

(** Resolve the tests on real numbers in a goal whose operands are
    known well enough for [lra] to decide them. *)
Ltac decide_R :=
  repeat match goal with
  | |- context [Rge_dec ?a ?b] => destruct (Rge_dec a b); try lra
  | |- context [Rle_dec ?a ?b] => destruct (Rle_dec a b); try lra
  | |- context [Rgt_dec ?a ?b] => destruct (Rgt_dec a b); try lra
  | |- context [Rlt_dec ?a ?b] => destruct (Rlt_dec a b); try lra
  end.

Lemma Rmax_cases (a b : R) :
  (a <= b /\ Rmax a b = b) \/ (b <= a /\ Rmax a b = a).
Proof.
  destruct (Rle_dec a b) as [H|H].
  - left. split; [exact H | apply Rmax_right; exact H].
  - right. split; [lra | apply Rmax_left; lra].
Qed.

Lemma Rmin_cases (a b : R) :
  (a <= b /\ Rmin a b = a) \/ (b <= a /\ Rmin a b = b).
Proof.
  destruct (Rle_dec a b) as [H|H].
  - left. split; [exact H | apply Rmin_left; exact H].
  - right. split; [lra | apply Rmin_right; lra].
Qed.

Lemma Rabs_cases (a : R) :
  (0 <= a /\ Rabs a = a) \/ (a < 0 /\ Rabs a = - a).
Proof.
  destruct (Rle_dec 0 a) as [H|H].
  - left. split; [exact H | apply Rabs_right; lra].
  - right. split; [lra | apply Rabs_left; lra].
Qed.

(** Split [Rmax], [Rmin] and [Rabs] into their cases, in the goal and
    in the hypotheses. *)
Ltac split_with lem :=
  let E := fresh "E" in
  destruct lem as [[? E]|[? E]]; rewrite E in *; clear E.

Ltac split_R :=
  repeat match goal with
  | |- context [Rmax ?a ?b] => split_with (Rmax_cases a b)
  | |- context [Rmin ?a ?b] => split_with (Rmin_cases a b)
  | |- context [Rabs ?a] => split_with (Rabs_cases a)
  | _ : context [Rmax ?a ?b] |- _ => split_with (Rmax_cases a b)
  | _ : context [Rmin ?a ?b] |- _ => split_with (Rmin_cases a b)
  | _ : context [Rabs ?a] |- _ => split_with (Rabs_cases a)
  end.

(* ------------------------------------------------------------------ *)
(** ** Damped scalar *)
(* ------------------------------------------------------------------ *)

Lemma dampValue_decay (c t r d : R) :
  dampValue c t r d = decay_formula c t r d.
Proof.
  unfold dampValue, MathUtils.damp, MathUtils.lerp, decay_formula. ring.
Qed.

Lemma damp_iter_decay (n : nat) : forall c t r d,
  damp_iter n c t r d = decay_formula c t r (INR n * d).
Proof.
  induction n as [|k IH]; intros c t r d.
  - cbn [damp_iter]. unfold decay_formula. cbn [INR].
    replace (- r * (0 * d)) with 0 by ring. rewrite exp_0. ring.
  - cbn [damp_iter]. rewrite IH, dampValue_decay. unfold decay_formula.
    rewrite S_INR.
    replace (- r * ((INR k + 1) * d))
      with (- r * d + - r * (INR k * d)) by ring.
    rewrite exp_plus. ring.
Qed.

Lemma damp_run_decay (ds : list R) : forall c t r,
  damp_run ds c t r = decay_formula c t r (fold_right Rplus 0 ds).
Proof.
  induction ds as [|d ds IH]; intros c t r.
  - cbn. unfold decay_formula.
    replace (- r * 0) with 0 by ring. rewrite exp_0. ring.
  - cbn [damp_run fold_right]. rewrite IH, dampValue_decay.
    unfold decay_formula.
    replace (- r * (d + fold_right Rplus 0 ds))
      with (- r * d + - r * fold_right Rplus 0 ds) by ring.
    rewrite exp_plus. ring.
Qed.

(** [N] equal sub-steps of [T / N] give exactly the one-step result. *)
Lemma damp_iter_substeps (c t r T : R) (N : nat) :
  (1 <= N)%nat ->
  damp_iter N c t r (T / INR N) = dampValue c t r T.
Proof.
  intros HN. rewrite damp_iter_decay, dampValue_decay.
  replace (INR N * (T / INR N)) with T; [reflexivity|].
  field. apply not_0_INR. lia.
Qed.

(** The decay factor is 1 at most when [rate * deltaTime >= 0] and 1
    at least when [rate * deltaTime <= 0]. *)
Lemma decay_factor_le_1 (r d : R) : 0 <= r * d -> exp (- r * d) <= 1.
Proof.
  intros H. rewrite <- exp_0.
  destruct (Req_dec (r * d) 0) as [E|E].
  - replace (- r * d) with 0 by lra. lra.
  - left. apply exp_increasing. lra.
Qed.

Lemma decay_factor_ge_1 (r d : R) : r * d <= 0 -> 1 <= exp (- r * d).
Proof.
  intros H. rewrite <- exp_0.
  destruct (Req_dec (r * d) 0) as [E|E].
  - replace (- r * d) with 0 by lra. lra.
  - left. apply exp_increasing. lra.
Qed.

Lemma decay_factor_lt_1 (r d : R) : 0 < r * d -> exp (- r * d) < 1.
Proof. intros H. rewrite <- exp_0. apply exp_increasing. lra. Qed.

Lemma decay_factor_pos (r d : R) : 0 < exp (- r * d).
Proof. apply exp_pos. Qed.

(** For [rate * delta >= 0] the result lies between [current] and
    [target]: it moves toward the target and does not pass it. *)
Lemma dampValue_between_le (c t r d : R) :
  0 <= r * d -> c <= t -> c <= dampValue c t r d <= t.
Proof.
  intros Hrd Hct. rewrite dampValue_decay. unfold decay_formula.
  pose proof (decay_factor_le_1 r d Hrd). pose proof (decay_factor_pos r d).
  nra.
Qed.

Lemma dampValue_between_ge (c t r d : R) :
  0 <= r * d -> t <= c -> t <= dampValue c t r d <= c.
Proof.
  intros Hrd Hct. rewrite dampValue_decay. unfold decay_formula.
  pose proof (decay_factor_le_1 r d Hrd). pose proof (decay_factor_pos r d).
  nra.
Qed.

(** The result is a value of the interval whenever both ends are. *)
Lemma dampValue_in_range (c t r d lo hi : R) :
  0 <= r * d -> lo <= c <= hi -> lo <= t <= hi ->
  lo <= dampValue c t r d <= hi.
Proof.
  intros Hrd Hc Ht.
  destruct (Rle_dec c t) as [L|L].
  - pose proof (dampValue_between_le c t r d Hrd L). lra.
  - assert (t <= c) as G by lra.
    pose proof (dampValue_between_ge c t r d Hrd G). lra.
Qed.

(** The distance to the target is multiplied by [exp(-rate * delta)]. *)
Lemma dampValue_distance (c t r d : R) :
  Rabs (dampValue c t r d - t) = Rabs (c - t) * exp (- r * d).
Proof.
  rewrite dampValue_decay. unfold decay_formula.
  replace (t + (c - t) * exp (- r * d) - t) with ((c - t) * exp (- r * d)) by ring.
  rewrite Rabs_mult, (Rabs_pos_eq (exp _)); [reflexivity|].
  left. apply exp_pos.
Qed.


(** C1.  One call of the damped scalar with [deltaTime = T] and [N] calls
    with [deltaTime = T / N] each (any [N >= 1], so in particular up to
    1000) agree within 1e-4, in fact exactly, for every current value,
    target, rate and [T]; the one call follows
    [next = target + (current - target) * exp(-rate * deltaTime)]. *)
Theorem damp_frame_rate_independent (current target rate T : R) (N : nat) :
  (1 <= N)%nat ->
  dampValue current target rate T
    = target + (current - target) * exp (- rate * T) /\
  Rabs (damp_iter N current target rate (T / INR N)
        - dampValue current target rate T) <= 1 / 10000.
Proof.
  intros HN. split.
  - apply dampValue_decay.
  - rewrite damp_iter_substeps by exact HN.
    replace (dampValue current target rate T - dampValue current target rate T)
      with 0 by ring.
    rewrite Rabs_R0. lra.
Qed.

Lemma damp_frame_rate_independent_witness :
  (1 <= 4)%nat /\
  dampValue 0 1 3 2 = 1 + (0 - 1) * exp (- 3 * 2) /\
  Rabs (damp_iter 4 0 1 3 (2 / INR 4) - dampValue 0 1 3 2) <= 1 / 10000.
Proof.
  split; [lia | apply (damp_frame_rate_independent 0 1 3 2 4); lia].
Defined.

(** C7 fails as stated: a rate of 0 returns [current], not [target],
    and a negative [deltaTime] does not return [current]. *)
Lemma damp_edge_cases_counterexample :
  ~ (forall current target rate deltaTime,
       rate <= 0 -> dampValue current target rate deltaTime = target) /\
  ~ (forall current target rate deltaTime,
       deltaTime <= 0 -> dampValue current target rate deltaTime = current).
Proof.
  split; intros H.
  - specialize (H 0 1 0 1 (Rle_refl 0)).
    rewrite dampValue_decay in H. unfold decay_formula in H.
    replace (- 0 * 1) with 0 in H by ring. rewrite exp_0 in H. lra.
  - assert (-1 <= 0) as Hd by lra.
    specialize (H 0 1 1 (-1) Hd).
    rewrite dampValue_decay in H. unfold decay_formula in H.
    replace (exp _) with (exp 1) in H by (f_equal; ring).
    assert (1 + 1 < exp 1) by (apply exp_ineq1; lra). lra.
Qed.

(** C7, amended.  The damped scalar is the total function
    [target + (current - target) * exp(-rate * deltaTime)] with no guard
    on its arguments: [deltaTime = 0] returns [current], [rate = 0]
    returns [current] as well; the distance to [target] is multiplied
    by [exp(-rate * deltaTime)], so whenever [rate * deltaTime <= 0] the
    result is at least as far from [target] as [current] was. *)
Theorem damp_edge_cases (current target rate deltaTime : R) :
  dampValue current target rate deltaTime
    = target + (current - target) * exp (- rate * deltaTime) /\
  (deltaTime = 0 -> dampValue current target rate deltaTime = current) /\
  (rate = 0 -> dampValue current target rate deltaTime = current) /\
  Rabs (dampValue current target rate deltaTime - target)
    = Rabs (current - target) * exp (- rate * deltaTime) /\
  (rate * deltaTime <= 0 ->
     Rabs (current - target)
       <= Rabs (dampValue current target rate deltaTime - target)).
Proof.
  split; [apply dampValue_decay|].
  split; [|split; [|split]].
  - intros ->. rewrite dampValue_decay. unfold decay_formula.
    replace (- rate * 0) with 0 by ring. rewrite exp_0. ring.
  - intros ->. rewrite dampValue_decay. unfold decay_formula.
    replace (- 0 * deltaTime) with 0 by ring. rewrite exp_0. ring.
  - apply dampValue_distance.
  - intros H. rewrite dampValue_distance.
    pose proof (decay_factor_ge_1 rate deltaTime H) as He.
    pose proof (Rabs_pos (current - target)). nra.
Qed.

Lemma damp_edge_cases_witness :
  dampValue 2 5 0 1 = 2 /\ dampValue 2 5 3 0 = 2 /\
  Rabs (2 - 5) <= Rabs (dampValue 2 5 3 (-1) - 5).
Proof.
  split; [|split].
  - destruct (damp_edge_cases 2 5 0 1) as (_ & _ & H & _). apply H. reflexivity.
  - destruct (damp_edge_cases 2 5 3 0) as (_ & H & _). apply H. reflexivity.
  - destruct (damp_edge_cases 2 5 3 (-1)) as (_ & _ & _ & _ & H). apply H. lra.
Defined.

(* ------------------------------------------------------------------ *)
(** ** Configuration *)
(* ------------------------------------------------------------------ *)

(** C9.  The stops increase strictly with the index and lie in [0,1];
    the keyframe progresses increase strictly, the first is 0.0 and the
    last is 1.0. *)
Theorem configuration_invariants :
  strictly_increasing SECTION_STOPS /\
  Forall (fun p => 0 <= p <= 1) SECTION_STOPS /\
  strictly_increasing (map kf_t CAMERA_PATH) /\
  kf_t (hd default_keyframe CAMERA_PATH) = 0 /\
  kf_t (last CAMERA_PATH default_keyframe) = 1.
Proof.
  split; [|split; [|split; [|split]]].
  - cbn. repeat split; lra.
  - unfold SECTION_STOPS. repeat constructor; lra.
  - cbn. repeat split; lra.
  - cbn. lra.
  - cbn. lra.
Qed.

(* ------------------------------------------------------------------ *)
(** ** Ethos overlay *)
(* ------------------------------------------------------------------ *)

Lemma ethos_raw_linear (t : R) : ethos_raw t = (t - 0.08) * 6.25.
Proof. unfold ethos_raw, ETHOS_ENTER, ETHOS_EXIT. lra. Qed.

Lemma fade_in_linear (t : R) : (t - ETHOS_ENTER) / FADE_BAND = (t - 0.08) * 40.
Proof. unfold ETHOS_ENTER, FADE_BAND. lra. Qed.

Lemma fade_out_linear (t : R) : (ETHOS_EXIT - t) / FADE_BAND = (0.24 - t) * 40.
Proof. unfold ETHOS_EXIT, FADE_BAND. lra. Qed.

(** The two orders in which the source nests [Math.max] and [Math.min]
    agree on the unit interval. *)
Lemma clamp_unit (x : R) : Rmin 1 (Rmax 0 x) = clamp x 0 1.
Proof. unfold clamp. split_R; lra. Qed.

Lemma clamp_bounds (x lo hi : R) : lo <= hi -> lo <= clamp x lo hi <= hi.
Proof. intros H. unfold clamp. split_R; lra. Qed.

Ltac unfold_opacity :=
  unfold opacity, fadeIn, fadeOut;
  repeat rewrite fade_in_linear; repeat rewrite fade_out_linear;
  unfold ETHOS_ENTER, ETHOS_EXIT, FADE_BAND in *.

Lemma opacity_outside (t : R) :
  t <= ETHOS_ENTER \/ ETHOS_EXIT <= t -> opacity t = 0.
Proof. unfold_opacity. intros [H|H]; split_R; lra. Qed.

Lemma opacity_enter_band (t : R) :
  ETHOS_ENTER <= t <= ETHOS_ENTER + FADE_BAND ->
  opacity t = (t - ETHOS_ENTER) / FADE_BAND.
Proof. unfold_opacity. intros H. split_R; lra. Qed.

Lemma opacity_interior (t : R) :
  ETHOS_ENTER + FADE_BAND <= t <= ETHOS_EXIT - FADE_BAND -> opacity t = 1.
Proof. unfold_opacity. intros H. split_R; lra. Qed.

Lemma opacity_exit_band (t : R) :
  ETHOS_EXIT - FADE_BAND <= t <= ETHOS_EXIT ->
  opacity t = (ETHOS_EXIT - t) / FADE_BAND.
Proof. unfold_opacity. intros H. split_R; lra. Qed.

(** C5.  The opacity is the minimum of the two edge ramps of width
    0.025, each clamped to [0,1]; it is 0 outside the window, climbs
    linearly (hence monotonically) from 0 to 1 across the enter band,
    stays 1 between the bands and descends linearly back to 0 across
    the exit band. *)
Theorem opacity_gate (t u : R) :
  opacity t = Rmin (clamp ((t - ETHOS_ENTER) / 0.025) 0 1)
                   (clamp ((ETHOS_EXIT - t) / 0.025) 0 1) /\
  0 <= opacity t <= 1 /\
  (t < ETHOS_ENTER \/ ETHOS_EXIT < t -> opacity t = 0) /\
  (ETHOS_ENTER <= t <= u /\ u <= ETHOS_ENTER + 0.025 ->
     opacity t <= opacity u /\
     opacity t = (t - ETHOS_ENTER) / 0.025) /\
  (opacity ETHOS_ENTER = 0 /\ opacity (ETHOS_ENTER + 0.025) = 1) /\
  (ETHOS_ENTER + 0.025 <= t <= ETHOS_EXIT - 0.025 -> opacity t = 1) /\
  (ETHOS_EXIT - 0.025 <= t <= u /\ u <= ETHOS_EXIT ->
     opacity u <= opacity t /\
     opacity t = (ETHOS_EXIT - t) / 0.025) /\
  (opacity (ETHOS_EXIT - 0.025) = 1 /\ opacity ETHOS_EXIT = 0).
Proof.
  change 0.025 with FADE_BAND.
  split; [|split; [|split; [|split; [|split; [|split; [|split]]]]]].
  - unfold opacity, fadeIn, fadeOut. now rewrite !clamp_unit.
  - unfold opacity, fadeIn, fadeOut. split_R; lra.
  - intros H. apply opacity_outside. lra.
  - intros [H1 H2].
    rewrite (opacity_enter_band t), (opacity_enter_band u) by lra.
    rewrite !fade_in_linear. lra.
  - split.
    + apply opacity_outside. lra.
    + apply opacity_interior. unfold ETHOS_ENTER, ETHOS_EXIT, FADE_BAND. lra.
  - apply opacity_interior.
  - intros [H1 H2].
    rewrite (opacity_exit_band t), (opacity_exit_band u) by lra.
    rewrite !fade_out_linear. lra.
  - split.
    + apply opacity_interior. unfold ETHOS_ENTER, ETHOS_EXIT, FADE_BAND. lra.
    + apply opacity_outside. lra.
Qed.

Lemma opacity_gate_witness :
  opacity 0.05 = 0 /\
  (opacity 0.09 <= opacity 0.1 /\ opacity 0.09 = (0.09 - ETHOS_ENTER) / 0.025) /\
  opacity 0.16 = 1 /\
  (opacity 0.235 <= opacity 0.22 /\ opacity 0.22 = (ETHOS_EXIT - 0.22) / 0.025).
Proof.
  split; [|split; [|split]].
  - destruct (opacity_gate 0.05 0) as (_ & _ & H & _).
    apply H. unfold ETHOS_ENTER. lra.
  - destruct (opacity_gate 0.09 0.1) as (_ & _ & _ & H & _).
    apply H. unfold ETHOS_ENTER. lra.
  - destruct (opacity_gate 0.16 0) as (_ & _ & _ & _ & _ & H & _).
    apply H. unfold ETHOS_ENTER, ETHOS_EXIT. lra.
  - destruct (opacity_gate 0.22 0.235) as (_ & _ & _ & _ & _ & _ & H & _).
    apply H. unfold ETHOS_EXIT. lra.
Defined.

(** *** Checkpoints *)

Lemma reached_mono (p q th : R) :
  p <= q -> reached p th = true -> reached q th = true.
Proof. unfold reached. intros H. decide_R. Qed.

Lemma count_reached_mono (l : list R) (p q : R) :
  p <= q -> (count_reached l p <= count_reached l q)%nat.
Proof.
  intros H. unfold count_reached.
  induction l as [|th l IH]; [apply Nat.le_refl|].
  cbn [filter].
  destruct (reached p th) eqn:Ep.
  - rewrite (reached_mono p q th H Ep). cbn [length]. lia.
  - destruct (reached q th); cbn [length]; lia.
Qed.

Lemma ethos_progress_mono (t u : R) :
  t <= u -> ethos_progress t <= ethos_progress u.
Proof.
  intros H. unfold ethos_progress. rewrite !ethos_raw_linear.
  split_R; lra.
Qed.

(** Clamping the local progress to [0,1] does not change which of the
    thresholds are reached, all of them lying in (0,1]. *)
Lemma reached_clamped (t th : R) :
  0 < th <= 1 -> reached (ethos_progress t) th = reached (ethos_raw t) th.
Proof.
  intros H. unfold reached, ethos_progress.
  split_R; decide_R; reflexivity.
Qed.

Lemma newCount_raw (t : R) : newCount t = count_reached THRESHOLDS (ethos_raw t).
Proof.
  unfold newCount, count_reached, THRESHOLDS. cbn [filter].
  rewrite !reached_clamped by lra. reflexivity.
Qed.

(** The count as a step function of the local progress. *)
Lemma count_reached_steps (p : R) :
  (p < 0.12 -> count_reached THRESHOLDS p = 0%nat) /\
  (0.12 <= p < 0.48 -> count_reached THRESHOLDS p = 1%nat) /\
  (0.48 <= p < 0.80 -> count_reached THRESHOLDS p = 2%nat) /\
  (0.80 <= p -> count_reached THRESHOLDS p = 3%nat).
Proof.
  unfold count_reached, THRESHOLDS, reached. cbn [filter].
  repeat split; intros H; decide_R; reflexivity.
Qed.

Lemma ethos_tick_ref (t : R) (prevCount : nat) :
  fst (ethos_tick t prevCount) = newCount t.
Proof.
  unfold ethos_tick. destruct (Nat.eqb_spec (newCount t) prevCount) as [E|E].
  - cbn. symmetry. exact E.
  - reflexivity.
Qed.

Lemma ethos_tick_emits (t : R) (prevCount : nat) :
  snd (ethos_tick t prevCount)
    = if Nat.eqb (newCount t) prevCount then None else Some (newCount t).
Proof. unfold ethos_tick. destruct (Nat.eqb (newCount t) prevCount); reflexivity. Qed.

Lemma ethos_emissions_no_repeat (ts : list R) : forall prevCount,
  no_repeat prevCount (ethos_emissions ts prevCount).
Proof.
  induction ts as [|t ts IH]; intros prevCount; [exact I|].
  cbn [ethos_emissions]. unfold ethos_tick.
  destruct (Nat.eqb_spec (newCount t) prevCount) as [E|E].
  - apply IH.
  - cbn [no_repeat]. split; [exact E | apply IH].
Qed.

(** C6.  The active count is the number of thresholds that the local
    progress [(t - enter) / (exit - enter)] has reached ([>=]); it never
    decreases as the scroll position increases; it is 0 below 0.12, 1
    from 0.12, 2 from 0.48 and 3 from 0.80; and a frame calls
    [setActiveCount] only when the count differs from the one stored,
    so no value is reported twice in a row. *)
Theorem active_checkpoint_count (t u : R) (prevCount : nat) (ts : list R) :
  newCount t = length (filter (reached (ethos_raw t)) THRESHOLDS) /\
  (forall th, reached (ethos_raw t) th = true <-> ethos_raw t >= th) /\
  (t <= u -> (newCount t <= newCount u)%nat) /\
  ((ethos_raw t < 0.12 -> newCount t = 0%nat) /\
   (0.12 <= ethos_raw t < 0.48 -> newCount t = 1%nat) /\
   (0.48 <= ethos_raw t < 0.80 -> newCount t = 2%nat) /\
   (0.80 <= ethos_raw t -> newCount t = 3%nat)) /\
  fst (ethos_tick t prevCount) = newCount t /\
  (newCount t = prevCount -> snd (ethos_tick t prevCount) = None) /\
  (newCount t <> prevCount -> snd (ethos_tick t prevCount) = Some (newCount t)) /\
  no_repeat prevCount (ethos_emissions ts prevCount).
Proof.
  split; [apply newCount_raw|].
  split.
  { intros th. unfold reached. destruct (Rge_dec (ethos_raw t) th); split;
      intros; try discriminate; try reflexivity; tauto. }
  split.
  { intros H. apply count_reached_mono, ethos_progress_mono, H. }
  split.
  { rewrite newCount_raw. apply count_reached_steps. }
  split; [apply ethos_tick_ref|].
  split; [|split].
  - intros E. rewrite ethos_tick_emits.
    apply Nat.eqb_eq in E. now rewrite E.
  - intros E. rewrite ethos_tick_emits.
    apply Nat.eqb_neq in E. now rewrite E.
  - apply ethos_emissions_no_repeat.
Qed.

Lemma active_checkpoint_count_witness :
  (newCount 0.1 <= newCount 0.2)%nat /\
  newCount 0.099 = 0%nat /\ newCount 0.0992 = 1%nat /\
  newCount 0.16 = 2%nat /\ newCount 0.208 = 3%nat /\
  snd (ethos_tick 0.16 2) = None /\
  snd (ethos_tick 0.16 1) = Some (newCount 0.16).
Proof.
  assert (newCount 0.16 = 2%nat) as E16.
  { destruct (active_checkpoint_count 0.16 0 0 []) as (_ & _ & _ & (_ & _ & H & _) & _).
    apply H. rewrite ethos_raw_linear. lra. }
  split; [|split; [|split; [|split; [|split; [|split]]]]].
  - destruct (active_checkpoint_count 0.1 0.2 0 []) as (_ & _ & H & _).
    apply H. lra.
  - destruct (active_checkpoint_count 0.099 0 0 []) as (_ & _ & _ & (H & _) & _).
    apply H. rewrite ethos_raw_linear. lra.
  - destruct (active_checkpoint_count 0.0992 0 0 []) as (_ & _ & _ & (_ & H & _) & _).
    apply H. rewrite ethos_raw_linear. lra.
  - exact E16.
  - destruct (active_checkpoint_count 0.208 0 0 []) as (_ & _ & _ & (_ & _ & _ & H) & _).
    apply H. rewrite ethos_raw_linear. lra.
  - destruct (active_checkpoint_count 0.16 0 2 []) as (_ & _ & _ & _ & _ & H & _).
    apply H. exact E16.
  - destruct (active_checkpoint_count 0.16 0 1 []) as (_ & _ & _ & _ & _ & _ & H & _).
    apply H. rewrite E16. discriminate.
Defined.

(* ------------------------------------------------------------------ *)
(** ** Snap stepper *)
(* ------------------------------------------------------------------ *)

Lemma last_stop_eq : last_stop = 6%Z.
Proof. reflexivity. Qed.

Lemma onWheel_locked (dy : R) (s : Stepper) :
  locked s = true -> onWheel dy s = s.
Proof. intros H. unfold onWheel. now rewrite H. Qed.

Lemma onWheel_forward (dy : R) (s : Stepper) :
  locked s = false -> wheelAccum s + dy >= WHEEL_THRESHOLD ->
  onWheel dy s = mkStepper 0 true (Z.min (currentSection s + 1) last_stop)
                           (S (pendingTimers s)).
Proof.
  intros HL H. unfold onWheel. rewrite HL.
  destruct (Rge_dec (wheelAccum s + dy) WHEEL_THRESHOLD); [reflexivity|tauto].
Qed.

Lemma onWheel_backward (dy : R) (s : Stepper) :
  locked s = false -> wheelAccum s + dy <= - WHEEL_THRESHOLD ->
  onWheel dy s = mkStepper 0 true (Z.max (currentSection s - 1) 0)
                           (S (pendingTimers s)).
Proof.
  intros HL H. unfold onWheel. rewrite HL. unfold WHEEL_THRESHOLD in *.
  decide_R. reflexivity.
Qed.

Lemma onWheel_accumulate (dy : R) (s : Stepper) :
  locked s = false ->
  - WHEEL_THRESHOLD < wheelAccum s + dy < WHEEL_THRESHOLD ->
  onWheel dy s = mkStepper (wheelAccum s + dy) false (currentSection s)
                           (pendingTimers s).
Proof.
  intros HL H. unfold onWheel. rewrite HL. unfold WHEEL_THRESHOLD in *.
  decide_R. reflexivity.
Qed.

(** A wheel event either triggers or falls strictly inside the band. *)
Lemma triggers_dec (dy : R) (s : Stepper) :
  locked s = false ->
  triggers dy s \/ - WHEEL_THRESHOLD < wheelAccum s + dy < WHEEL_THRESHOLD.
Proof.
  intros HL. unfold triggers.
  destruct (Rge_dec (wheelAccum s + dy) WHEEL_THRESHOLD);
    destruct (Rle_dec (wheelAccum s + dy) (- WHEEL_THRESHOLD));
    [left|left|left|right]; try tauto.
  split; lra.
Qed.

Lemma onWheel_triggered (dy : R) (s : Stepper) :
  triggers dy s ->
  wheelAccum (onWheel dy s) = 0 /\ locked (onWheel dy s) = true /\
  (valid_index (currentSection s) ->
   Z.abs (currentSection (onWheel dy s) - currentSection s) <= 1)%Z.
Proof.
  intros [HL H]. unfold valid_index. rewrite last_stop_eq.
  destruct (Rge_dec (wheelAccum s + dy) WHEEL_THRESHOLD) as [G|G].
  - rewrite onWheel_forward by assumption. cbn. rewrite ?last_stop_eq.
    repeat split. lia.
  - rewrite onWheel_backward by tauto. cbn. repeat split. lia.
Qed.

(** While the stepper is locked a burst of wheel events changes nothing,
    the accumulator included. *)
Lemma burst_locked (ps : list R) (s : Stepper) :
  locked s = true -> run s (map Wheel ps) = s.
Proof.
  intros HL. unfold run.
  induction ps as [|p ps IH]; [reflexivity|].
  cbn [map fold_left step]. rewrite onWheel_locked by exact HL. exact IH.
Qed.

(** With no timeout in between, a burst moves the index by one stop at
    most, however many events it holds. *)
Lemma burst_at_most_one (ps : list R) : forall s,
  valid_index (currentSection s) ->
  (Z.abs (currentSection (run s (map Wheel ps)) - currentSection s) <= 1)%Z.
Proof.
  induction ps as [|p ps IH]; intros s V.
  - cbn. lia.
  - destruct (locked s) eqn:HL.
    + rewrite burst_locked by exact HL. lia.
    + change (run s (map Wheel (p :: ps)))
        with (run (onWheel p s) (map Wheel ps)).
      destruct (triggers_dec p s HL) as [T|B].
      * destruct (onWheel_triggered p s T) as (_ & L & D).
        rewrite burst_locked by exact L. exact (D V).
      * rewrite onWheel_accumulate by assumption.
        specialize (IH (mkStepper (wheelAccum s + p) false (currentSection s)
                                  (pendingTimers s)) V).
        exact IH.
Qed.

Lemma step_valid (s : Stepper) (e : Event) :
  valid_event e -> valid_index (currentSection s) ->
  valid_index (currentSection (step s e)).
Proof.
  unfold valid_index. rewrite last_stop_eq. intros He Hs.
  destruct e as [dy| |i]; cbn [step].
  - unfold onWheel. destruct (locked s); [exact Hs|].
    destruct (Rge_dec _ _); [cbn; rewrite ?last_stop_eq; lia|].
    destruct (Rle_dec _ _); [cbn; lia | exact Hs].
  - unfold onTimeout. destruct (pendingTimers s); exact Hs.
  - cbn in *. unfold valid_index in He. rewrite last_stop_eq in He. exact He.
Qed.

Lemma run_valid (es : list Event) : forall s,
  Forall valid_event es -> valid_index (currentSection s) ->
  valid_index (currentSection (run s es)).
Proof.
  unfold run. induction es as [|e es IH]; intros s Hes Hs; [exact Hs|].
  inversion Hes; subst. cbn [fold_left]. apply IH; [assumption|].
  apply step_valid; assumption.
Qed.

Lemma step_lock_consistent (s : Stepper) (e : Event) :
  lock_consistent s -> lock_consistent (step s e).
Proof.
  unfold lock_consistent. intros H.
  destruct e as [dy| |i]; cbn [step].
  - unfold onWheel. destruct (locked s) eqn:HL; [now rewrite HL|].
    destruct (Rge_dec _ _); [cbn; now rewrite H|].
    destruct (Rle_dec _ _); [cbn; now rewrite H|].
    cbn. exact H.
  - unfold onTimeout. destruct (pendingTimers s) eqn:HP.
    + rewrite HP. exact H.
    + cbn. destruct (locked s); [congruence|discriminate].
  - cbn. exact H.
Qed.

Lemma run_lock_consistent (es : list Event) : forall s,
  lock_consistent s -> lock_consistent (run s es).
Proof.
  unfold run. induction es as [|e es IH]; intros s Hs; [exact Hs|].
  cbn [fold_left]. apply IH, step_lock_consistent, Hs.
Qed.

(** A burst of wheel events on an unlocked stepper either never reaches
    the threshold, and then changes neither index nor lock, or reaches
    it once: the index has moved by one clamped stop, the stepper is
    locked with an empty accumulator and one more timeout is pending. *)
Lemma burst_outcome (ps : list R) : forall s,
  locked s = false ->
  let s' := run s (map Wheel ps) in
  (locked s' = false /\ currentSection s' = currentSection s /\
   pendingTimers s' = pendingTimers s) \/
  (locked s' = true /\ wheelAccum s' = 0 /\
   pendingTimers s' = S (pendingTimers s) /\
   (currentSection s' = Z.min (currentSection s + 1) last_stop \/
    currentSection s' = Z.max (currentSection s - 1) 0)).
Proof.
  induction ps as [|p ps IH]; intros s HL; cbv zeta.
  - left. unfold run. cbn. auto.
  - change (run s (map Wheel (p :: ps)))
      with (run (onWheel p s) (map Wheel ps)).
    destruct (triggers_dec p s HL) as [T|B].
    + right. destruct (onWheel_triggered p s T) as (A & L & _).
      rewrite (burst_locked ps _ L).
      split; [exact L|]. split; [exact A|].
      destruct T as [_ [H|H]].
      * rewrite onWheel_forward by assumption. cbn. auto.
      * destruct (Rge_dec (wheelAccum s + p) WHEEL_THRESHOLD) as [G|G].
        -- rewrite onWheel_forward by assumption. cbn. auto.
        -- rewrite onWheel_backward by (try assumption; lra). cbn. auto.
    + rewrite onWheel_accumulate by assumption.
      specialize (IH (mkStepper (wheelAccum s + p) false (currentSection s)
                                (pendingTimers s)) eq_refl).
      cbv zeta in IH. cbn [currentSection pendingTimers] in IH. exact IH.
Qed.

(** The timeout callback only clears [locked]. *)
Lemma onTimeout_index (s : Stepper) :
  currentSection (onTimeout s) = currentSection s /\
  wheelAccum (onTimeout s) = wheelAccum s.
Proof. unfold onTimeout. destruct (pendingTimers s); split; reflexivity. Qed.

Lemma onTimeout_unlocks (s : Stepper) :
  lock_consistent s -> locked (onTimeout s) = false.
Proof.
  unfold lock_consistent, onTimeout. intros H.
  destruct (pendingTimers s) eqn:P; [|reflexivity].
  destruct (locked s); [discriminate | reflexivity].
Qed.

Lemma run_app (es fs : list Event) (s : Stepper) :
  run s (es ++ fs) = run (run s es) fs.
Proof. unfold run. apply fold_left_app. Qed.

(** A gesture that triggers moves the index as its first wheel event
    does and leaves the stepper unlocked with an empty accumulator. *)
Lemma run_gesture (g : R * list R) (s : Stepper) :
  triggers (fst g) s ->
  run s (gesture g)
    = mkStepper 0 false (currentSection (onWheel (fst g) s)) (pendingTimers s).
Proof.
  intros T. destruct g as [dy ps]. cbn [fst snd] in *.
  unfold gesture. cbn [fst snd].
  change (run s (Wheel dy :: map Wheel ps ++ [Timeout]))
    with (run (onWheel dy s) (map Wheel ps ++ [Timeout])).
  rewrite run_app.
  destruct (onWheel_triggered dy s T) as (A & L & _).
  rewrite (burst_locked ps _ L).
  destruct T as [HL [H|H]].
  - rewrite onWheel_forward by assumption. reflexivity.
  - destruct (Rge_dec (wheelAccum s + dy) WHEEL_THRESHOLD) as [G|G].
    + rewrite onWheel_forward by assumption. reflexivity.
    + rewrite onWheel_backward by (try assumption; lra). reflexivity.
Qed.

Lemma run_gestures_forward (gs : list (R * list R)) : forall s,
  locked s = false -> wheelAccum s = 0 -> valid_index (currentSection s) ->
  Forall (fun g => fst g >= WHEEL_THRESHOLD) gs ->
  run s (flat_map gesture gs)
    = mkStepper 0 false
        (Z.min (currentSection s + Z.of_nat (length gs)) last_stop)
        (pendingTimers s).
Proof.
  induction gs as [|g gs IH]; intros s HL HA HV HF.
  - cbn [flat_map run fold_left length Z.of_nat]. unfold run. cbn [fold_left].
    unfold valid_index in HV. destruct s as [a l c p]. cbn in *. subst.
    f_equal. lia.
  - inversion HF as [|g' gs' Hg HF']; subst.
    cbn [flat_map]. rewrite run_app.
    assert (triggers (fst g) s) as T.
    { split; [exact HL|]. left. rewrite HA. lra. }
    rewrite (run_gesture g s T).
    rewrite onWheel_forward by (try assumption; rewrite HA; lra).
    cbn [currentSection].
    rewrite IH; cbn [locked wheelAccum currentSection pendingTimers]; try reflexivity.
    + f_equal. unfold valid_index in HV. cbn [length]. lia.
    + unfold valid_index in *. lia.
    + exact HF'.
Qed.

Lemma run_gestures_backward (gs : list (R * list R)) : forall s,
  locked s = false -> wheelAccum s = 0 -> valid_index (currentSection s) ->
  Forall (fun g => fst g <= - WHEEL_THRESHOLD) gs ->
  run s (flat_map gesture gs)
    = mkStepper 0 false
        (Z.max (currentSection s - Z.of_nat (length gs)) 0)
        (pendingTimers s).
Proof.
  induction gs as [|g gs IH]; intros s HL HA HV HF.
  - unfold run. cbn [flat_map fold_left length Z.of_nat].
    unfold valid_index in HV. destruct s as [a l c p]. cbn in *. subst.
    f_equal. lia.
  - inversion HF as [|g' gs' Hg HF']; subst.
    cbn [flat_map]. rewrite run_app.
    assert (triggers (fst g) s) as T.
    { split; [exact HL|]. right. rewrite HA. lra. }
    rewrite (run_gesture g s T).
    rewrite onWheel_backward
      by (try assumption; rewrite HA; unfold WHEEL_THRESHOLD in *; lra).
    cbn [currentSection].
    rewrite IH; cbn [locked wheelAccum currentSection pendingTimers]; try reflexivity.
    + f_equal. unfold valid_index in HV. cbn [length]. lia.
    + unfold valid_index in *. rewrite last_stop_eq in *. lia.
    + exact HF'.
Qed.

(** C3.  A wheel event that brings the accumulated [deltaY] to the
    threshold or beyond, on either side ([>=] and [<=], so the exact
    boundary triggers), moves the index by one stop clamped to
    [0, stopCount - 1], resets the accumulator and locks the stepper; at
    the last (first) stop the forward (backward) move leaves the index
    where it is; while locked, any burst of wheel events changes
    nothing, so a burst moves the index by one stop at most; and the
    index stays within [0, stopCount - 1] over every run of events.
    The timeout leaves the index and the accumulator alone and releases
    the lock, so a gesture (trigger, burst, timeout) moves the index by
    exactly one clamped stop and leaves the stepper ready for the next:
    [n] forward gestures from index [i] end at [min (i + n) last], [n]
    backward gestures at [max (i - n) 0].  A burst of any length on an
    unlocked stepper either leaves index and lock as they were, or has
    moved the index by one clamped stop and scheduled one timeout. *)
Theorem snap_stepper (s : Stepper) (dy : R) (ps : list R) (es : list Event)
    (gs : list (R * list R)) :
  (locked s = false -> wheelAccum s + dy >= WHEEL_THRESHOLD ->
     onWheel dy s = mkStepper 0 true (Z.min (currentSection s + 1) last_stop)
                              (S (pendingTimers s)) /\
     (valid_index (currentSection s) ->
      currentSection (onWheel dy s)
        = if Z.eqb (currentSection s) last_stop
          then currentSection s else (currentSection s + 1)%Z)) /\
  (locked s = false -> wheelAccum s + dy <= - WHEEL_THRESHOLD ->
     onWheel dy s = mkStepper 0 true (Z.max (currentSection s - 1) 0)
                              (S (pendingTimers s)) /\
     (valid_index (currentSection s) ->
      currentSection (onWheel dy s)
        = if Z.eqb (currentSection s) 0
          then currentSection s else (currentSection s - 1)%Z)) /\
  (locked s = false ->
     - WHEEL_THRESHOLD < wheelAccum s + dy < WHEEL_THRESHOLD ->
     onWheel dy s = mkStepper (wheelAccum s + dy) false (currentSection s)
                              (pendingTimers s)) /\
  (locked s = true -> run s (map Wheel ps) = s) /\
  (triggers dy s -> run (onWheel dy s) (map Wheel ps) = onWheel dy s) /\
  (valid_index (currentSection s) ->
     Z.abs (currentSection (run s (map Wheel ps)) - currentSection s) <= 1)%Z /\
  (Forall valid_event es -> valid_index (currentSection s) ->
     0 <= currentSection (run s es) <= Z.of_nat (length SECTION_STOPS) - 1)%Z /\
  (lock_consistent s -> lock_consistent (run s es)) /\
  (currentSection (onTimeout s) = currentSection s /\
   wheelAccum (onTimeout s) = wheelAccum s) /\
  (lock_consistent s -> locked (onTimeout s) = false) /\
  (triggers dy s ->
     run s (gesture (dy, ps))
       = mkStepper 0 false (currentSection (onWheel dy s)) (pendingTimers s)) /\
  (locked s = false -> wheelAccum s = 0 -> valid_index (currentSection s) ->
   Forall (fun g => fst g >= WHEEL_THRESHOLD) gs ->
     run s (flat_map gesture gs)
       = mkStepper 0 false
           (Z.min (currentSection s + Z.of_nat (length gs)) last_stop)
           (pendingTimers s)) /\
  (locked s = false -> wheelAccum s = 0 -> valid_index (currentSection s) ->
   Forall (fun g => fst g <= - WHEEL_THRESHOLD) gs ->
     run s (flat_map gesture gs)
       = mkStepper 0 false
           (Z.max (currentSection s - Z.of_nat (length gs)) 0)
           (pendingTimers s)) /\
  (locked s = false ->
     (locked (run s (map Wheel ps)) = false /\
      currentSection (run s (map Wheel ps)) = currentSection s /\
      pendingTimers (run s (map Wheel ps)) = pendingTimers s) \/
     (locked (run s (map Wheel ps)) = true /\
      wheelAccum (run s (map Wheel ps)) = 0 /\
      pendingTimers (run s (map Wheel ps)) = S (pendingTimers s) /\
      (currentSection (run s (map Wheel ps))
         = Z.min (currentSection s + 1) last_stop \/
       currentSection (run s (map Wheel ps))
         = Z.max (currentSection s - 1) 0))).
Proof.
  split; [|split; [|split; [|split; [|split; [|split; [|split; [|split;
    [|split; [|split; [|split; [|split; [|split]]]]]]]]]]]].
  - intros HL H. split; [apply onWheel_forward; assumption|].
    unfold valid_index. rewrite last_stop_eq. intros V.
    rewrite onWheel_forward by assumption. cbn. rewrite ?last_stop_eq.
    destruct (Z.eqb_spec (currentSection s) 6); lia.
  - intros HL H. split; [apply onWheel_backward; assumption|].
    unfold valid_index. rewrite last_stop_eq. intros V.
    rewrite onWheel_backward by assumption. cbn.
    destruct (Z.eqb_spec (currentSection s) 0); lia.
  - apply onWheel_accumulate.
  - apply burst_locked.
  - intros T. apply burst_locked. apply (onWheel_triggered dy s T).
  - apply burst_at_most_one.
  - apply run_valid.
  - apply run_lock_consistent.
  - apply onTimeout_index.
  - apply onTimeout_unlocks.
  - intros T. apply (run_gesture (dy, ps) s T).
  - apply run_gestures_forward.
  - apply run_gestures_backward.
  - apply burst_outcome.
Qed.

Lemma snap_stepper_witness :
  (* a pulse exactly at the threshold, from rest *)
  currentSection (onWheel 60 stepper_init) = 1%Z /\
  (* fifty more pulses before the timeout *)
  run (onWheel 60 stepper_init) (map Wheel (repeat 100 50))
    = onWheel 60 stepper_init /\
  (* forward at the last stop, backward at the first *)
  currentSection (onWheel 100 (mkStepper 0 false 6 0)) = 6%Z /\
  currentSection (onWheel (-60) stepper_init) = 0%Z /\
  (* a small pulse only accumulates *)
  onWheel 25 stepper_init = mkStepper (0 + 25) false 0 0 /\
  (* a locked stepper ignores a burst *)
  run (mkStepper 0 true 2 1) (map Wheel [100; 100]) = mkStepper 0 true 2 1 /\
  (Z.abs (currentSection (run stepper_init (map Wheel [30%R; 30%R; 100%R]))
          - currentSection stepper_init) <= 1)%Z /\
  (0 <= currentSection (run stepper_init [Wheel 60; Click 6; Timeout; Wheel 100])
     <= Z.of_nat (length SECTION_STOPS) - 1)%Z /\
  lock_consistent (run stepper_init [Wheel 60; Timeout]) /\
  (* the timeout releases the lock taken by a trigger *)
  locked (onTimeout (mkStepper 0 true 1 1)) = false /\
  (* three forward gestures, the first with a burst of fifty pulses *)
  run stepper_init
      (flat_map gesture [(60, repeat 100 50); (75, [10]); (120, [])])
    = mkStepper 0 false
        (Z.min (currentSection stepper_init + Z.of_nat 3) last_stop) 0 /\
  (* two backward gestures from stop 1 end at the first stop *)
  run (mkStepper 0 false 1 0) (flat_map gesture [(-60, []); (-90, [-5])])
    = mkStepper 0 false (Z.max (1 - Z.of_nat 2) 0) 0 /\
  (* small pulses that add up to the threshold trigger once *)
  (pendingTimers (run stepper_init (map Wheel [25; 25; 25; 100])) = 1%nat /\
   (currentSection (run stepper_init (map Wheel [25; 25; 25; 100]))
      = Z.min (0 + 1) last_stop \/
    currentSection (run stepper_init (map Wheel [25; 25; 25; 100]))
      = Z.max (0 - 1) 0)).
Proof.
  assert (valid_index 0) as V0 by (unfold valid_index; rewrite last_stop_eq; lia).
  assert (valid_index 1) as V1 by (unfold valid_index; rewrite last_stop_eq; lia).
  assert (valid_index 6) as V6 by (unfold valid_index; rewrite last_stop_eq; lia).
  assert (0 + 60 >= WHEEL_THRESHOLD) as T60 by (unfold WHEEL_THRESHOLD; lra).
  split; [|split; [|split; [|split; [|split; [|split; [|split; [|split;
    [|split; [|split; [|split; [|split]]]]]]]]]]].
  - destruct (snap_stepper stepper_init 60 [] [] []) as (H & _).
    destruct (H eq_refl T60) as (_ & H2). exact (H2 V0).
  - destruct (snap_stepper stepper_init 60 (repeat 100 50) [] [])
      as (_ & _ & _ & _ & H & _).
    apply H. split; [reflexivity | left; exact T60].
  - destruct (snap_stepper (mkStepper 0 false 6 0) 100 [] [] []) as (H & _).
    assert (0 + 100 >= WHEEL_THRESHOLD) as T by (unfold WHEEL_THRESHOLD; lra).
    destruct (H eq_refl T) as (_ & H2). exact (H2 V6).
  - destruct (snap_stepper stepper_init (-60) [] [] []) as (_ & H & _).
    assert (0 + -60 <= - WHEEL_THRESHOLD) as T by (unfold WHEEL_THRESHOLD; lra).
    destruct (H eq_refl T) as (_ & H2). exact (H2 V0).
  - destruct (snap_stepper stepper_init 25 [] [] []) as (_ & _ & H & _).
    apply H; [reflexivity|]. cbn. unfold WHEEL_THRESHOLD. lra.
  - destruct (snap_stepper (mkStepper 0 true 2 1) 0 [100; 100] [] [])
      as (_ & _ & _ & H & _).
    apply H. reflexivity.
  - destruct (snap_stepper stepper_init 0 [30; 30; 100] [] [])
      as (_ & _ & _ & _ & _ & H & _).
    apply H. exact V0.
  - destruct (snap_stepper stepper_init 0 []
                [Wheel 60; Click 6; Timeout; Wheel 100] [])
      as (_ & _ & _ & _ & _ & _ & H & _).
    apply H; [|exact V0].
    repeat apply Forall_cons; try apply Forall_nil; try exact I. exact V6.
  - destruct (snap_stepper stepper_init 0 [] [Wheel 60; Timeout] [])
      as (_ & _ & _ & _ & _ & _ & _ & H & _).
    apply H. reflexivity.
  - destruct (snap_stepper (mkStepper 0 true 1 1) 0 [] [] [])
      as (_ & _ & _ & _ & _ & _ & _ & _ & _ & H & _).
    apply H. reflexivity.
  - destruct (snap_stepper stepper_init 0 [] []
                [(60, repeat 100 50); (75, [10]); (120, [])])
      as (_ & _ & _ & _ & _ & _ & _ & _ & _ & _ & _ & H & _).
    apply H; [reflexivity | reflexivity | exact V0 |].
    unfold WHEEL_THRESHOLD.
    repeat apply Forall_cons; try apply Forall_nil; cbn [fst]; lra.
  - destruct (snap_stepper (mkStepper 0 false 1 0) 0 [] []
                [(-60, []); (-90, [-5])])
      as (_ & _ & _ & _ & _ & _ & _ & _ & _ & _ & _ & _ & H & _).
    apply H; [reflexivity | reflexivity | exact V1 |].
    unfold WHEEL_THRESHOLD.
    repeat apply Forall_cons; try apply Forall_nil; cbn [fst]; lra.
  - destruct (snap_stepper stepper_init 0 [25; 25; 25; 100] [] [])
      as (_ & _ & _ & _ & _ & _ & _ & _ & _ & _ & _ & _ & _ & H).
    destruct (H eq_refl) as [(L & _) | (_ & _ & P & [E | E])].
    + exfalso. revert L. unfold run. cbn [map fold_left step].
      unfold onWheel at 4. cbn [locked stepper_init wheelAccum].
      destruct (Rge_dec (0 + 25) WHEEL_THRESHOLD) as [G|_];
        [unfold WHEEL_THRESHOLD in G; lra|].
      destruct (Rle_dec (0 + 25) (- WHEEL_THRESHOLD)) as [G|_];
        [unfold WHEEL_THRESHOLD in G; lra|].
      unfold onWheel at 3. cbn [locked wheelAccum].
      destruct (Rge_dec (0 + 25 + 25) WHEEL_THRESHOLD) as [G|_];
        [unfold WHEEL_THRESHOLD in G; lra|].
      destruct (Rle_dec (0 + 25 + 25) (- WHEEL_THRESHOLD)) as [G|_];
        [unfold WHEEL_THRESHOLD in G; lra|].
      unfold onWheel at 2. cbn [locked wheelAccum].
      destruct (Rge_dec (0 + 25 + 25 + 25) WHEEL_THRESHOLD) as [_|G];
        [|unfold WHEEL_THRESHOLD in G; lra].
      cbn. discriminate.
    + split; [exact P | left; exact E].
    + split; [exact P | right; exact E].
Defined.

(* ------------------------------------------------------------------ *)
(** ** Bio phase machine *)
(* ------------------------------------------------------------------ *)

Lemma bio_frame_unmounted (t delta : R) (b : Bio) :
  bio_frame false t delta b = b.
Proof. reflexivity. Qed.

Lemma bio_frame_reset (t delta : R) (b : Bio) :
  t < BIO_ENTER - 0.04 ->
  bio_frame true t delta b
    = match phaseRef b with idle => b | _ => mkBio idle 0 end.
Proof.
  intros H. unfold bio_frame. cbn [negb].
  destruct (Rlt_dec t (BIO_ENTER - 0.04)); [|tauto].
  destruct b as [[] tm]; reflexivity.
Qed.

(** Past the reset line a frame adds [delta] to the timer and then takes
    at most one of the four guarded assignments. *)
Lemma bio_frame_active (t delta : R) (b : Bio) :
  ~ t < BIO_ENTER - 0.04 ->
  bio_frame true t delta b
    = let tm := timerRef b + delta in
      match phaseRef b with
      | idle => if Rge_dec t BIO_ENTER then mkBio debris 0 else mkBio idle tm
      | debris => if Rgt_dec tm 1.4 then mkBio collapse 0 else mkBio debris tm
      | collapse => if Rgt_dec tm 0.4 then mkBio appeared 0 else mkBio collapse tm
      | appeared => if Rgt_dec tm 0.6 then mkBio afterglow tm else mkBio appeared tm
      | afterglow => mkBio afterglow tm
      end.
Proof.
  intros H. unfold bio_frame. cbn [negb].
  destruct (Rlt_dec t (BIO_ENTER - 0.04)); [tauto|].
  destruct b as [[] tm];
    unfold advance_appeared, advance_collapse, advance_debris, advance_idle;
    cbn [phaseRef timerRef Phase_eqb].
  - destruct (Rge_dec t BIO_ENTER); cbn [phaseRef timerRef Phase_eqb].
    + destruct (Rgt_dec 0 1.4); [lra | reflexivity].
    + reflexivity.
  - destruct (Rgt_dec (tm + delta) 1.4); cbn [phaseRef timerRef Phase_eqb].
    + destruct (Rgt_dec 0 0.4); [lra | reflexivity].
    + reflexivity.
  - destruct (Rgt_dec (tm + delta) 0.4); cbn [phaseRef timerRef Phase_eqb].
    + destruct (Rgt_dec 0 0.6); [lra | reflexivity].
    + reflexivity.
  - destruct (Rgt_dec (tm + delta) 0.6); reflexivity.
  - reflexivity.
Qed.

Lemma bio_frame_allowed (mounted : bool) (t delta : R) (b : Bio) :
  allowed (phaseRef b) (phaseRef (bio_frame mounted t delta b)).
Proof.
  unfold allowed. destruct mounted; [|left; reflexivity].
  destruct (Rlt_dec t (BIO_ENTER - 0.04)) as [L|L].
  - rewrite bio_frame_reset by exact L.
    destruct b as [[] tm]; cbn; auto.
  - rewrite bio_frame_active by exact L.
    destruct b as [[] tm]; cbn [phaseRef timerRef];
      repeat match goal with
      | |- context [if ?c then _ else _] => destruct c
      end; cbn; auto.
Qed.

Lemma bio_trace_allowed (ks : list Tick) : forall b,
  phases_allowed (phaseRef b) (bio_trace b ks).
Proof.
  induction ks as [|[[m t] d] ks IH]; intros b; [exact I|].
  cbn [bio_trace phases_allowed bio_tick]. split.
  - apply bio_frame_allowed.
  - apply IH.
Qed.

(** C10.  In one frame the phase stays, advances to its successor in
    idle, debris, collapse, appeared, afterglow, or is reset to idle.
    An advance needs the scroll position at or past the reset line,
    [BIO_ENTER] reached when leaving idle, and the timer past the bound
    of the phase otherwise; with these gates met the advance happens.
    The reset happens exactly when the scroll position is below
    [BIO_ENTER - 0.04].  Over a run of frames no other change of phase
    occurs. *)
Theorem bio_phase_machine (mounted : bool) (t delta : R) (b : Bio)
    (ks : list Tick) :
  let b' := bio_frame mounted t delta b in
  (phaseRef b' = phaseRef b \/
   next_phase (phaseRef b) = Some (phaseRef b') \/
   (phaseRef b' = idle /\ phaseRef b <> idle)) /\
  (next_phase (phaseRef b) = Some (phaseRef b') ->
     mounted = true /\ t >= BIO_ENTER - 0.04 /\
     (phaseRef b = idle -> t >= BIO_ENTER) /\
     (forall T, phase_timeout (phaseRef b) = Some T -> timerRef b + delta > T)) /\
  (mounted = true -> t >= BIO_ENTER - 0.04 ->
     (phaseRef b = idle -> t >= BIO_ENTER -> phaseRef b' = debris) /\
     (forall T q, phase_timeout (phaseRef b) = Some T ->
                  next_phase (phaseRef b) = Some q ->
                  timerRef b + delta > T -> phaseRef b' = q)) /\
  (mounted = true -> t < BIO_ENTER - 0.04 -> phaseRef b' = idle) /\
  (phaseRef b <> idle -> phaseRef b' = idle ->
     mounted = true /\ t < BIO_ENTER - 0.04) /\
  phases_allowed (phaseRef bio_init) (bio_trace bio_init ks).
Proof.
  cbv zeta.
  split; [|split; [|split; [|split; [|split]]]].
  - destruct mounted; [|left; reflexivity].
    destruct (Rlt_dec t (BIO_ENTER - 0.04)) as [L|L].
    + rewrite bio_frame_reset by exact L.
      destruct b as [[] tm]; cbn; auto; right; right; split; congruence.
    + rewrite bio_frame_active by exact L.
      destruct b as [[] tm]; cbn [phaseRef timerRef];
        repeat match goal with
        | |- context [if ?c then _ else _] => destruct c
        end; cbn; auto.
  - destruct mounted.
    + destruct (Rlt_dec t (BIO_ENTER - 0.04)) as [L|L].
      * rewrite bio_frame_reset by exact L.
        destruct b as [[] tm]; cbn; intros E; discriminate E.
      * rewrite bio_frame_active by exact L.
        destruct b as [[] tm]; cbn [phaseRef timerRef];
          repeat match goal with
          | |- context [if ?c then _ else _] => destruct c
          end; cbn; intros E; try discriminate E;
          (split; [reflexivity|]); (split; [lra|]);
          (split; [intros; try discriminate; assumption|]);
          intros T ET; inversion ET; subst; lra.
    + rewrite bio_frame_unmounted.
      destruct b as [[] tm]; cbn; intros E; discriminate E.
  - intros -> G. rewrite bio_frame_active by lra.
    destruct b as [[] tm]; cbn [phaseRef timerRef phase_timeout next_phase];
      (split; [intros Hi Ht; try discriminate Hi
              |intros T q ET EQ HT; try discriminate ET;
               inversion ET; inversion EQ; subst]);
      repeat match goal with
      | |- context [if ?c then _ else _] => destruct c
      end; cbn; try reflexivity; try lra; try tauto.
  - intros -> L. rewrite bio_frame_reset by exact L.
    destruct b as [[] tm]; reflexivity.
  - intros Hne Hi. destruct mounted.
    + split; [reflexivity|].
      destruct (Rlt_dec t (BIO_ENTER - 0.04)) as [L|L]; [exact L|].
      rewrite bio_frame_active in Hi by exact L.
      destruct b as [[] tm]; cbn [phaseRef timerRef] in *;
        repeat match type of Hi with
        | context [if ?c then _ else _] => destruct c
        end; cbn in Hi; try discriminate Hi; congruence.
    + rewrite bio_frame_unmounted in Hi. contradiction.
  - apply bio_trace_allowed.
Qed.

Lemma bio_phase_machine_witness :
  phaseRef (bio_frame true 0.9 0.016 bio_init) = debris /\
  phaseRef (bio_frame true 0.9 0.016 (mkBio debris 1.39)) = collapse /\
  phaseRef (bio_frame true 0.5 0.016 (mkBio appeared 0.2)) = idle /\
  (true = true /\ 0.9 >= BIO_ENTER - 0.04 /\
   (phaseRef bio_init = idle -> 0.9 >= BIO_ENTER) /\
   (forall T, phase_timeout (phaseRef bio_init) = Some T ->
              timerRef bio_init + 0.016 > T)) /\
  (true = true /\ 0.5 < BIO_ENTER - 0.04).
Proof.
  assert (phaseRef (bio_frame true 0.9 0.016 bio_init) = debris) as E1.
  { destruct (bio_phase_machine true 0.9 0.016 bio_init []) as (_ & _ & H & _).
    destruct (H eq_refl) as (H1 & _); [unfold BIO_ENTER; lra|].
    apply H1; [reflexivity | unfold BIO_ENTER; lra]. }
  assert (phaseRef (bio_frame true 0.5 0.016 (mkBio appeared 0.2)) = idle) as E3.
  { destruct (bio_phase_machine true 0.5 0.016 (mkBio appeared 0.2) [])
      as (_ & _ & _ & H & _).
    apply H; [reflexivity | unfold BIO_ENTER; lra]. }
  split; [exact E1|]. split; [|split; [exact E3|split]].
  - destruct (bio_phase_machine true 0.9 0.016 (mkBio debris 1.39) [])
      as (_ & _ & H & _).
    destruct (H eq_refl) as (_ & H2); [unfold BIO_ENTER; lra|].
    apply (H2 1.4); [reflexivity | reflexivity | cbn; lra].
  - destruct (bio_phase_machine true 0.9 0.016 bio_init []) as (_ & H & _).
    apply H. rewrite E1. reflexivity.
  - destruct (bio_phase_machine true 0.5 0.016 (mkBio appeared 0.2) [])
      as (_ & _ & _ & _ & H & _).
    apply H; [cbn; discriminate | exact E3].
Defined.

(* ------------------------------------------------------------------ *)
(** ** Velocity estimator *)
(* ------------------------------------------------------------------ *)

Lemma divisor_floor (delta : R) : 0.001 <= Rmax delta 0.001.
Proof. split_R; lra. Qed.

Lemma rawVelocity_nonneg (t prev delta : R) : 0 <= rawVelocity t prev delta.
Proof.
  unfold rawVelocity, Rdiv. pose proof (divisor_floor delta) as Hd.
  apply Rmult_le_pos; [apply Rabs_pos|].
  left. apply Rinv_0_lt_compat. lra.
Qed.

Lemma velocity_update_bounded (v t prev delta : R) :
  0 <= delta -> 0 <= v <= 1 -> 0 <= velocity_update v t prev delta <= 1.
Proof.
  intros Hd Hv. unfold velocity_update.
  apply dampValue_in_range; [lra | exact Hv | apply clamp_bounds; lra].
Qed.

Lemma CameraController_velocity (path : list Keyframe) (t delta : R) (c : Camera) :
  velocityRef (CameraController path t delta c)
    = dampValue (velocityRef c)
                (clamp (Rabs (t - prevScroll c) / Rmax delta 0.001 * 40) 0 1)
                14 delta.
Proof. reflexivity. Qed.

Lemma camera_run_velocity_bounded (path : list Keyframe) (ticks : list (R * R)) :
  forall c,
  Forall (fun k => 0 <= snd k) ticks -> 0 <= velocityRef c <= 1 ->
  0 <= velocityRef (camera_run path ticks c) <= 1.
Proof.
  induction ticks as [|[t d] ticks IH]; intros c Hd Hc; [exact Hc|].
  inversion Hd; subst. cbn [camera_run]. apply IH; [assumption|].
  rewrite CameraController_velocity. apply velocity_update_bounded; assumption.
Qed.

(** C8.  Each frame divides [|t - previous|] by [max(delta, 0.001)],
    which is at least 0.001, so never by zero; the rate times 40 is
    clamped into [0,1] and the estimate is damped toward it; starting
    from 0 the estimate stays within [0,1] after every run of frames
    (frame deltas being non-negative). *)
Theorem velocity_estimate_bounded (path : list Keyframe)
    (ticks : list (R * R)) (t delta : R) (c : Camera) :
  velocityRef (CameraController path t delta c)
    = dampValue (velocityRef c)
                (clamp (Rabs (t - prevScroll c) / Rmax delta 0.001 * 40) 0 1)
                14 delta /\
  prevScroll (CameraController path t delta c) = t /\
  0 < 0.001 <= Rmax delta 0.001 /\
  0 <= clamp (rawVelocity t (prevScroll c) delta * 40) 0 1 <= 1 /\
  (Forall (fun k => 0 <= snd k) ticks ->
     0 <= velocityRef (camera_run path ticks camera_init) <= 1).
Proof.
  split; [reflexivity|]. split; [reflexivity|].
  split; [split; [lra | apply divisor_floor]|].
  split; [apply clamp_bounds; lra|].
  intros H. apply camera_run_velocity_bounded; [exact H | cbn; lra].
Qed.

Lemma velocity_estimate_bounded_witness :
  0 <= velocityRef (camera_run CAMERA_PATH [(0.1, 0); (0.2, 0.016); (0.2, 0.5)]
                               camera_init) <= 1.
Proof.
  destruct (velocity_estimate_bounded CAMERA_PATH
              [(0.1, 0); (0.2, 0.016); (0.2, 0.5)] 0 0 camera_init)
    as (_ & _ & _ & _ & H).
  apply H. repeat apply Forall_cons; try apply Forall_nil; cbn; lra.
Defined.

(* ------------------------------------------------------------------ *)
(** ** Keyframe track *)
(* ------------------------------------------------------------------ *)

Lemma smoothstep_0 : smoothstep 0 = 0.
Proof. unfold smoothstep. ring. Qed.

Lemma smoothstep_1 : smoothstep 1 = 1.
Proof. unfold smoothstep. ring. Qed.

Lemma smoothstep_mono (x y : R) :
  0 <= x -> x <= y -> y <= 1 -> smoothstep x <= smoothstep y.
Proof.
  intros Hx Hxy Hy. unfold smoothstep.
  assert (0 <= (y - x) * (3 * (x + y) - 2 * (x * x + x * y + y * y))) as H.
  { apply Rmult_le_pos; [lra|]. nra. }
  nra.
Qed.

Lemma smoothstep_unit (x : R) : 0 <= x <= 1 -> 0 <= smoothstep x <= 1.
Proof.
  intros [H0 H1]. split.
  - rewrite <- smoothstep_0. apply smoothstep_mono; lra.
  - rewrite <- smoothstep_1. apply smoothstep_mono; lra.
Qed.

Lemma clamp_id (x lo hi : R) : lo <= x <= hi -> clamp x lo hi = x.
Proof. intros H. unfold clamp. split_R; lra. Qed.

Lemma clamp_low (x lo hi : R) : x <= lo -> lo <= hi -> clamp x lo hi = lo.
Proof. intros H1 H2. unfold clamp. split_R; lra. Qed.

Lemma clamp_high (x lo hi : R) : hi <= x -> lo <= hi -> clamp x lo hi = hi.
Proof. intros H1 H2. unfold clamp. split_R; lra. Qed.

Lemma lerp_0 (x y : R) : MathUtils.lerp x y 0 = x.
Proof. unfold MathUtils.lerp. ring. Qed.

Lemma lerp_1 (x y : R) : MathUtils.lerp x y 1 = y.
Proof. unfold MathUtils.lerp. ring. Qed.

Lemma lerpVectors_0 (v w : Vec3) : lerpVectors v w 0 = v.
Proof.
  destruct v as [[x1 y1] z1], w as [[x2 y2] z2]. cbn.
  repeat f_equal; ring.
Qed.

Lemma lerpVectors_1 (v w : Vec3) : lerpVectors v w 1 = w.
Proof.
  destruct v as [[x1 y1] z1], w as [[x2 y2] z2]. cbn.
  repeat f_equal; ring.
Qed.

Lemma within_tail (a : Keyframe) (rest : list Keyframe) (t : R) (k : nat) :
  within (a :: rest) t (S k) <-> within rest t k.
Proof. reflexivity. Qed.

(** When the loop breaks, it breaks at the first index whose interval
    holds [t]. *)
Lemma scan_segments_some (t : R) (path : list Keyframe) : forall i0 i,
  scan_segments t i0 path = Some i ->
  exists j, i = (i0 + j)%nat /\ (j + 1 < length path)%nat /\
            within path t j /\
            forall k, (k < j)%nat -> ~ within path t k.
Proof.
  induction path as [|a rest IH]; intros i0 i H; [discriminate|].
  destruct rest as [|b tl]; [discriminate|].
  cbn [scan_segments] in H.
  assert (scan_segments t (S i0) (b :: tl) = Some i ->
          ~ within (a :: b :: tl) t 0 ->
          exists j, i = (i0 + j)%nat /\ (j + 1 < length (a :: b :: tl))%nat /\
                    within (a :: b :: tl) t j /\
                    forall k, (k < j)%nat -> ~ within (a :: b :: tl) t k) as Next.
  { intros H' N0. apply IH in H'. destruct H' as (j & -> & Hlen & Hc & Hmin).
    exists (S j). split; [lia|]. split; [cbn [length] in *; lia|].
    split; [apply within_tail; exact Hc|].
    intros k Hk. destruct k as [|k]; [exact N0|].
    rewrite within_tail. apply Hmin. lia. }
  destruct (Rge_dec t (kf_t a)) as [G|G].
  - destruct (Rle_dec t (kf_t b)) as [L|L].
    + inversion H; subst. exists 0%nat. split; [lia|].
      split; [cbn [length]; lia|]. split; [unfold within; cbn; lra|].
      intros k Hk. lia.
    + apply Next; [exact H|]. unfold within. cbn. lra.
  - apply Next; [exact H|]. unfold within. cbn. lra.
Qed.

(** When the loop runs to its end, no interval holds [t]. *)
Lemma scan_segments_none (t : R) (path : list Keyframe) : forall i0,
  scan_segments t i0 path = None ->
  forall k, (k + 1 < length path)%nat -> ~ within path t k.
Proof.
  induction path as [|a rest IH]; intros i0 H k Hk; [cbn in Hk; lia|].
  destruct rest as [|b tl]; [cbn in Hk; lia|].
  cbn [scan_segments] in H.
  assert (~ within (a :: b :: tl) t 0 /\
          scan_segments t (S i0) (b :: tl) = None) as [N0 Hrest].
  { unfold within. cbn.
    destruct (Rge_dec t (kf_t a)) as [G|G].
    - destruct (Rle_dec t (kf_t b)) as [L|L]; [discriminate|]. split; [lra|exact H].
    - split; [lra|exact H]. }
  destruct k as [|k]; [exact N0|].
  rewrite within_tail. apply (IH _ Hrest). cbn [length] in *. lia.
Qed.

Lemma sorted_adjacent (path : list Keyframe) :
  strictly_increasing (map kf_t path) ->
  forall k, (k + 1 < length path)%nat ->
  kf_t (keyframe_at path k) < kf_t (keyframe_at path (k + 1)).
Proof.
  induction path as [|a rest IH]; intros S k Hk; [cbn in Hk; lia|].
  destruct rest as [|b tl]; [cbn in Hk; lia|].
  cbn [map strictly_increasing] in S. destruct S as [Hab S].
  destruct k as [|k]; [exact Hab|].
  apply (IH S k). cbn [length] in *. lia.
Qed.

Lemma sorted_lt (path : list Keyframe) :
  strictly_increasing (map kf_t path) ->
  forall j i, (i < j)%nat -> (j < length path)%nat ->
  kf_t (keyframe_at path i) < kf_t (keyframe_at path j).
Proof.
  intros S. induction j as [|j IH]; intros i Hij Hj; [lia|].
  pose proof (sorted_adjacent path S j) as A.
  replace (j + 1)%nat with (Datatypes.S j) in A by lia.
  specialize (A ltac:(lia)).
  destruct (Nat.eq_dec i j) as [->|Hne]; [exact A|].
  specialize (IH i ltac:(lia) ltac:(lia)). lra.
Qed.

Lemma sorted_le (path : list Keyframe) :
  strictly_increasing (map kf_t path) ->
  forall i j, (i <= j)%nat -> (j < length path)%nat ->
  kf_t (keyframe_at path i) <= kf_t (keyframe_at path j).
Proof.
  intros S i j Hij Hj. destruct (Nat.eq_dec i j) as [->|Hne]; [lra|].
  left. apply sorted_lt; [exact S | lia | exact Hj].
Qed.

(** The linear fraction [(t - a) / (b - a)] on an interval [a < b]. *)
Lemma fraction_unit (a b t : R) :
  a < b -> a <= t <= b -> 0 <= (t - a) / (b - a) <= 1.
Proof.
  intros Hab Ht. assert (0 < / (b - a)) as Hi by (apply Rinv_0_lt_compat; lra).
  unfold Rdiv. split; [nra|].
  replace 1 with ((b - a) * / (b - a)) by (field; lra). nra.
Qed.

Lemma fraction_ge_1 (a b t : R) : a < b -> b <= t -> 1 <= (t - a) / (b - a).
Proof.
  intros Hab Ht. assert (0 < / (b - a)) as Hi by (apply Rinv_0_lt_compat; lra).
  unfold Rdiv. replace 1 with ((b - a) * / (b - a)) by (field; lra). nra.
Qed.

Lemma fraction_le_0 (a b t : R) : a < b -> t <= a -> (t - a) / (b - a) <= 0.
Proof.
  intros Hab Ht. assert (0 < / (b - a)) as Hi by (apply Rinv_0_lt_compat; lra).
  unfold Rdiv. nra.
Qed.

Lemma fraction_mono (a b t u : R) :
  a < b -> t <= u -> (t - a) / (b - a) <= (u - a) / (b - a).
Proof.
  intros Hab Ht. assert (0 < / (b - a)) as Hi by (apply Rinv_0_lt_compat; lra).
  unfold Rdiv. nra.
Qed.

Lemma fraction_start (a b : R) : a < b -> (a - a) / (b - a) = 0.
Proof. intros H. field. lra. Qed.

Lemma fraction_end (a b : R) : a < b -> (b - a) / (b - a) = 1.
Proof. intros H. field. lra. Qed.

Section Track.

Variable path : list Keyframe.
Hypothesis path_sorted : strictly_increasing (map kf_t path).
Hypothesis path_length : (2 <= length path)%nat.

Local Abbreviation T k := (kf_t (keyframe_at path k)).
Local Abbreviation n := (length path).

Lemma startIndex_beyond (t : R) :
  T (n - 1) <= t -> startIndex path t = (n - 2)%nat.
Proof.
  intros H. unfold startIndex.
  destruct (Rge_dec t (T (n - 1))); [reflexivity | lra].
Qed.

Lemma startIndex_scan (t : R) :
  t < T (n - 1) ->
  startIndex path t = match scan_segments t 0 path with
                      | Some i => i
                      | None => 0%nat
                      end.
Proof.
  intros H. unfold startIndex.
  destruct (Rge_dec t (T (n - 1))); [lra | reflexivity].
Qed.

Lemma first_le_last : T 0 <= T (n - 1).
Proof. apply sorted_le; [exact path_sorted | lia | lia]. Qed.

Lemma startIndex_before (t : R) : t < T 0 -> startIndex path t = 0%nat.
Proof.
  intros H. pose proof first_le_last as FL.
  rewrite startIndex_scan by lra.
  destruct (scan_segments t 0 path) as [i|] eqn:E; [|reflexivity].
  apply scan_segments_some in E. destruct E as (j & -> & Hj & [W _] & _).
  pose proof (sorted_le path path_sorted 0 j ltac:(lia) ltac:(lia)). lra.
Qed.

(** If no interval holds [t] although [t] is not before the first
    keyframe, then [t] is past every keyframe. *)
Lemma no_segment_escape (t : R) :
  (forall k, (k + 1 < n)%nat -> ~ within path t k) ->
  T 0 <= t -> forall k, (k < n)%nat -> T k <= t.
Proof.
  intros N H0. induction k as [|k IH]; intros Hk; [exact H0|].
  specialize (IH ltac:(lia)). specialize (N k ltac:(lia)).
  unfold within in N. replace (k + 1)%nat with (S k) in N by lia. lra.
Qed.

(** Between the first and the last keyframe the loop breaks, at the
    first interval that holds [t]. *)
Lemma startIndex_within (t : R) :
  T 0 <= t -> t < T (n - 1) ->
  (startIndex path t + 1 < n)%nat /\
  within path t (startIndex path t) /\
  forall k, (k < startIndex path t)%nat -> ~ within path t k.
Proof.
  intros H0 H1. rewrite startIndex_scan by exact H1.
  destruct (scan_segments t 0 path) as [i|] eqn:E.
  - apply scan_segments_some in E. destruct E as (j & -> & Hj & W & M).
    cbn [Nat.add]. auto.
  - exfalso.
    pose proof (no_segment_escape t (scan_segments_none t path 0 E) H0
                  (n - 1)%nat ltac:(lia)). lra.
Qed.

Lemma startIndex_bound (t : R) : (startIndex path t + 1 < n)%nat.
Proof.
  destruct (Rle_dec (T (n - 1)) t) as [B|B].
  - rewrite startIndex_beyond by exact B. lia.
  - destruct (Rlt_dec t (T 0)) as [A|A].
    + rewrite startIndex_before by exact A. lia.
    + apply startIndex_within; lra.
Qed.

(** An interval that holds [t] is the one the lookup uses, or the next
    one when [t] is the progress of the keyframe they share. *)
Lemma within_startIndex (t : R) (j : nat) :
  (j + 1 < n)%nat -> within path t j ->
  j = startIndex path t \/
  (j = (startIndex path t + 1)%nat /\ t = T j).
Proof.
  intros Hj [W1 W2].
  destruct (Rle_dec (T (n - 1)) t) as [B|B].
  - left. rewrite startIndex_beyond by exact B.
    destruct (Nat.eq_dec (j + 1) (n - 1)) as [E|E]; [lia|].
    pose proof (sorted_lt path path_sorted (n - 1) (j + 1)
                  ltac:(lia) ltac:(lia)). lra.
  - pose proof (sorted_le path path_sorted 0 j ltac:(lia) ltac:(lia)) as L0.
    destruct (startIndex_within t) as (Hi & [V1 V2] & M); [lra | lra |].
    set (i := startIndex path t) in *.
    destruct (Nat.lt_trichotomy j i) as [Lt|[Eq|Gt]].
    + exfalso. apply (M j Lt). split; assumption.
    + left. exact Eq.
    + right.
      pose proof (sorted_le path path_sorted (i + 1) j ltac:(lia) ltac:(lia)) as L1.
      assert (t = T j) as Et by lra. split; [|exact Et].
      destruct (Nat.eq_dec j (i + 1)) as [E|E]; [exact E|].
      pose proof (sorted_lt path path_sorted j (i + 1) ltac:(lia) ltac:(lia)).
      lra.
Qed.

Lemma localT_sorted (t : R) :
  localT path t
    = (t - T (startIndex path t))
      / (T (startIndex path t + 1) - T (startIndex path t)).
Proof.
  unfold localT.
  pose proof (sorted_adjacent path path_sorted _ (startIndex_bound t)) as A.
  destruct (Rgt_dec _ _) as [G|G]; [reflexivity | lra].
Qed.

Lemma interpolate_startIndex (t : R) :
  interpolate path t = segment_pose path (startIndex path t) t.
Proof.
  unfold interpolate, segment_pose, easeT. rewrite localT_sorted. reflexivity.
Qed.

Lemma segment_pose_start (k : nat) :
  (k + 1 < n)%nat -> segment_pose path k (T k) = pose_of (keyframe_at path k).
Proof.
  intros Hk. pose proof (sorted_adjacent path path_sorted k Hk) as A.
  unfold segment_pose. rewrite fraction_start by exact A.
  rewrite clamp_id by lra. rewrite smoothstep_0.
  rewrite !lerpVectors_0, !lerp_0. reflexivity.
Qed.

Lemma segment_pose_end (k : nat) :
  (k + 1 < n)%nat ->
  segment_pose path k (T (k + 1)) = pose_of (keyframe_at path (k + 1)).
Proof.
  intros Hk. pose proof (sorted_adjacent path path_sorted k Hk) as A.
  unfold segment_pose. rewrite fraction_end by exact A.
  rewrite clamp_id by lra. rewrite smoothstep_1.
  rewrite !lerpVectors_1, !lerp_1. reflexivity.
Qed.

(** Whichever interval holds [t], the pose is the eased blend of the two
    keyframes of that interval. *)
Lemma interpolate_segment (t : R) (k : nat) :
  (k + 1 < n)%nat -> within path t k ->
  interpolate path t = segment_pose path k t.
Proof.
  intros Hk W. rewrite interpolate_startIndex.
  pose proof (startIndex_bound t) as Hi.
  destruct (within_startIndex t k Hk W) as [->|[Ek Et]]; [reflexivity|].
  remember (startIndex path t) as i eqn:Ei. rewrite Et.
  rewrite segment_pose_start by exact Hk.
  rewrite Ek. apply segment_pose_end. exact Hi.
Qed.

Lemma interpolate_at_keyframe (k : nat) :
  (k < n)%nat -> interpolate path (T k) = pose_of (keyframe_at path k).
Proof.
  intros Hk. destruct (Nat.eq_dec (k + 1) n) as [E|E].
  - assert (k = (k - 1) + 1)%nat as Ek by lia.
    rewrite (interpolate_segment (T k) (k - 1)); [| lia |].
    + rewrite Ek at 2 3. apply segment_pose_end. lia.
    + unfold within. rewrite <- Ek.
      pose proof (sorted_adjacent path path_sorted (k - 1) ltac:(lia)) as A.
      rewrite <- Ek in A. lra.
  - rewrite (interpolate_segment (T k) k); [| lia |].
    + apply segment_pose_start. lia.
    + unfold within.
      pose proof (sorted_adjacent path path_sorted k ltac:(lia)). lra.
Qed.

Lemma fraction_beyond (t : R) : T (n - 1) <= t -> clamp (localT path t) 0 1 = 1.
Proof.
  intros B. rewrite localT_sorted, startIndex_beyond by exact B.
  replace (n - 2 + 1)%nat with (n - 1)%nat by lia.
  pose proof (sorted_adjacent path path_sorted (n - 2) ltac:(lia)) as A.
  replace (n - 2 + 1)%nat with (n - 1)%nat in A by lia.
  apply clamp_high; [|lra]. apply fraction_ge_1; assumption.
Qed.

Lemma fraction_before (t : R) : t < T 0 -> clamp (localT path t) 0 1 = 0.
Proof.
  intros B. rewrite localT_sorted, startIndex_before by exact B.
  pose proof (sorted_adjacent path path_sorted 0 ltac:(lia)) as A.
  apply clamp_low; [|lra]. apply fraction_le_0; [exact A | lra].
Qed.

End Track.

Lemma CAMERA_PATH_sorted : strictly_increasing (map kf_t CAMERA_PATH).
Proof. cbn. repeat split; lra. Qed.

Lemma CAMERA_PATH_length : (2 <= length CAMERA_PATH)%nat.
Proof. cbn. lia. Qed.

(** On an arbitrary path a segment of zero width gets fraction 1. *)
Lemma localT_degenerate (path : list Keyframe) (t : R) :
  kf_t (keyframe_at path (startIndex path t + 1))
    = kf_t (keyframe_at path (startIndex path t)) ->
  localT path t = 1.
Proof.
  intros E. unfold localT. rewrite E.
  destruct (Rgt_dec _ _) as [G|G]; [lra | reflexivity].
Qed.

(** C2 fails as stated: the progress of an interior keyframe lies in the
    closed interval of two adjacent pairs, so no unique pair holds it;
    the lookup takes the earlier one. *)
Lemma keyframe_pair_not_unique :
  within CAMERA_PATH 0.08 0 /\ within CAMERA_PATH 0.08 1 /\
  startIndex CAMERA_PATH 0.08 = 0%nat /\
  ~ (exists! k, (k + 1 < length CAMERA_PATH)%nat /\ within CAMERA_PATH 0.08 k).
Proof.
  assert (within CAMERA_PATH 0.08 0) as W0 by (unfold within; cbn; lra).
  assert (within CAMERA_PATH 0.08 1) as W1 by (unfold within; cbn; lra).
  split; [exact W0|]. split; [exact W1|]. split.
  - unfold startIndex. cbn. decide_R. reflexivity.
  - intros (k & _ & U).
    assert (k = 0%nat) as E0 by (apply U; split; [cbn; lia | exact W0]).
    assert (k = 1%nat) as E1 by (apply U; split; [cbn; lia | exact W1]).
    lia.
Qed.

(** C2, amended.  On a path of at least two keyframes with strictly
    increasing progress, the lookup uses the first adjacent pair whose
    closed interval holds the progress; any other pair that holds it is
    the next one, and then the progress is that of the keyframe the two
    share.  At or beyond the last keyframe it uses the final pair with
    fraction 1, before the first the first pair with fraction 0.  The
    fraction is linear in the progress, is 1 on a pair of equal
    progress (on any path), and goes through [smoothstep] before the
    fields are blended; at the progress of a keyframe the pose is that
    keyframe's own. *)
Theorem keyframe_lookup (path : list Keyframe) (t : R) (j k : nat) :
  strictly_increasing (map kf_t path) -> (2 <= length path)%nat ->
  let i := startIndex path t in
  let T := fun m => kf_t (keyframe_at path m) in
  (i + 1 < length path)%nat /\
  (T 0%nat <= t <= T (length path - 1)%nat ->
     within path t i /\ forall m, (m < i)%nat -> ~ within path t m) /\
  ((j + 1 < length path)%nat -> within path t j ->
     j = i \/ (j = (i + 1)%nat /\ t = T j)) /\
  (T (length path - 1)%nat <= t ->
     i = (length path - 2)%nat /\ clamp (localT path t) 0 1 = 1) /\
  (t < T 0%nat -> i = 0%nat /\ clamp (localT path t) 0 1 = 0) /\
  localT path t = (t - T i) / (T (i + 1)%nat - T i) /\
  (forall p u, kf_t (keyframe_at p (startIndex p u + 1))
                 = kf_t (keyframe_at p (startIndex p u)) -> localT p u = 1) /\
  easeT path t = smoothstep (clamp (localT path t) 0 1) /\
  interpolate path t
    = mkPose (lerpVectors (kf_pos (keyframe_at path i))
                          (kf_pos (keyframe_at path (i + 1))) (easeT path t))
             (lerpVectors (kf_look (keyframe_at path i))
                          (kf_look (keyframe_at path (i + 1))) (easeT path t))
             (MathUtils.lerp (kf_fov (keyframe_at path i))
                             (kf_fov (keyframe_at path (i + 1))) (easeT path t))
             (MathUtils.lerp (kf_roll (keyframe_at path i))
                             (kf_roll (keyframe_at path (i + 1))) (easeT path t)) /\
  ((k < length path)%nat ->
     interpolate path (T k) = pose_of (keyframe_at path k)).
Proof.
  intros S L. cbv zeta.
  split; [apply startIndex_bound; assumption|].
  split.
  { intros [H0 H1].
    assert (within path t (startIndex path t)) as W.
    { destruct (Rle_dec (kf_t (keyframe_at path (length path - 1))) t) as [B|B].
      - rewrite startIndex_beyond by assumption. unfold within.
        pose proof (sorted_adjacent path S (length path - 2) ltac:(lia)) as A.
        replace (length path - 2 + 1)%nat with (length path - 1)%nat in * by lia.
        lra.
      - apply startIndex_within; try assumption; lra. }
    split; [exact W|].
    intros m Hm Wm.
    pose proof (startIndex_bound path S L t) as Hi.
    destruct (within_startIndex path S L t m ltac:(lia) Wm) as [E|[E _]]; lia. }
  split; [apply within_startIndex; assumption|].
  split.
  { intros B. split; [apply startIndex_beyond | apply fraction_beyond]; assumption. }
  split.
  { intros B. split; [apply startIndex_before | apply fraction_before]; assumption. }
  split; [apply localT_sorted; assumption|].
  split; [intros p u; apply localT_degenerate|].
  split; [reflexivity|].
  split; [reflexivity|].
  apply interpolate_at_keyframe; assumption.
Qed.

Lemma keyframe_lookup_witness :
  (within CAMERA_PATH 0.5 (startIndex CAMERA_PATH 0.5) /\
   forall m, (m < startIndex CAMERA_PATH 0.5)%nat -> ~ within CAMERA_PATH 0.5 m) /\
  (startIndex CAMERA_PATH 1 = (length CAMERA_PATH - 2)%nat /\
   clamp (localT CAMERA_PATH 1) 0 1 = 1) /\
  (startIndex CAMERA_PATH (-0.5) = 0%nat /\
   clamp (localT CAMERA_PATH (-0.5)) 0 1 = 0) /\
  interpolate CAMERA_PATH (kf_t (keyframe_at CAMERA_PATH 3))
    = pose_of (keyframe_at CAMERA_PATH 3).
Proof.
  split; [|split; [|split]].
  - destruct (keyframe_lookup CAMERA_PATH 0.5 0 0 CAMERA_PATH_sorted
                CAMERA_PATH_length) as (_ & H & _).
    apply H. cbn. lra.
  - destruct (keyframe_lookup CAMERA_PATH 1 0 0 CAMERA_PATH_sorted
                CAMERA_PATH_length) as (_ & _ & _ & H & _).
    apply H. cbn. lra.
  - destruct (keyframe_lookup CAMERA_PATH (-0.5) 0 0 CAMERA_PATH_sorted
                CAMERA_PATH_length) as (_ & _ & _ & _ & H & _).
    apply H. cbn. lra.
  - destruct (keyframe_lookup CAMERA_PATH 0 0 3 CAMERA_PATH_sorted
                CAMERA_PATH_length) as (_ & _ & _ & _ & _ & _ & _ & _ & _ & H).
    apply H. cbn. lia.
Defined.

(* ------------------------------------------------------------------ *)
(** ** Jump to a stop, then damping *)
(* ------------------------------------------------------------------ *)
























(* ================================================================== *)
(** * Further properties *)
(* ================================================================== *)

(* ------------------------------------------------------------------ *)
(** ** Utilities *)
(* ------------------------------------------------------------------ *)

Lemma clamp_inverted (x lo hi : R) : hi < lo -> clamp x lo hi = lo.
Proof. intros H. unfold clamp. split_R; lra. Qed.

Lemma clamp_mono (x y lo hi : R) : x <= y -> clamp x lo hi <= clamp y lo hi.
Proof. intros H. unfold clamp. split_R; lra. Qed.

(** X1.  With a proper input range [remap] sends everything at or below
    [inMin] to [outMin], everything at or above [inMax] to [outMax], is
    linear in between, stays between the two output bounds and is
    monotone when [outMin <= outMax]; with an inverted input range it
    returns [outMin] whatever the value. *)
Theorem remap_range (val val' inMin inMax outMin outMax : R) :
  (inMin < inMax ->
     (val <= inMin -> remap val inMin inMax outMin outMax = outMin) /\
     (inMax <= val -> remap val inMin inMax outMin outMax = outMax) /\
     (inMin <= val <= inMax ->
        remap val inMin inMax outMin outMax
          = outMin + (val - inMin) * (outMax - outMin) / (inMax - inMin)) /\
     Rmin outMin outMax <= remap val inMin inMax outMin outMax
       <= Rmax outMin outMax /\
     (outMin <= outMax -> val <= val' ->
        remap val inMin inMax outMin outMax
          <= remap val' inMin inMax outMin outMax)) /\
  (inMax < inMin -> remap val inMin inMax outMin outMax = outMin).
Proof.
  split.
  - intros H.
    assert (forall v, remap v inMin inMax outMin outMax
                      = outMin + (clamp v inMin inMax - inMin) / (inMax - inMin)
                                 * (outMax - outMin)) as R.
    { intros v. unfold remap. field. lra. }
    split; [|split; [|split; [|split]]].
    + intros L. rewrite R, clamp_low by lra.
      rewrite fraction_start by exact H. ring.
    + intros G. rewrite R, clamp_high by lra.
      rewrite fraction_end by exact H. ring.
    + intros I. unfold remap. rewrite clamp_id by exact I. reflexivity.
    + rewrite R.
      pose proof (clamp_bounds val inMin inMax ltac:(lra)) as B.
      pose proof (fraction_unit inMin inMax _ H B) as [F0 F1].
      set (f := (clamp val inMin inMax - inMin) / (inMax - inMin)) in *.
      split_R; nra.
    + intros O V. rewrite !R.
      pose proof (fraction_mono inMin inMax _ _ H
                    (clamp_mono val val' inMin inMax V)) as M.
      apply Rplus_le_compat_l, Rmult_le_compat_r; lra.
  - intros H. unfold remap. rewrite clamp_inverted by exact H.
    unfold Rdiv. ring.
Qed.

Lemma remap_range_witness :
  remap (-3) 0 10 100 200 = 100 /\ remap 12 0 10 100 200 = 200 /\
  remap 5 0 10 100 200 = 100 + (5 - 0) * (200 - 100) / (10 - 0) /\
  remap 2 0 10 100 200 <= remap 7 0 10 100 200 /\
  remap 5 10 0 100 200 = 100.
Proof.
  destruct (remap_range (-3) 0 0 10 100 200) as (A & _).
  destruct (remap_range 12 0 0 10 100 200) as (B & _).
  destruct (remap_range 5 0 0 10 100 200) as (C & _).
  destruct (remap_range 2 7 0 10 100 200) as (D & _).
  destruct (remap_range 5 0 10 0 100 200) as (_ & E).
  split; [|split; [|split; [|split]]].
  - apply A; lra.
  - apply B; lra.
  - apply C; lra.
  - apply D; lra.
  - apply E; lra.
Defined.

(** X2.  [clamp] never returns less than [min]; with [min <= max] its
    result lies in the range and values of the range are returned as
    they are; with [max < min] it returns [min]; clamping twice is
    clamping once, and it is monotone in the value. *)
Theorem clamp_properties (x y lo hi : R) :
  lo <= clamp x lo hi /\
  (lo <= hi -> clamp x lo hi <= hi) /\
  (lo <= x <= hi -> clamp x lo hi = x) /\
  (hi < lo -> clamp x lo hi = lo) /\
  clamp (clamp x lo hi) lo hi = clamp x lo hi /\
  (x <= y -> clamp x lo hi <= clamp y lo hi).
Proof.
  split; [unfold clamp; split_R; lra|].
  split; [intros H; apply clamp_bounds; exact H|].
  split; [apply clamp_id|].
  split; [apply clamp_inverted|].
  split; [unfold clamp; split_R; lra|].
  apply clamp_mono.
Qed.

Lemma clamp_properties_witness :
  clamp 7 0 1 <= 1 /\ clamp 0.3 0 1 = 0.3 /\ clamp 0.3 5 2 = 5 /\
  clamp 0.3 0 1 <= clamp 0.4 0 1.
Proof.
  destruct (clamp_properties 7 0 0 1) as (_ & A & _).
  destruct (clamp_properties 0.3 0.4 0 1) as (_ & _ & B & _ & _ & D).
  destruct (clamp_properties 0.3 0 5 2) as (_ & _ & _ & C & _).
  split; [apply A; lra|]. split; [apply B; lra|].
  split; [apply C; lra | apply D; lra].
Defined.

(** X3.  [smoothstep] is symmetric about the middle of the unit
    interval, keeps the unit interval and is monotone on it; beyond 3/2
    it is negative, so it is not an ease without the [clamp] the camera
    applies first. *)
Theorem smoothstep_shape (x y : R) :
  smoothstep (1 - x) = 1 - smoothstep x /\
  (0 <= x <= 1 -> 0 <= smoothstep x <= 1) /\
  (0 <= x -> x <= y -> y <= 1 -> smoothstep x <= smoothstep y) /\
  (3 / 2 < x -> smoothstep x < 0) /\
  (x < 0 -> 0 < smoothstep x).
Proof.
  split; [unfold smoothstep; ring|].
  split; [apply smoothstep_unit|].
  split; [apply smoothstep_mono|].
  split; intros H; unfold smoothstep.
  - assert (0 < x * x) by nra. nra.
  - assert (0 < x * x) by nra. nra.
Qed.

Lemma smoothstep_shape_witness :
  0 <= smoothstep 0.25 <= 1 /\ smoothstep 0.25 <= smoothstep 0.75 /\
  smoothstep 2 < 0 /\ 0 < smoothstep (-1).
Proof.
  destruct (smoothstep_shape 0.25 0.75) as (_ & A & B & _).
  destruct (smoothstep_shape 2 0) as (_ & _ & _ & C & _).
  destruct (smoothstep_shape (-1) 0) as (_ & _ & _ & _ & D).
  split; [apply A; lra|]. split; [apply B; lra|].
  split; [apply C; lra | apply D; lra].
Defined.

(* ------------------------------------------------------------------ *)
(** ** Scroll position and camera over the life of the page *)
(* ------------------------------------------------------------------ *)

Lemma scroll_run_closed (i : Z) (deltas : list R) : forall scroll,
  scroll_run i deltas scroll
    = stop_at i + (scroll - stop_at i)
                  * exp (- (3) * fold_right Rplus 0 deltas).
Proof.
  induction deltas as [|d ds IH]; intros scroll.
  - cbn. replace (- (3) * 0) with 0 by ring. rewrite exp_0. ring.
  - cbn [scroll_run fold_right]. rewrite IH.
    unfold ScrollSmoother. rewrite dampValue_decay.
    unfold decay_formula, SCROLL_SMOOTHING.
    replace (- (3) * (d + fold_right Rplus 0 ds))
      with (- (3) * d + - (3) * fold_right Rplus 0 ds) by ring.
    rewrite exp_plus. ring.
Qed.

(** [exp (- x) <= 1 / (1 + x)] for [x >= 0]. *)
Lemma exp_neg_bound (x : R) : 0 <= x -> exp (- x) * (1 + x) <= 1.
Proof.
  intros H. rewrite exp_Ropp.
  assert (1 + x <= exp x) as E.
  { destruct (Req_dec x 0) as [->|N]; [rewrite exp_0; lra|].
    left. apply exp_ineq1. exact N. }
  pose proof (exp_pos x) as P.
  assert (0 < / exp x) as I by (apply Rinv_0_lt_compat; exact P).
  assert (/ exp x * exp x = 1) as U by (apply Rinv_l; lra).
  nra.
Qed.

(** X4.  The scroll position settles: once the frame deltas since the
    last change of stop add up to [|scroll - stop| / (3 eps)], the
    scroll position is within [eps] of the stop, however the time is
    cut into frames. *)
Theorem scroll_settles (i : Z) (scroll eps : R) (deltas : list R) :
  0 < eps ->
  Rabs (scroll - stop_at i) / (3 * eps) <= fold_right Rplus 0 deltas ->
  Rabs (scroll_run i deltas scroll - stop_at i) < eps.
Proof.
  intros He HT. rewrite scroll_run_closed.
  set (T := fold_right Rplus 0 deltas) in *.
  set (D := scroll - stop_at i) in *.
  replace (stop_at i + D * exp (- (3) * T) - stop_at i)
    with (D * exp (- (3) * T)) by ring.
  pose proof (exp_pos (- (3) * T)) as P.
  rewrite Rabs_mult, (Rabs_pos_eq (exp _)) by lra.
  pose proof (Rabs_pos D) as A.
  assert (0 <= T) as T0.
  { eapply Rle_trans; [|exact HT].
    apply Rmult_le_pos; [exact A|]. left. apply Rinv_0_lt_compat. lra. }
  assert (Rabs D <= 3 * eps * T) as B.
  { assert (Rabs D / (3 * eps) * (3 * eps) = Rabs D) as U by (field; lra).
    nra. }
  pose proof (exp_neg_bound (3 * T) ltac:(lra)) as E.
  replace (- (3 * T)) with (- (3) * T) in E by ring.
  set (x := exp (- (3) * T)) in *.
  assert (Rabs D * x <= 3 * eps * T * x) by nra.
  nra.
Qed.

Lemma scroll_settles_witness :
  Rabs (scroll_run 3 [5; 5; 5] 0 - stop_at 3) < 0.01.
Proof.
  apply (scroll_settles 3 0 0.01 [5; 5; 5]); [lra|].
  change (stop_at 3) with 0.44. cbn [fold_right].
  rewrite Rabs_left by lra. lra.
Defined.

Lemma stop_at_range (i : Z) : valid_index i -> 0 <= stop_at i <= 0.96.
Proof.
  unfold valid_index. rewrite last_stop_eq. intros H.
  assert (i = 0 \/ i = 1 \/ i = 2 \/ i = 3 \/ i = 4 \/ i = 5 \/ i = 6)%Z
    as C by lia.
  destruct C as [->|[->|[->|[->|[->|[->| ->]]]]]];
    cbv [stop_at SECTION_STOPS Z.to_nat Pos.to_nat Pos.iter_op Nat.add nth];
    lra.
Qed.

Lemma world_run_app (l1 l2 : list Action) (w : World) :
  world_run w (l1 ++ l2) = world_run (world_run w l1) l2.
Proof. apply fold_left_app. Qed.

Lemma easeT_unit (path : list Keyframe) (t : R) : 0 <= easeT path t <= 1.
Proof. unfold easeT. apply smoothstep_unit, clamp_bounds. lra. Qed.

Lemma lerp_between (a b e lo hi : R) :
  0 <= e <= 1 -> lo <= a <= hi -> lo <= b <= hi ->
  lo <= MathUtils.lerp a b e <= hi.
Proof. intros He Ha Hb. unfold MathUtils.lerp. split; nra. Qed.

Lemma keyframe_at_Forall (P : Keyframe -> Prop) (path : list Keyframe) (i : nat) :
  Forall P path -> (i < length path)%nat -> P (keyframe_at path i).
Proof.
  intros H Hi. unfold keyframe_at.
  apply (proj1 (Forall_forall P path) H). apply nth_In. exact Hi.
Qed.

Lemma baseFov_range (path : list Keyframe) (t lo hi : R) :
  strictly_increasing (map kf_t path) -> (2 <= length path)%nat ->
  Forall (fun k => lo <= kf_fov k <= hi) path ->
  lo <= baseFov (interpolate path t) <= hi.
Proof.
  intros S L F. unfold interpolate. cbn [baseFov].
  pose proof (startIndex_bound path S L t) as B.
  apply lerp_between.
  - apply easeT_unit.
  - apply (keyframe_at_Forall _ path _ F). lia.
  - apply (keyframe_at_Forall _ path _ F). lia.
Qed.

Lemma CAMERA_PATH_fov : Forall (fun k => 42 <= kf_fov k <= 70) CAMERA_PATH.
Proof.
  unfold CAMERA_PATH.
  repeat apply Forall_cons; try apply Forall_nil; cbn [kf_fov]; lra.
Qed.

Lemma world_step_ok (w : World) (a : Action) :
  valid_action a -> world_ok w -> world_ok (world_step w a).
Proof.
  intros Va (Hi & Hs & Hv & Hf & Hw).
  destruct a as [e|d]; cbn [world_step valid_action] in *.
  - unfold world_ok. cbn [stepper scrollRef camera].
    split; [apply step_valid; assumption|]. auto.
  - unfold world_ok, frame. cbn [stepper scrollRef camera fst snd].
    pose proof (stop_at_range _ Hi) as St.
    assert (0 <= ScrollSmoother (currentSection (stepper w)) (scrollRef w) d
              <= 0.96) as Hs'.
    { unfold ScrollSmoother. apply dampValue_in_range;
        [unfold SCROLL_SMOOTHING; lra | exact Hs | exact St]. }
    set (s' := ScrollSmoother (currentSection (stepper w)) (scrollRef w) d) in *.
    assert (0 <= velocity_update (velocityRef (camera w)) s'
                   (prevScroll (camera w)) d <= 1) as Hv'
      by (apply velocity_update_bounded; assumption).
    unfold CameraController.
    cbn [velocityRef camera_fov warpOffset].
    set (v' := velocity_update (velocityRef (camera w)) s'
                 (prevScroll (camera w)) d) in *.
    pose proof (baseFov_range CAMERA_PATH s' 42 70 CAMERA_PATH_sorted
                  CAMERA_PATH_length CAMERA_PATH_fov) as Hb.
    split; [exact Hi|]. split; [exact Hs'|]. split; [exact Hv'|].
    split.
    + apply dampValue_in_range; [lra | exact Hf |].
      unfold targetFov. lra.
    + lra.
Qed.

Lemma world_run_ok (l : list Action) : forall w,
  Forall valid_action l -> world_ok w -> world_ok (world_run w l).
Proof.
  unfold world_run. induction l as [|a l IH]; intros w Hl Hw; [exact Hw|].
  inversion Hl; subst. cbn [fold_left]. apply IH; [assumption|].
  apply world_step_ok; assumption.
Qed.

Lemma world_init_ok : world_ok world_init.
Proof.
  unfold world_ok, world_init, valid_index. rewrite last_stop_eq. cbn.
  repeat split; try lia; lra.
Qed.

(** X5.  Whatever wheel events, timeouts, checkpoint clicks and frames
    (with non-negative deltas) follow one another, the stop index stays
    an index of [SECTION_STOPS] and the scroll position stays between
    the first stop and the last, 0 and 0.96. *)
Theorem scroll_stays_in_range (l : list Action) :
  Forall valid_action l ->
  (0 <= currentSection (stepper (world_run world_init l))
     <= Z.of_nat (length SECTION_STOPS) - 1)%Z /\
  0 <= scrollRef (world_run world_init l) <= 0.96.
Proof.
  intros H.
  destruct (world_run_ok l world_init H world_init_ok) as (Hi & Hs & _).
  split; [exact Hi | exact Hs].
Qed.

Lemma scroll_stays_in_range_witness :
  0 <= scrollRef (world_run world_init
                    [Input (Wheel 80); Render 0.016; Input (Click 6);
                     Render 0.5; Input Timeout; Input (Wheel (-200))])
    <= 0.96.
Proof.
  apply (scroll_stays_in_range
           [Input (Wheel 80); Render 0.016; Input (Click 6);
            Render 0.5; Input Timeout; Input (Wheel (-200))]).
  repeat apply Forall_cons; try apply Forall_nil; cbn; try exact I; try lra.
  unfold valid_index. rewrite last_stop_eq. lia.
Defined.

(** X6.  The field of view interpolated on a track of at least two
    keyframes with strictly increasing progress never leaves the range
    of the keyframes' own values, at any scroll position, inside or
    outside the track; on [CAMERA_PATH] that is 42 to 70. *)
Theorem interpolated_fov_bounded (path : list Keyframe) (t lo hi : R) :
  strictly_increasing (map kf_t path) -> (2 <= length path)%nat ->
  Forall (fun k => lo <= kf_fov k <= hi) path ->
  lo <= baseFov (interpolate path t) <= hi.
Proof. apply baseFov_range. Qed.

Lemma interpolated_fov_bounded_witness :
  42 <= baseFov (interpolate CAMERA_PATH 0.33) <= 70.
Proof.
  apply (interpolated_fov_bounded CAMERA_PATH 0.33 42 70).
  - exact CAMERA_PATH_sorted.
  - exact CAMERA_PATH_length.
  - exact CAMERA_PATH_fov.
Defined.

(** X7.  Over every run of the page the velocity estimate stays in
    [0,1], the camera's field of view between 42 and 82 (the track's
    range widened by the velocity kick of at most 12), and the
    chromatic-aberration offset between 0.001 and 0.046. *)
Theorem camera_stays_in_range (l : list Action) :
  Forall valid_action l ->
  0 <= velocityRef (camera (world_run world_init l)) <= 1 /\
  42 <= camera_fov (camera (world_run world_init l)) <= 82 /\
  0.001 <= warpOffset (camera (world_run world_init l)) <= 0.046.
Proof.
  intros H.
  destruct (world_run_ok l world_init H world_init_ok) as (_ & _ & Hv & Hf & Hw).
  auto.
Qed.

Lemma camera_stays_in_range_witness :
  42 <= camera_fov (camera (world_run world_init
                              [Input (Click 5); Render 0.3; Render 0.016]))
     <= 82.
Proof.
  apply (camera_stays_in_range [Input (Click 5); Render 0.3; Render 0.016]).
  repeat apply Forall_cons; try apply Forall_nil; cbn; try lra.
  unfold valid_index. rewrite last_stop_eq. lia.
Defined.

Lemma camera_run_idle (path : list Keyframe) (ds : list R) : forall c,
  velocityRef (camera_run path (map (fun d => (prevScroll c, d)) ds) c)
    = velocityRef c * exp (- (14) * fold_right Rplus 0 ds).
Proof.
  induction ds as [|d ds IH]; intros c.
  - cbn. replace (- (14) * 0) with 0 by ring. rewrite exp_0. ring.
  - cbn [map camera_run fold_right].
    set (c' := CameraController path (prevScroll c) d c).
    assert (prevScroll c' = prevScroll c) as P by reflexivity.
    rewrite <- P. rewrite IH. subst c'.
    rewrite CameraController_velocity.
    replace (prevScroll c - prevScroll c) with 0 by ring.
    rewrite Rabs_R0. unfold Rdiv. rewrite !Rmult_0_l.
    rewrite clamp_id by lra.
    rewrite dampValue_decay. unfold decay_formula.
    replace (- (14) * (d + fold_right Rplus 0 ds))
      with (- (14) * d + - (14) * fold_right Rplus 0 ds) by ring.
    rewrite exp_plus. ring.
Qed.

(** [exp (-14 T) < 1/100] once [T >= 1]. *)
Lemma exp_14_small (T : R) : 1 <= T -> exp (- (14) * T) < 0.01.
Proof.
  intros H.
  pose proof (exp_neg_bound (3.5 * T) ltac:(lra)) as E.
  set (x := exp (- (3.5 * T))) in *.
  assert (0 < x) as P by apply exp_pos.
  assert (exp (- (14) * T) = (x * x) * (x * x)) as Q.
  { unfold x. rewrite <- !exp_plus. f_equal. lra. }
  rewrite Q.
  assert (x <= / 4.5) as B.
  { apply Rmult_le_reg_r with 4.5; [lra|].
    replace (/ 4.5 * 4.5) with 1 by lra. nra. }
  assert (/ 4.5 < 0.23) by lra.
  assert (x * x <= 0.23 * 0.23) by nra.
  nra.
Qed.

(** X8.  While the scroll position does not move, each frame multiplies
    the velocity estimate by [exp(-14 delta)]: after frames adding up
    to [T] it is the old estimate times [exp(-14 T)], however the time
    is cut into frames, and an estimate of at most 1 is below 0.01
    after one second. *)
Theorem velocity_decays_when_idle (path : list Keyframe) (ds : list R)
    (c : Camera) :
  velocityRef (camera_run path (map (fun d => (prevScroll c, d)) ds) c)
    = velocityRef c * exp (- (14) * fold_right Rplus 0 ds) /\
  (0 <= velocityRef c <= 1 -> 1 <= fold_right Rplus 0 ds ->
   0 <= velocityRef (camera_run path (map (fun d => (prevScroll c, d)) ds) c)
     < 0.01).
Proof.
  split; [apply camera_run_idle|].
  intros Hv HT. rewrite camera_run_idle.
  pose proof (exp_14_small _ HT) as E.
  pose proof (exp_pos (- (14) * fold_right Rplus 0 ds)) as P.
  split; nra.
Qed.

Lemma velocity_decays_when_idle_witness :
  velocityRef
    (camera_run CAMERA_PATH (map (fun d => (0.44, d)) [0.5; 0.25; 0.25])
       (mkCamera 0.44 0.5 (100, 0, 6) (100, 0, 0) 58 0 0.0235))
    = 0.5 * exp (- (14) * (0.5 + (0.25 + (0.25 + 0)))) /\
  0 < velocityRef
        (camera_run CAMERA_PATH (map (fun d => (0.44, d)) [0.5; 0.25; 0.25])
           (mkCamera 0.44 0.5 (100, 0, 6) (100, 0, 0) 58 0 0.0235))
    < 0.01.
Proof.
  destruct (velocity_decays_when_idle CAMERA_PATH [0.5; 0.25; 0.25]
              (mkCamera 0.44 0.5 (100, 0, 6) (100, 0, 0) 58 0 0.0235))
    as (E & B).
  cbn [prevScroll velocityRef fold_right] in E, B.
  split; [exact E|].
  assert (0 <= 0.5 <= 1) as H1 by lra.
  assert (1 <= 0.5 + (0.25 + (0.25 + 0))) as H2 by lra.
  specialize (B H1 H2). split; [|apply B].
  rewrite E. apply Rmult_lt_0_compat; [lra | apply exp_pos].
Defined.

Lemma vec_lerp_compose (p q : Vec3) (d1 d2 : R) :
  vec_lerp (vec_lerp p q (1 - exp (-6 * d1))) q (1 - exp (-6 * d2))
    = vec_lerp p q (1 - exp (-6 * (d1 + d2))).
Proof.
  destruct p as [[x y] z], q as [[a b] c]. unfold vec_lerp.
  replace (-6 * (d1 + d2)) with (-6 * d1 + -6 * d2) by ring.
  rewrite exp_plus. f_equal; [f_equal|]; ring.
Qed.

(** X9.  The camera position and look-at target are eased with the
    factor [1 - exp(-6 delta)], which is the damped scalar of rate 6 on
    each coordinate; toward a fixed target two frames of [d1] and [d2]
    give what one frame of [d1 + d2] gives. *)
Theorem camera_position_frame_rate_independent
    (path : list Keyframe) (t d d1 d2 : R) (c : Camera) (p q : Vec3) :
  camera_position (CameraController path t d c)
    = (let '(x, y, z) := camera_position c in
       let '(a, b, e) := targetPos (interpolate path t) in
       (dampValue x a 6 d, dampValue y b 6 d, dampValue z e 6 d)) /\
  lookAtTarget (CameraController path t d c)
    = (let '(x, y, z) := lookAtTarget c in
       let '(a, b, e) := targetLook (interpolate path t) in
       (dampValue x a 6 d, dampValue y b 6 d, dampValue z e 6 d)) /\
  vec_lerp (vec_lerp p q (1 - exp (-6 * d1))) q (1 - exp (-6 * d2))
    = vec_lerp p q (1 - exp (-6 * (d1 + d2))).
Proof.
  assert (exp (-6 * d) = exp (- (6) * d)) as E by (f_equal; ring).
  split; [|split; [|apply vec_lerp_compose]].
  - unfold CameraController. cbn [camera_position].
    destruct (camera_position c) as [[x y] z].
    destruct (targetPos (interpolate path t)) as [[a b] e]. unfold vec_lerp.
    rewrite !dampValue_decay. unfold decay_formula. rewrite E.
    f_equal; [f_equal|]; ring.
  - unfold CameraController. cbn [lookAtTarget].
    destruct (lookAtTarget c) as [[x y] z].
    destruct (targetLook (interpolate path t)) as [[a b] e]. unfold vec_lerp.
    rewrite !dampValue_decay. unfold decay_formula. rewrite E.
    f_equal; [f_equal|]; ring.
Qed.

(* ------------------------------------------------------------------ *)
(** ** Overlays and the scenes behind them *)
(* ------------------------------------------------------------------ *)

(** X10.  Whenever the ethos overlay has a positive opacity the ethos
    scene behind it is visible; whenever the bio overlay has a positive
    opacity the overlay is mounted and the bio scene is visible.  At
    scroll positions up to the last stop, 0.96, the bio overlay's
    opacity is at most 0.6, reached at the stop itself. *)
Theorem overlays_follow_scenes (t : R) :
  (0 < opacity t -> ethos_section_visible t = true) /\
  (0 < bio_overlay_opacity t ->
     bio_overlay_visible t = true /\ bio_group_visible t = true) /\
  (t <= 0.96 -> bio_overlay_opacity t <= 0.6) /\
  bio_overlay_opacity 0.96 = 0.6.
Proof.
  split; [|split; [|split]].
  - intros H. unfold ethos_section_visible.
    assert (ETHOS_ENTER < t < ETHOS_EXIT) as B.
    { destruct (Rle_dec t ETHOS_ENTER) as [L|L];
        [rewrite opacity_outside in H by (left; exact L); lra|].
      destruct (Rle_dec ETHOS_EXIT t) as [G|G];
        [rewrite opacity_outside in H by (right; exact G); lra|].
      lra. }
    unfold ETHOS_ENTER, ETHOS_EXIT in *. decide_R; reflexivity.
  - unfold bio_overlay_opacity, bio_overlay_visible, bio_group_visible,
      BIO_FULL, BIO_ENTER.
    intros H.
    assert (0.93 < t) as B.
    { destruct (Rle_dec t 0.93) as [L|L]; [|lra].
      exfalso. revert H. split_R; lra. }
    split; decide_R; try reflexivity.
  - unfold bio_overlay_opacity, BIO_FULL. intros H. split_R; lra.
  - unfold bio_overlay_opacity, BIO_FULL. split_R; lra.
Qed.

Lemma overlays_follow_scenes_witness :
  ethos_section_visible 0.1 = true /\
  (bio_overlay_visible 0.95 = true /\ bio_group_visible 0.95 = true) /\
  bio_overlay_opacity 0.9 <= 0.6.
Proof.
  destruct (overlays_follow_scenes 0.1) as (A & _).
  destruct (overlays_follow_scenes 0.95) as (_ & B & _).
  destruct (overlays_follow_scenes 0.9) as (_ & _ & C & _).
  split; [|split].
  - apply A. rewrite opacity_enter_band by (unfold ETHOS_ENTER, FADE_BAND; lra).
    unfold ETHOS_ENTER, FADE_BAND. lra.
  - apply B. unfold bio_overlay_opacity, BIO_FULL. split_R; lra.
  - apply C. lra.
Defined.

(** X11.  In the scroll bar the dots marked as past are a lower set of
    indices at every scroll position, and with the scroll position
    resting on stop [k] they are exactly the dots up to [k]; the dot of
    the current section shows the accent whatever the scroll position. *)
Theorem scroll_bar_dots (i j k : nat) (active : Z) (t : R) :
  ((j <= i)%nat -> (i < length SECTION_STOPS)%nat ->
     isPast i t = true -> isPast j t = true) /\
  ((i < length SECTION_STOPS)%nat -> (k < length SECTION_STOPS)%nat ->
     (isPast i (nth k SECTION_STOPS 0) = true <-> (i <= k)%nat)) /\
  (Z.of_nat i = active -> dot_background i active t = ACCENT) /\
  (Z.of_nat i <> active ->
     dot_background i active t = if isPast i t then PAST else IDLE).
Proof.
  split; [|split; [|split]].
  - intros Hji Hi. cbn [length SECTION_STOPS] in Hi. unfold isPast.
    do 7 (destruct i as [|i];
          [do 7 (destruct j as [|j];
                   [try lia; cbn [nth SECTION_STOPS]; decide_R; intros;
                    (reflexivity || discriminate)|]); lia|]).
    lia.
  - intros Hi Hk. cbn [length SECTION_STOPS] in Hi, Hk. unfold isPast.
    do 7 (destruct i as [|i];
          [do 7 (destruct k as [|k];
                   [cbn [nth SECTION_STOPS]; decide_R; split; intros;
                    (reflexivity || discriminate || lia)|]); lia|]).
    lia.
  - intros E. unfold dot_background, isActive.
    rewrite (proj2 (Z.eqb_eq _ _) E). reflexivity.
  - intros E. unfold dot_background, isActive.
    rewrite (proj2 (Z.eqb_neq _ _) E). reflexivity.
Qed.

Lemma scroll_bar_dots_witness :
  (isPast 3 0.5 = true -> isPast 1 0.5 = true) /\
  (isPast 2 (nth 4 SECTION_STOPS 0) = true <-> (2 <= 4)%nat) /\
  dot_background 2 2 0.1 = ACCENT /\
  dot_background 1 2 0.5 = (if isPast 1 0.5 then PAST else IDLE).
Proof.
  destruct (scroll_bar_dots 3 1 0 0 0.5) as (A & _).
  destruct (scroll_bar_dots 2 0 4 0 0) as (_ & B & _).
  destruct (scroll_bar_dots 2 0 0 2 0.1) as (_ & _ & C & _).
  destruct (scroll_bar_dots 1 0 0 2 0.5) as (_ & _ & _ & D).
  split; [|split; [|split]].
  - apply A; cbn; lia.
  - apply B; cbn; lia.
  - apply C. reflexivity.
  - apply D. discriminate.
Defined.

(* ------------------------------------------------------------------ *)
(** ** Project cards *)
(* ------------------------------------------------------------------ *)

Lemma scan_trigger_run_fired (appear : R) (ts : list R) :
  scan_trigger_run appear ts true = (true, 0%nat).
Proof.
  induction ts as [|t ts IH]; [reflexivity|].
  cbn [scan_trigger_run scan_trigger negb]. rewrite IH. reflexivity.
Qed.

Lemma scan_trigger_run_unfired (appear : R) (ts : list R) :
  (Exists (fun t => t >= appear - 0.015) ts ->
   scan_trigger_run appear ts false = (true, 1%nat)) /\
  (~ Exists (fun t => t >= appear - 0.015) ts ->
   scan_trigger_run appear ts false = (false, 0%nat)).
Proof.
  induction ts as [|t ts [IH1 IH2]].
  - split; [intros H; inversion H | reflexivity].
  - cbn [scan_trigger_run scan_trigger negb].
    destruct (Rge_dec t (appear - 0.015)) as [G|G].
    + rewrite scan_trigger_run_fired. split; [reflexivity|].
      intros N. exfalso. apply N. apply Exists_cons_hd. exact G.
    + split.
      * intros H. inversion H; subst; [contradiction|].
        rewrite IH1 by assumption. reflexivity.
      * intros N. rewrite IH2; [reflexivity|].
        intros H. apply N. apply Exists_cons_tl. exact H.
Qed.

(** X12.  The scan of a project card is a latch: over a run of frames
    one of which has its scroll position at or past [appear - 0.015] it
    calls [setScanActive] exactly once and ends fired; over a run with
    no such frame it does not fire; once fired it never fires again or
    resets, whatever the scroll position does afterwards. *)
Theorem card_scan_fires_once (appear : R) (ts : list R) (fired : bool) :
  (fired = true -> scan_trigger_run appear ts fired = (true, 0%nat)) /\
  (fired = false -> Exists (fun t => t >= appear - 0.015) ts ->
     scan_trigger_run appear ts fired = (true, 1%nat)) /\
  (fired = false -> ~ Exists (fun t => t >= appear - 0.015) ts ->
     scan_trigger_run appear ts fired = (false, 0%nat)) /\
  (snd (scan_trigger_run appear ts fired) <= 1)%nat.
Proof.
  split; [intros ->; apply scan_trigger_run_fired|].
  split; [intros ->; apply scan_trigger_run_unfired|].
  split; [intros ->; apply scan_trigger_run_unfired|].
  destruct fired.
  - rewrite scan_trigger_run_fired. cbn. lia.
  - destruct (Exists_dec (fun t => t >= appear - 0.015) ts) as [E|E].
    + intros t. destruct (Rge_dec t (appear - 0.015)); [left|right]; assumption.
    + rewrite (proj1 (scan_trigger_run_unfired appear ts) E). cbn. lia.
    + rewrite (proj2 (scan_trigger_run_unfired appear ts) E). cbn. lia.
Qed.

Lemma card_scan_fires_once_witness :
  scan_trigger_run 0.44 [0.5; 0.1] true = (true, 0%nat) /\
  scan_trigger_run 0.44 [0.1; 0.43; 0.2; 0.44] false = (true, 1%nat) /\
  scan_trigger_run 0.44 [0.1; 0.42] false = (false, 0%nat).
Proof.
  destruct (card_scan_fires_once 0.44 [0.5; 0.1] true) as (A & _).
  destruct (card_scan_fires_once 0.44 [0.1; 0.43; 0.2; 0.44] false)
    as (_ & B & _).
  destruct (card_scan_fires_once 0.44 [0.1; 0.42] false) as (_ & _ & C & _).
  split; [apply A; reflexivity|]. split.
  - apply B; [reflexivity|]. apply Exists_cons_tl, Exists_cons_hd. lra.
  - apply C; [reflexivity|]. intros H.
    repeat match goal with
    | H : Exists _ (_ :: _) |- _ => inversion H; clear H; subst
    | H : Exists _ [] |- _ => inversion H
    end; lra.
Defined.

Lemma scan_frame_done (mounted active : bool) (d : R) (s : Scan) :
  doneRef s = true -> scan_frame mounted active d s = (s, false).
Proof.
  intros H. unfold scan_frame. rewrite H.
  destruct mounted; reflexivity.
Qed.

Lemma scan_run_done (ticks : list (bool * R)) (s : Scan) :
  doneRef s = true -> scan_run ticks s = (s, 0%nat).
Proof.
  intros H. induction ticks as [|[a d] ticks IH]; [reflexivity|].
  cbn [scan_run]. rewrite scan_frame_done by exact H. rewrite IH. reflexivity.
Qed.

Lemma scan_frame_cases (active : bool) (d : R) (s : Scan) :
  doneRef s = false ->
  (active = false /\ scan_frame true active d s = (s, false)) \/
  (active = true /\ progressRef s + d * 4.5 > 2.8 /\
   scan_frame true active d s
     = (mkScan (progressRef s + d * 4.5) true (progressRef s + d * 4.5) 0 false,
        true)) \/
  (active = true /\ progressRef s + d * 4.5 <= 2.8 /\
   snd (scan_frame true active d s) = false /\
   doneRef (fst (scan_frame true active d s)) = false /\
   progressRef (fst (scan_frame true active d s)) = progressRef s + d * 4.5 /\
   scan_visible (fst (scan_frame true active d s)) = scan_visible s /\
   0 <= scan_opacity (fst (scan_frame true active d s)) <= 0.55).
Proof.
  intros H. unfold scan_frame. rewrite H. cbn [negb orb].
  destruct active; [|left; split; reflexivity]. right. cbn [negb].
  set (p := progressRef s + d * 4.5).
  destruct (Rgt_dec p 2.8) as [G|G].
  - left. split; [reflexivity|]. split; [exact G|].
    destruct (Rgt_dec p 2.2) as [G2|G2]; [|lra].
    rewrite Rmax_left by lra. f_equal. f_equal. lra.
  - right. split; [reflexivity|]. split; [lra|].
    cbn [fst snd doneRef progressRef scan_visible scan_opacity].
    repeat split; try reflexivity; try exact H;
      destruct (Rgt_dec p 2.2); split_R; lra.
Qed.

Lemma scan_run_calls (ticks : list (bool * R)) : forall s,
  (snd (scan_run ticks s) <= 1)%nat /\
  (snd (scan_run ticks s) = 1%nat ->
   doneRef (fst (scan_run ticks s)) = true /\
   scan_visible (fst (scan_run ticks s)) = false /\
   scan_opacity (fst (scan_run ticks s)) = 0 /\
   progressRef (fst (scan_run ticks s)) > 2.8).
Proof.
  induction ticks as [|[a d] ticks IH]; intros s.
  - cbn. split; [lia | discriminate].
  - destruct (doneRef s) eqn:D.
    + rewrite scan_run_done by exact D. cbn. split; [lia | discriminate].
    + cbn [scan_run].
      destruct (scan_frame_cases a d s D) as [[_ E]|[(_ & G & E)|(_ & _ & E1 & _)]].
      * rewrite E. specialize (IH s).
        destruct (scan_run ticks s) as [s2 n]. cbn in *. exact IH.
      * rewrite E. rewrite scan_run_done by reflexivity. cbn.
        split; [lia|]. intros _. repeat split. exact G.
      * specialize (IH (fst (scan_frame true a d s))).
        destruct (scan_frame true a d s) as [s1 c]. cbn in E1. subst c.
        cbn [fst] in IH.
        destruct (scan_run ticks s1) as [s2 n]. cbn in *. exact IH.
Qed.

(** X13.  The scan line of a card calls [onComplete] at most once over
    any run of frames; when it does, the sweep has passed 2.8, the line
    has faded to opacity 0 and is hidden; once done it ignores every
    further frame; a frame that does not complete leaves the opacity
    within [0, 0.55] and advances the sweep by [4.5 delta]. *)
Theorem scan_reveal_completes_once (ticks : list (bool * R)) (s : Scan)
    (active : bool) (d : R) :
  (snd (scan_run ticks s) <= 1)%nat /\
  (snd (scan_run ticks s) = 1%nat ->
     doneRef (fst (scan_run ticks s)) = true /\
     scan_visible (fst (scan_run ticks s)) = false /\
     scan_opacity (fst (scan_run ticks s)) = 0 /\
     progressRef (fst (scan_run ticks s)) > 2.8) /\
  (doneRef s = true -> scan_run ticks s = (s, 0%nat)) /\
  (doneRef s = false -> active = true -> progressRef s + d * 4.5 <= 2.8 ->
     snd (scan_frame true active d s) = false /\
     progressRef (fst (scan_frame true active d s)) = progressRef s + d * 4.5 /\
     0 <= scan_opacity (fst (scan_frame true active d s)) <= 0.55).
Proof.
  split; [apply scan_run_calls|]. split; [apply scan_run_calls|].
  split; [apply scan_run_done|].
  intros D A L.
  destruct (scan_frame_cases active d s D) as [[E _]|[(_ & G & _)|(_ & _ & H)]].
  - congruence.
  - lra.
  - tauto.
Qed.

Lemma scan_reveal_completes_once_witness :
  (snd (scan_run [(true, 0.5%R); (false, 1%R); (true, 0.7%R); (true, 0.016%R)]
                 scan_init) <= 1)%nat /\
  scan_run [(true, 1)] (mkScan 3 true 3 0 false)
    = (mkScan 3 true 3 0 false, 0%nat) /\
  progressRef (fst (scan_frame true true 0.5 scan_init)) = -2.5 + 0.5 * 4.5.
Proof.
  destruct (scan_reveal_completes_once
              [(true, 0.5); (false, 1); (true, 0.7); (true, 0.016)]
              scan_init true 0) as (A & _).
  destruct (scan_reveal_completes_once [(true, 1)] (mkScan 3 true 3 0 false)
              true 0) as (_ & _ & B & _).
  destruct (scan_reveal_completes_once [] scan_init true 0.5)
    as (_ & _ & _ & C).
  split; [exact A|]. split; [apply B; reflexivity|].
  apply C; [reflexivity | reflexivity | cbn; lra].
Defined.

Lemma flash_frame_fired (active : bool) (d : R) (f : Flash) :
  firedRef f = true -> 0 < opacityRef f ->
  flash_frame true active d f
    = mkFlash true (opacityRef f * exp (- (8) * d))
              (opacityRef f * exp (- (8) * d))
              (if Rgt_dec (opacityRef f * exp (- (8) * d)) 0.01
               then true else false).
Proof.
  intros F P. unfold flash_frame. cbn [negb]. rewrite F.
  rewrite andb_false_r.
  destruct (Rgt_dec (opacityRef f) 0) as [G|G]; [|lra].
  rewrite F, dampValue_decay. unfold decay_formula.
  replace (0 + (opacityRef f - 0) * exp (- (8) * d))
    with (opacityRef f * exp (- (8) * d)) by ring.
  reflexivity.
Qed.

Lemma flash_run_fired (ticks : list (bool * R)) : forall f,
  firedRef f = true -> 0 < opacityRef f ->
  firedRef (flash_run f ticks) = true /\
  opacityRef (flash_run f ticks)
    = opacityRef f * exp (- (8) * fold_right Rplus 0 (map snd ticks)).
Proof.
  unfold flash_run.
  induction ticks as [|[a d] ticks IH]; intros f F P.
  - cbn. split; [exact F|]. replace (- (8) * 0) with 0 by ring.
    rewrite exp_0. ring.
  - cbn [fold_left map fold_right fst snd].
    rewrite flash_frame_fired by assumption.
    pose proof (exp_pos (- (8) * d)) as E.
    destruct (IH (mkFlash true (opacityRef f * exp (- (8) * d))
                    (opacityRef f * exp (- (8) * d))
                    (if Rgt_dec (opacityRef f * exp (- (8) * d)) 0.01
                     then true else false)) eq_refl) as [I1 I2].
    { cbn. apply Rmult_lt_0_compat; assumption. }
    split; [exact I1|]. rewrite I2. cbn [opacityRef].
    replace (- (8) * (d + fold_right Rplus 0 (map snd ticks)))
      with (- (8) * d + - (8) * fold_right Rplus 0 (map snd ticks)) by ring.
    rewrite exp_plus. ring.
Qed.

Lemma flash_frame_unfired (d : R) (f : Flash) :
  firedRef f = false -> opacityRef f = 0 ->
  flash_frame true false d f = f /\
  flash_frame true true d f
    = mkFlash true (exp (- (8) * d)) (exp (- (8) * d))
              (if Rgt_dec (exp (- (8) * d)) 0.01 then true else false).
Proof.
  intros F Z. unfold flash_frame. cbn [negb andb]. rewrite F. cbn [negb].
  split.
  - destruct (Rgt_dec (opacityRef f) 0) as [G|G]; [lra | reflexivity].
  - cbn [opacityRef firedRef].
    destruct (Rgt_dec 1.0 0) as [G|G]; [|lra].
    rewrite dampValue_decay. unfold decay_formula.
    replace (0 + (1.0 - 0) * exp (- (8) * d)) with (exp (- (8) * d)) by lra.
    reflexivity.
Qed.

(** The flash has not fired and is dark, or has fired and its opacity
    is in (0, 1]. *)
Lemma flash_run_from_init (ticks : list (bool * R)) :
  Forall (fun k => 0 <= snd k) ticks ->
  (firedRef (flash_run flash_init ticks) = false /\
   opacityRef (flash_run flash_init ticks) = 0) \/
  (firedRef (flash_run flash_init ticks) = true /\
   0 < opacityRef (flash_run flash_init ticks) <= 1).
Proof.
  intros H.
  assert (forall f,
            (firedRef f = false /\ opacityRef f = 0) \/
            (firedRef f = true /\ 0 < opacityRef f <= 1) ->
            (firedRef (flash_run f ticks) = false /\
             opacityRef (flash_run f ticks) = 0) \/
            (firedRef (flash_run f ticks) = true /\
             0 < opacityRef (flash_run f ticks) <= 1)) as G.
  { unfold flash_run. induction ticks as [|[a d] ticks IH]; intros f Hf.
    - exact Hf.
    - inversion H; subst. cbn [fold_left fst snd] in *.
      apply IH; [assumption|].
      pose proof (exp_pos (- (8) * d)) as E.
      pose proof (decay_factor_le_1 8 d ltac:(lra)) as E1.
      destruct Hf as [[F Z]|[F [P1 P2]]].
      + destruct (flash_frame_unfired d f F Z) as [U1 U2].
        destruct a.
        * rewrite U2. right. cbn. split; [reflexivity | lra].
        * rewrite U1. left. split; assumption.
      + rewrite flash_frame_fired by assumption. right. cbn.
        split; [reflexivity|]. split; nra. }
  apply G. left. split; reflexivity.
Qed.

(** X14.  The collapse flash fires once: its opacity is 0 until the
    first frame with [active], is [exp(-8 delta)] after that frame, and
    from then on is only ever multiplied by [exp(-8 delta)], whether
    [active] stays, goes or comes back; with non-negative deltas it
    lies in [0,1], and it is hidden (at most 0.01) once the frames
    since firing add up to one second. *)
Theorem collapse_flash_fires_once (ticks : list (bool * R)) (f : Flash)
    (d : R) :
  (Forall (fun k => 0 <= snd k) ticks ->
     0 <= opacityRef (flash_run flash_init ticks) <= 1) /\
  (firedRef f = false -> opacityRef f = 0 ->
     flash_frame true false d f = f /\
     firedRef (flash_frame true true d f) = true /\
     opacityRef (flash_frame true true d f) = exp (- (8) * d)) /\
  (firedRef f = true -> 0 < opacityRef f ->
     firedRef (flash_run f ticks) = true /\
     opacityRef (flash_run f ticks)
       = opacityRef f * exp (- (8) * fold_right Rplus 0 (map snd ticks))) /\
  (firedRef f = true -> 0 < opacityRef f <= 1 ->
   1 <= fold_right Rplus 0 (map snd ticks) ->
     opacityRef (flash_run f ticks) <= 0.01).
Proof.
  split; [|split; [|split]].
  - intros H. destruct (flash_run_from_init ticks H) as [[_ Z]|[_ P]]; lra.
  - intros F Z. destruct (flash_frame_unfired d f F Z) as [U1 U2].
    split; [exact U1|]. rewrite U2. split; reflexivity.
  - apply flash_run_fired.
  - intros F [P1 P2] T.
    destruct (flash_run_fired ticks f F P1) as [_ E]. rewrite E.
    set (S := fold_right Rplus 0 (map snd ticks)) in *.
    pose proof (exp_neg_bound S ltac:(lra)) as B.
    set (x := exp (- S)) in *.
    assert (0 < x) as X by apply exp_pos.
    assert (exp (- (8) * S) = ((x * x) * (x * x)) * ((x * x) * (x * x))) as Q.
    { unfold x. rewrite <- !exp_plus. f_equal. lra. }
    rewrite Q.
    assert (x <= 0.5) as Xh by nra.
    assert (x * x <= 0.25) by nra.
    assert ((x * x) * (x * x) <= 0.0625) by nra.
    assert (((x * x) * (x * x)) * ((x * x) * (x * x)) <= 0.00390625) by nra.
    assert (0 <= ((x * x) * (x * x)) * ((x * x) * (x * x))) by nra.
    nra.
Qed.

Lemma collapse_flash_fires_once_witness :
  0 <= opacityRef (flash_run flash_init
                     [(false, 0.016); (true, 0.016); (false, 0.5); (true, 0.2)])
    <= 1 /\
  opacityRef (flash_frame true true 0.016 flash_init) = exp (- (8) * 0.016) /\
  opacityRef (flash_run (mkFlash true 0.5 0.5 true) [(true, 0.5); (false, 0.5)])
    <= 0.01.
Proof.
  destruct (collapse_flash_fires_once
              [(false, 0.016); (true, 0.016); (false, 0.5); (true, 0.2)]
              flash_init 0.016) as (A & B & _).
  destruct (collapse_flash_fires_once [(true, 0.5); (false, 0.5)]
              (mkFlash true 0.5 0.5 true) 0) as (_ & _ & _ & C).
  split; [|split].
  - apply A. repeat apply Forall_cons; try apply Forall_nil; cbn; lra.
  - apply B; reflexivity.
  - apply C; [reflexivity | cbn; lra | cbn; lra].
Defined.

(* ------------------------------------------------------------------ *)
(** ** Debris pieces *)
(* ------------------------------------------------------------------ *)

Lemma vec_length_nonneg (v : Vec3) : 0 <= vec_length v.
Proof. destruct v as [[x y] z]. apply sqrt_pos. Qed.

Lemma vec_length_scale (v : Vec3) (s : R) :
  vec_length (multiplyScalar v s) = Rabs s * vec_length v.
Proof.
  destruct v as [[x y] z]. unfold multiplyScalar, vec_length.
  replace (x * s * (x * s) + y * s * (y * s) + z * s * (z * s))
    with (Rsqr s * (x * x + y * y + z * z)) by (unfold Rsqr; ring).
  rewrite sqrt_mult; [| apply Rle_0_sqr | nra].
  rewrite sqrt_Rsqr_abs. reflexivity.
Qed.

Lemma vec_lerp_offset (p q : Vec3) (a : R) :
  vec_sub (vec_lerp p q a) q = multiplyScalar (vec_sub p q) (1 - a).
Proof.
  destruct p as [[x y] z], q as [[u v] w].
  unfold vec_lerp, vec_sub, multiplyScalar. f_equal; [f_equal|]; ring.
Qed.

Lemma away_offset (p q : Vec3) (k : R) :
  vec_length (vec_sub p q) <> 0 ->
  vec_sub (addScaledVector p (normalize (vec_sub p q)) k) q
    = multiplyScalar (vec_sub p q) (1 + k / vec_length (vec_sub p q)).
Proof.
  intros N. unfold normalize.
  destruct (Req_dec_T (vec_length (vec_sub p q)) 0) as [E|_]; [contradiction|].
  set (L := vec_length (vec_sub p q)) in *.
  destruct p as [[x y] z], q as [[u v] w].
  unfold vec_sub, multiplyScalar, addScaledVector.
  f_equal; [f_equal|]; field; exact N.
Qed.

Lemma away_at_target (p : Vec3) (k : R) :
  vec_length (vec_sub p p) = 0 /\
  addScaledVector p (normalize (vec_sub p p)) k = p.
Proof.
  destruct p as [[x y] z].
  assert (vec_length (vec_sub (x, y, z) (x, y, z)) = 0) as Z.
  { unfold vec_sub, vec_length.
    replace ((x - x) * (x - x) + (y - y) * (y - y) + (z - z) * (z - z))
      with 0 by ring.
    apply sqrt_0. }
  split; [exact Z|].
  unfold normalize. rewrite Z.
  destruct (Req_dec_T 0 0) as [_|N]; [|contradiction].
  unfold vec_sub, multiplyScalar, addScaledVector.
  f_equal; [f_equal|]; field.
Qed.

Lemma vec_length_zero (p q : Vec3) : vec_length (vec_sub p q) = 0 -> p = q.
Proof.
  destruct p as [[x y] z], q as [[u v] w]. unfold vec_sub, vec_length.
  pose proof (Rle_0_sqr (x - u)) as Sx. pose proof (Rle_0_sqr (y - v)) as Sy.
  pose proof (Rle_0_sqr (z - w)) as Sz. unfold Rsqr in *.
  intros H. apply sqrt_eq_0 in H; [|lra].
  assert ((x - u) * (x - u) = 0) as Ex by lra.
  assert ((y - v) * (y - v) = 0) as Ey by lra.
  assert ((z - w) * (z - w) = 0) as Ez by lra.
  apply Rmult_integral in Ex, Ey, Ez.
  f_equal; [f_equal|]; tauto || lra.
Qed.

(** X15.  A debris piece that is not exploded and has [progress > 0]
    has its offset from the target multiplied by
    [1 - delta * speed * 0.6] each frame (so it stays on the near side
    while that product is at most 1, and lands past the target above
    1); an exploded piece moves straight away from the target, its
    distance growing by exactly [delta * speed * 3], unless it sits on
    the target, where it stays; and the material opacity is 0.7 times
    the scale, the scale staying within [0, 0.8] for non-negative
    deltas. *)
Theorem debris_piece_motion (speed progress delta : R) (exploded : bool)
    (d : Debris) :
  let d' := debris_frame speed true exploded progress delta d in
  (exploded = false -> 0 < progress ->
     vec_sub (posRef d') BIO_CENTER
       = multiplyScalar (vec_sub (posRef d) BIO_CENTER)
                        (1 - delta * speed * 0.6) /\
     vec_length (vec_sub (posRef d') BIO_CENTER)
       = Rabs (1 - delta * speed * 0.6)
         * vec_length (vec_sub (posRef d) BIO_CENTER)) /\
  (exploded = true -> 0 <= delta * speed -> posRef d <> BIO_CENTER ->
     vec_length (vec_sub (posRef d') BIO_CENTER)
       = vec_length (vec_sub (posRef d) BIO_CENTER) + delta * speed * 3) /\
  (exploded = true -> posRef d = BIO_CENTER -> posRef d' = posRef d) /\
  (exploded = false -> progress <= 0 ->
     posRef d' = posRef d /\ scaleRef d' = scaleRef d) /\
  debris_opacity d' = scaleRef d' * 0.7 /\
  (0 <= delta -> 0 <= scaleRef d <= 0.8 -> 0 <= scaleRef d' <= 0.8).
Proof.
  cbv zeta. unfold debris_frame. cbn [negb].
  split; [|split; [|split; [|split; [|split]]]].
  - intros -> P. destruct (Rgt_dec progress 0) as [G|G]; [|lra].
    cbn [posRef]. rewrite vec_lerp_offset. split; [reflexivity|].
    apply vec_length_scale.
  - intros -> K Hne. cbn [posRef].
    assert (vec_length (vec_sub (posRef d) BIO_CENTER) <> 0) as N
      by (intros Z; apply Hne, vec_length_zero, Z).
    rewrite away_offset by exact N.
    rewrite vec_length_scale.
    pose proof (vec_length_nonneg (vec_sub (posRef d) BIO_CENTER)) as L0.
    set (L := vec_length (vec_sub (posRef d) BIO_CENTER)) in *.
    assert (0 < L) as LP by lra.
    assert (0 <= delta * speed * 3 / L) as Q.
    { unfold Rdiv. apply Rmult_le_pos; [lra|].
      left. apply Rinv_0_lt_compat. exact LP. }
    rewrite Rabs_pos_eq by lra. field. lra.
  - intros -> E. cbn [posRef]. rewrite E. apply away_at_target.
  - intros -> P. destruct (Rgt_dec progress 0) as [G|G]; [lra|].
    cbn. split; reflexivity.
  - destruct exploded; [reflexivity|].
    destruct (Rgt_dec progress 0); reflexivity.
  - intros D S. destruct exploded; [|destruct (Rgt_dec progress 0)];
      cbn [scaleRef].
    + apply dampValue_in_range; lra.
    + apply dampValue_in_range; lra.
    + exact S.
Qed.

Lemma debris_piece_motion_witness :
  vec_length (vec_sub (posRef (debris_frame 2.8 true false 1 0.016
                                 (debris_init (120, 2, -27)))) BIO_CENTER)
    = Rabs (1 - 0.016 * 2.8 * 0.6)
      * vec_length (vec_sub (120, 2, -27) BIO_CENTER) /\
  posRef (debris_frame 2.8 true true 1 0.016 (debris_init BIO_CENTER))
    = BIO_CENTER /\
  vec_length (vec_sub (posRef (debris_frame 2.8 true true 1 0.016
                                 (debris_init (143, 4, -35)))) BIO_CENTER)
    = vec_length (vec_sub (143, 4, -35) BIO_CENTER) + 0.016 * 2.8 * 3 /\
  0 <= scaleRef (debris_frame 2.8 true false 1 0.016
                   (debris_init (120, 2, -27))) <= 0.8.
Proof.
  destruct (debris_piece_motion 2.8 1 0.016 false (debris_init (120, 2, -27)))
    as (A & _ & _ & _ & _ & C).
  destruct (debris_piece_motion 2.8 1 0.016 true (debris_init BIO_CENTER))
    as (_ & _ & B & _).
  destruct (debris_piece_motion 2.8 1 0.016 true (debris_init (143, 4, -35)))
    as (_ & E & _).
  split; [|split; [|split]].
  - apply A; [reflexivity | lra].
  - apply B; reflexivity.
  - apply E; [reflexivity | lra |].
    cbn. unfold BIO_CENTER. intros H. injection H as H1 H2. lra.
  - apply C; cbn; lra.
Defined.

(* ------------------------------------------------------------------ *)
(** ** Typing effect *)
(* ------------------------------------------------------------------ *)

Lemma typing_step_prefix (text : list Ascii.ascii) (s : Typing)
    (e : TypingEvent) :
  displayed s = firstn (indexRef s) text ->
  displayed (typing_step text s e) = firstn (indexRef (typing_step text s e)) text.
Proof.
  intros H. destruct e as [active|]; cbn [typing_step].
  - unfold typing_effect. destruct active; cbn [negb]; [|reflexivity].
    destruct (prevActive s && (length text <=? indexRef s)%nat); exact H.
  - unfold typing_tick. destruct (interval s); [|exact H].
    destruct (Nat.ltb_spec (length text) (S (indexRef s))) as [L|L];
      cbn [displayed indexRef]; [|reflexivity].
    rewrite H. rewrite !firstn_all2 by lia. reflexivity.
Qed.

Lemma typing_run_prefix (text : list Ascii.ascii) (es : list TypingEvent) :
  forall s, displayed s = firstn (indexRef s) text ->
  displayed (typing_run text s es)
    = firstn (indexRef (typing_run text s es)) text.
Proof.
  unfold typing_run. induction es as [|e es IH]; intros s H; [exact H|].
  cbn [fold_left]. apply IH, typing_step_prefix, H.
Qed.

Lemma typing_ticks (text : list Ascii.ascii) (k : nat) : forall s,
  interval s = true -> (indexRef s + k <= length text)%nat ->
  typing_run text s (repeat IntervalTick k)
    = if Nat.eqb k 0 then s
      else mkTyping (indexRef s + k) (firstn (indexRef s + k) text)
                    (prevActive s) true.
Proof.
  unfold typing_run. induction k as [|k IH]; intros s I L; [reflexivity|].
  cbn [repeat fold_left typing_step].
  assert (typing_tick text s
          = mkTyping (S (indexRef s)) (firstn (S (indexRef s)) text)
                     (prevActive s) true) as E.
  { unfold typing_tick. rewrite I.
    destruct (Nat.ltb_spec (length text) (S (indexRef s))) as [B|B]; [lia|].
    reflexivity. }
  rewrite E. rewrite IH by (cbn; lia). cbn [indexRef prevActive Nat.eqb].
  destruct k as [|k']; cbn [Nat.eqb].
  - replace (indexRef s + 1)%nat with (S (indexRef s)) by lia. reflexivity.
  - replace (S (indexRef s) + S k')%nat with (indexRef s + S (S k'))%nat by lia.
    reflexivity.
Qed.

(** X16.  The typed text of a checkpoint is always a prefix of its text:
    after any sequence of effect runs and interval ticks it is the
    first [indexRef] code units.  From a fresh activation, [k] ticks
    show the first [k] code units, the whole text after as many ticks
    as it has code units; the tick after that stops the interval and
    leaves the text in place; a run of the effect with [active] false
    clears it. *)
Theorem typing_effect_types_prefixes (text : list Ascii.ascii)
    (es : list TypingEvent) (k : nat) (s : Typing) :
  displayed (typing_run text typing_init es)
    = firstn (indexRef (typing_run text typing_init es)) text /\
  ((k <= length text)%nat ->
     displayed (typing_run text (typing_effect text true typing_init)
                           (repeat IntervalTick k))
       = firstn k text) /\
  displayed (typing_run text (typing_effect text true typing_init)
                        (repeat IntervalTick (length text)))
    = text /\
  (let done := typing_run text (typing_effect text true typing_init)
                          (repeat IntervalTick (S (length text))) in
   displayed done = text /\ interval done = false /\
   typing_tick text done = done /\ typing_effect text true done = done) /\
  displayed (typing_effect text false s) = [] /\
  indexRef (typing_effect text false s) = 0%nat.
Proof.
  assert (forall j, (j <= length text)%nat ->
            typing_run text (typing_effect text true typing_init)
                       (repeat IntervalTick j)
              = mkTyping j (firstn j text) true true) as T.
  { intros j Hj. rewrite typing_ticks; [| reflexivity | cbn; lia].
    destruct j; reflexivity. }
  split; [apply typing_run_prefix; reflexivity|].
  split; [intros Hk; rewrite T by exact Hk; reflexivity|].
  split; [rewrite T by lia; apply firstn_all|].
  split; [|split; reflexivity].
  cbv zeta.
  assert (typing_run text (typing_effect text true typing_init)
            (repeat IntervalTick (S (length text)))
          = mkTyping (S (length text)) text true false) as D.
  { replace (repeat IntervalTick (S (length text)))
      with (repeat IntervalTick (length text) ++ [IntervalTick])
      by (rewrite <- repeat_cons; reflexivity).
    unfold typing_run. rewrite fold_left_app.
    fold (typing_run text (typing_effect text true typing_init)
            (repeat IntervalTick (length text))).
    rewrite T by lia. cbn [fold_left typing_step].
    unfold typing_tick. cbn [interval indexRef displayed prevActive].
    destruct (Nat.ltb_spec (length text) (S (length text))) as [B|B]; [|lia].
    rewrite firstn_all. reflexivity. }
  rewrite D. split; [reflexivity|]. split; [reflexivity|].
  split; [reflexivity|].
  unfold typing_effect. cbn [negb prevActive indexRef andb displayed].
  destruct (Nat.leb_spec (length text) (S (length text))) as [C|C]; [|lia].
  reflexivity.
Qed.

Lemma typing_effect_types_prefixes_witness :
  displayed (typing_run (map Ascii.ascii_of_nat [67; 114; 97; 102; 116]%nat)
               (typing_effect (map Ascii.ascii_of_nat [67; 114; 97; 102; 116]%nat) true typing_init)
               (repeat IntervalTick 3))
    = firstn 3 (map Ascii.ascii_of_nat [67; 114; 97; 102; 116]%nat).
Proof.
  destruct (typing_effect_types_prefixes (map Ascii.ascii_of_nat [67; 114; 97; 102; 116]%nat) [] 3
              typing_init) as (_ & A & _).
  apply A. cbn. lia.
Defined.

(* ------------------------------------------------------------------ *)
(** ** Bio section: how long the phases take *)
(* ------------------------------------------------------------------ *)

Lemma bio_frame_timed (mounted : bool) (t d total : R) (b : Bio) :
  0 <= d -> 0 <= total -> bio_timed b total ->
  bio_timed (bio_frame mounted t d b) (d + total).
Proof.
  intros Hd Ht H. destruct mounted.
  - destruct (Rlt_dec t (BIO_ENTER - 0.04)) as [L|L].
    + rewrite bio_frame_reset by exact L.
      destruct b as [[] tm]; unfold bio_timed in *; cbn in *; try exact I.
    + rewrite bio_frame_active by exact L.
      destruct b as [[] tm]; unfold bio_timed in *;
        cbn [phaseRef timerRef] in *;
        repeat match goal with
        | |- context [if ?c then _ else _] => destruct c
        end; cbn [phaseRef timerRef]; try exact I; lra.
  - rewrite bio_frame_unmounted.
    destruct b as [[] tm]; unfold bio_timed in *; cbn in *; try exact I; lra.
Qed.

Lemma elapsed_nonneg (ks : list Tick) :
  Forall (fun k : Tick => 0 <= snd k) ks -> 0 <= elapsed ks.
Proof.
  unfold elapsed. induction 1 as [|k ks Hk _ IH]; cbn; lra.
Qed.

Lemma bio_run_timed (ks : list Tick) : forall b total,
  Forall (fun k : Tick => 0 <= snd k) ks -> 0 <= total ->
  bio_timed b total -> bio_timed (bio_run b ks) (total + elapsed ks).
Proof.
  unfold bio_run, elapsed.
  induction ks as [|[[m t] d] ks IH]; intros b total H Ht Hb.
  - cbn. replace (total + 0) with total by ring. exact Hb.
  - inversion H as [|? ? Hd Hrest]; subst. cbn [snd] in Hd.
    cbn [fold_left bio_tick map fold_right snd].
    replace (total + (d + fold_right Rplus 0 (map (fun k : Tick => snd k) ks)))
      with ((d + total) + fold_right Rplus 0 (map (fun k : Tick => snd k) ks))
      by ring.
    apply IH; [exact Hrest | lra |].
    apply bio_frame_timed; assumption.
Qed.

(** X17.  The bio sequence cannot be rushed: over any run of frames
    with non-negative deltas that starts idle, the collapse phase is
    reached only after more than 1.4 s of frames, the portrait
    (appeared) only after more than 1.8 s and the afterglow only after
    more than 2.4 s, however the scroll position moves. *)
Theorem bio_phases_take_time (ks : list Tick) :
  Forall (fun k : Tick => 0 <= snd k) ks ->
  (phaseRef (bio_run bio_init ks) = collapse -> 1.4 < elapsed ks) /\
  (phaseRef (bio_run bio_init ks) = appeared -> 1.8 < elapsed ks) /\
  (phaseRef (bio_run bio_init ks) = afterglow -> 2.4 < elapsed ks).
Proof.
  intros H.
  pose proof (bio_run_timed ks bio_init 0 H (Rle_refl 0) I) as T.
  replace (0 + elapsed ks) with (elapsed ks) in T by ring.
  unfold bio_timed in T.
  repeat split; intros E; rewrite E in T; lra.
Qed.

Lemma bio_phases_take_time_witness :
  (phaseRef (bio_run bio_init [(true, 0.9, 0.016); (true, 0.9, 1.5)])
     = collapse ->
   1.4 < elapsed [(true, 0.9, 0.016); (true, 0.9, 1.5)]) /\
  (phaseRef (bio_run bio_init [(true, 0.9, 0.016); (true, 0.9, 1.5)])
     = appeared ->
   1.8 < elapsed [(true, 0.9, 0.016); (true, 0.9, 1.5)]) /\
  (phaseRef (bio_run bio_init [(true, 0.9, 0.016); (true, 0.9, 1.5)])
     = afterglow ->
   2.4 < elapsed [(true, 0.9, 0.016); (true, 0.9, 1.5)]).
Proof.
  apply (bio_phases_take_time [(true, 0.9, 0.016); (true, 0.9, 1.5)]).
  repeat apply Forall_cons; try apply Forall_nil; cbn; lra.
Defined.

(* ------------------------------------------------------------------ *)
(** ** The ethos overlay at the section stops *)
(* ------------------------------------------------------------------ *)

(** X18.  At rest on the first ethos stop (0.16) the overlay is fully
    opaque with two checkpoints active; on the second (0.22) all three
    are active and the overlay is at opacity 0.8, already in its exit
    band; on every other stop the overlay is transparent. *)
Theorem ethos_at_stops (i : Z) :
  (newCount (stop_at 1) = 2%nat /\ opacity (stop_at 1) = 1) /\
  (newCount (stop_at 2) = 3%nat /\ opacity (stop_at 2) = 0.8) /\
  (valid_index i -> i <> 1%Z -> i <> 2%Z -> opacity (stop_at i) = 0).
Proof.
  change (stop_at 1) with 0.16. change (stop_at 2) with 0.22.
  split; [|split].
  - split.
    + rewrite newCount_raw.
      apply (count_reached_steps (ethos_raw 0.16)).
      rewrite ethos_raw_linear. lra.
    + apply opacity_interior. unfold ETHOS_ENTER, ETHOS_EXIT, FADE_BAND. lra.
  - split.
    + rewrite newCount_raw.
      apply (count_reached_steps (ethos_raw 0.22)).
      rewrite ethos_raw_linear. lra.
    + rewrite opacity_exit_band by (unfold ETHOS_EXIT, FADE_BAND; lra).
      rewrite fade_out_linear. lra.
  - unfold valid_index. rewrite last_stop_eq. intros V N1 N2.
    assert (i = 0 \/ i = 3 \/ i = 4 \/ i = 5 \/ i = 6)%Z as C by lia.
    apply opacity_outside. unfold ETHOS_ENTER, ETHOS_EXIT.
    destruct C as [->|[->|[->|[->| ->]]]];
      cbv [stop_at SECTION_STOPS Z.to_nat Pos.to_nat Pos.iter_op Nat.add nth];
      lra.
Qed.

Lemma ethos_at_stops_witness : opacity (stop_at 4) = 0.
Proof.
  destruct (ethos_at_stops 4) as (_ & _ & H).
  apply H; [unfold valid_index; rewrite last_stop_eq; lia | lia | lia].
Defined.

(* ------------------------------------------------------------------ *)
(** ** Sigil strokes *)
(* ------------------------------------------------------------------ *)

(** Reading a flat array built from triples. *)
Lemma nth_flat_triples (f : nat -> list R) (l : list nat) :
  (forall i, length (f i) = 3%nat) ->
  forall i j, (i < length l)%nat -> (j < 3)%nat ->
  nth (3 * i + j) (flat_map f l) 0 = nth j (f (nth i l 0%nat)) 0.
Proof.
  intros L. induction l as [|a l IH]; intros i j Hi Hj; [cbn in Hi; lia|].
  cbn [flat_map]. destruct i as [|i].
  - cbn [nth Nat.mul Nat.add]. rewrite app_nth1 by (rewrite L; lia).
    reflexivity.
  - rewrite app_nth2 by (rewrite L; lia). rewrite L.
    replace (3 * S i + j - 3)%nat with (3 * i + j)%nat by lia.
    cbn [nth]. apply IH; [cbn in Hi; lia | exact Hj].
Qed.

Lemma length_flat_triples (f : nat -> list R) (l : list nat) :
  (forall i, length (f i) = 3%nat) ->
  length (flat_map f l) = (3 * length l)%nat.
Proof.
  intros L. induction l as [|a l IH]; [reflexivity|].
  cbn [flat_map]. rewrite length_app, L, IH. cbn [length]. lia.
Qed.

Lemma vertex_flat_triples (x y z : nat -> R) (n i : nat) :
  (i < n)%nat ->
  vertex (flat_map (fun k => [x k; y k; z k]) (seq 0 n)) i = (x i, y i, z i).
Proof.
  intros Hi. unfold vertex.
  pose proof (nth_flat_triples (fun k => [x k; y k; z k]) (seq 0 n)
                (fun _ => eq_refl) i) as N.
  rewrite length_seq in N.
  replace (3 * i)%nat with (3 * i + 0)%nat at 1 by lia.
  rewrite !N by lia. rewrite seq_nth by exact Hi. reflexivity.
Qed.

Lemma on_circle (a r : R) : (cos a * r) * (cos a * r) + (sin a * r) * (sin a * r) = r * r.
Proof.
  pose proof (sin2_cos2 a) as H. unfold Rsqr in H.
  replace (cos a * r * (cos a * r) + sin a * r * (sin a * r))
    with ((sin a * sin a + cos a * cos a) * (r * r)) by ring.
  rewrite H. ring.
Qed.

Lemma cos_turn (x : R) : cos (x + 2 * PI) = cos x.
Proof.
  pose proof (cos_period x 1) as H. cbn [INR] in H.
  replace (x + 2 * 1 * PI) with (x + 2 * PI) in H by ring. exact H.
Qed.

Lemma sin_turn (x : R) : sin (x + 2 * PI) = sin x.
Proof.
  pose proof (sin_period x 1) as H. cbn [INR] in H.
  replace (x + 2 * 1 * PI) with (x + 2 * PI) in H by ring. exact H.
Qed.

(** X19.  [makePoly(sides, r)] with at least one side is an array of
    [3 (sides + 1)] numbers whose vertices all lie on the circle of
    radius [r] in the plane [z = 0]; it starts at [(0, -r, 0)] and its
    last vertex is its first, so the stroke is closed. *)
Theorem makePoly_closed_on_circle (sides i : nat) (r : R) :
  (1 <= sides)%nat -> (i <= sides)%nat ->
  length (makePoly sides r) = (3 * (sides + 1))%nat /\
  (let '(x, y, z) := vertex (makePoly sides r) i in
   x * x + y * y = r * r /\ z = 0) /\
  vertex (makePoly sides r) 0 = (0, - r, 0) /\
  vertex (makePoly sides r) sides = vertex (makePoly sides r) 0.
Proof.
  intros Hs Hi. unfold makePoly.
  assert (INR sides <> 0) as N by (apply not_0_INR; lia).
  split; [rewrite length_flat_triples by reflexivity;
          rewrite length_seq; lia|].
  rewrite !(vertex_flat_triples
              (fun k => cos (INR k / INR sides * PI * 2 - PI / 2) * r)
              (fun k => sin (INR k / INR sides * PI * 2 - PI / 2) * r)
              (fun _ => 0)) by lia.
  assert (cos (INR 0 / INR sides * PI * 2 - PI / 2) = 0) as C0.
  { replace (INR 0 / INR sides * PI * 2 - PI / 2) with (- (PI / 2))
      by (cbn [INR]; field; exact N).
    rewrite cos_neg. apply cos_PI2. }
  assert (sin (INR 0 / INR sides * PI * 2 - PI / 2) = -1) as S0.
  { replace (INR 0 / INR sides * PI * 2 - PI / 2) with (- (PI / 2))
      by (cbn [INR]; field; exact N).
    rewrite sin_neg, sin_PI2. ring. }
  assert (INR sides / INR sides * PI * 2 - PI / 2
          = (INR 0 / INR sides * PI * 2 - PI / 2) + 2 * PI) as E
    by (cbn [INR]; field; exact N).
  split; [split; [apply on_circle | reflexivity]|].
  split.
  - rewrite C0, S0. replace (0 * r) with 0 by ring.
    replace (-1 * r) with (- r) by ring. reflexivity.
  - rewrite E, cos_turn, sin_turn. reflexivity.
Qed.

Lemma makePoly_closed_on_circle_witness :
  length (makePoly 64 1.3) = (3 * (64 + 1))%nat /\
  vertex (makePoly 64 1.3) 64 = vertex (makePoly 64 1.3) 0.
Proof.
  destruct (makePoly_closed_on_circle 64 5 1.3) as (A & _ & _ & B); [lia | lia |].
  split; [exact A | exact B].
Defined.

(** X20.  [makeStar(n, outer, inner)] with [n >= 1] has [2 n + 1]
    vertices in the plane [z = 0], those of even index on the circle of
    radius [outer] and those of odd index on the circle of radius
    [inner]; its last vertex is its first. *)
Theorem makeStar_alternates (n i : nat) (outer inner : R) :
  (1 <= n)%nat -> (i <= n * 2)%nat ->
  length (makeStar n outer inner) = (3 * (2 * n + 1))%nat /\
  (let '(x, y, z) := vertex (makeStar n outer inner) i in
   x * x + y * y = (if Nat.eqb (i mod 2) 0 then outer * outer
                    else inner * inner) /\
   z = 0) /\
  vertex (makeStar n outer inner) (n * 2) = vertex (makeStar n outer inner) 0.
Proof.
  intros Hn Hi. unfold makeStar.
  assert (INR (n * 2) <> 0) as N by (apply not_0_INR; lia).
  split; [rewrite length_flat_triples by reflexivity;
          rewrite length_seq; lia|].
  rewrite !(vertex_flat_triples
              (fun k => cos (INR k / INR (n * 2) * PI * 2 - PI / 2)
                        * (if Nat.eqb (k mod 2) 0 then outer else inner))
              (fun k => sin (INR k / INR (n * 2) * PI * 2 - PI / 2)
                        * (if Nat.eqb (k mod 2) 0 then outer else inner))
              (fun _ => 0)) by lia.
  split.
  - split; [|reflexivity]. rewrite on_circle.
    destruct (Nat.eqb (i mod 2) 0); reflexivity.
  - assert (INR (n * 2) / INR (n * 2) * PI * 2 - PI / 2
            = (INR 0 / INR (n * 2) * PI * 2 - PI / 2) + 2 * PI) as E
      by (cbn [INR]; field; exact N).
    rewrite E, cos_turn, sin_turn.
    replace ((n * 2) mod 2)%nat with 0%nat by (symmetry; apply Nat.Div0.mod_mul).
    reflexivity.
Qed.

Lemma makeStar_alternates_witness :
  vertex (makeStar 5 1.0 0.38) (5 * 2) = vertex (makeStar 5 1.0 0.38) 0.
Proof.
  destruct (makeStar_alternates 5 3 1.0 0.38) as (_ & _ & A); [lia | lia |].
  exact A.
Defined.

(** X21.  [makeTri(r, flip)] is a closed stroke of four vertices on the
    circle of radius [r]; the triangle built without [flip] is the
    point reflection of the one built with it, which is what makes the
    two of them a hexagram. *)
Theorem makeTri_closed (r : R) (flip : bool) (i : nat) :
  (i <= 3)%nat ->
  length (makeTri r flip) = 12%nat /\
  (let '(x, y, z) := vertex (makeTri r flip) i in
   x * x + y * y = r * r /\ z = 0) /\
  vertex (makeTri r flip) 3 = vertex (makeTri r flip) 0 /\
  vertex (makeTri r false) i
    = (let '(x, y, z) := vertex (makeTri r true) i in (- x, - y, z)).
Proof.
  intros Hi. unfold makeTri.
  split; [reflexivity|].
  rewrite !(vertex_flat_triples
              (fun k => cos (INR k / 3 * PI * 2 + (if flip then 0 else PI)) * r)
              (fun k => sin (INR k / 3 * PI * 2 + (if flip then 0 else PI)) * r)
              (fun _ => 0)) by lia.
  rewrite (vertex_flat_triples
              (fun k => cos (INR k / 3 * PI * 2 + PI) * r)
              (fun k => sin (INR k / 3 * PI * 2 + PI) * r)
              (fun _ => 0)) by lia.
  rewrite (vertex_flat_triples
              (fun k => cos (INR k / 3 * PI * 2 + 0) * r)
              (fun k => sin (INR k / 3 * PI * 2 + 0) * r)
              (fun _ => 0)) by lia.
  split; [split; [apply on_circle | reflexivity]|].
  split.
  - assert (INR 3 / 3 * PI * 2 + (if flip then 0 else PI)
            = (INR 0 / 3 * PI * 2 + (if flip then 0 else PI)) + 2 * PI) as E
      by (cbn [INR]; field).
    rewrite E, cos_turn, sin_turn. reflexivity.
  - rewrite neg_cos, neg_sin. rewrite !Rplus_0_r.
    f_equal. f_equal; ring.
Qed.

Lemma makeTri_closed_witness :
  vertex (makeTri 1.0 false) 3 = vertex (makeTri 1.0 false) 0.
Proof.
  destruct (makeTri_closed 1.0 false 2) as (_ & _ & A & _); [lia|].
  exact A.
Defined.

(* ------------------------------------------------------------------ *)
(** ** Hero letters *)
(* ------------------------------------------------------------------ *)

(** X22.  With at least two letters and a non-zero spacing the hero
    letters are equally spaced, centred on x = 0 (letter [i] mirrors
    letter [n - 1 - i]) and span exactly [targetFraction] of the
    visible width from the first letter to the last, for every
    viewport of non-zero height. *)
Theorem hero_letters_fill_width (cfg : HeroConfig) (width height : R) (i : nat) :
  (2 <= letters cfg)%nat -> spacing cfg <> 0 -> height <> 0 ->
  letter_x cfg width height (letters cfg - 1) - letter_x cfg width height 0
    = targetFraction cfg * hero_visW width height /\
  letter_x cfg width height (S i) - letter_x cfg width height i
    = actualSpacing cfg width height /\
  ((i < letters cfg)%nat ->
     letter_x cfg width height (letters cfg - 1 - i)
       = - letter_x cfg width height i).
Proof.
  intros Hn Hs _.
  assert (INR (letters cfg) - 1 <> 0) as N.
  { assert (2 <= INR (letters cfg)) by (apply (le_INR 2); exact Hn). lra. }
  assert (INR (letters cfg - 1) = INR (letters cfg) - 1) as M
    by (rewrite minus_INR by lia; reflexivity).
  split; [|split].
  - unfold letter_x, actualSpacing, letterScale. rewrite M. cbn [INR].
    field. split; assumption.
  - unfold letter_x. rewrite S_INR. ring.
  - intros Hi. unfold letter_x.
    rewrite minus_INR by lia. rewrite M. field.
Qed.

Lemma hero_letters_fill_width_witness :
  letter_x HERO_CONFIG 1920 1080 (letters HERO_CONFIG - 1)
    - letter_x HERO_CONFIG 1920 1080 0
    = targetFraction HERO_CONFIG * hero_visW 1920 1080 /\
  letter_x HERO_CONFIG 1920 1080 (letters HERO_CONFIG - 1 - 2)
    = - letter_x HERO_CONFIG 1920 1080 2.
Proof.
  destruct (hero_letters_fill_width HERO_CONFIG 1920 1080 2) as (A & _ & B).
  - cbn. lia.
  - cbn. lra.
  - lra.
  - split; [exact A | apply B; cbn; lia].
Defined.

(** [x % 1] of a non-negative number is its fractional part. *)
Lemma fmod1_unit (x : R) : 0 <= x -> 0 <= fmod1 x < 1.
Proof.
  intros H. unfold fmod1. destruct (Rle_dec 0 x) as [_|N]; [|contradiction].
  pose proof (Zfloor_bound x). lra.
Qed.

Lemma movementSpeed_range (p : R) : 0 <= movementSpeed p.
Proof. unfold movementSpeed. split_R; lra. Qed.

(** X23.  A spine letter never reads outside its caches: for a
    non-negative offset and frame delta the new offset is again in
    [0, 1); every link parameter [t] is in [0, 1); the first cache index
    is between 0 and 127, the second is the next one (the [Math.min]
    never bites) and at most 128, the last entry of the
    129-entry caches; and the blend fraction is in [0, 1). *)
Theorem spine_cache_in_bounds (count i : nat) (offset delta drawProgress : R) :
  0 <= offset -> 0 <= delta ->
  0 <= spine_offset offset delta drawProgress < 1 /\
  0 <= link_t count i offset < 1 /\
  (let t := link_t count i offset in
   (0 <= cache_idx0 t <= CACHE_STEPS - 1)%Z /\
   cache_idx1 t = (cache_idx0 t + 1)%Z /\
   (cache_idx1 t <= CACHE_STEPS)%Z /\
   0 <= cache_frac t < 1).
Proof.
  intros Ho Hd.
  assert (0 <= link_t count i offset < 1) as Lt.
  { unfold link_t. apply fmod1_unit.
    assert (0 <= INR i * (1 / INR count)) as P.
    { apply Rmult_le_pos; [apply pos_INR|].
      unfold Rdiv. rewrite Rmult_1_l.
      destruct count as [|c].
      - cbn [INR]. rewrite Rinv_0. lra.
      - left. apply Rinv_0_lt_compat. apply lt_0_INR. lia. }
    lra. }
  split.
  { unfold spine_offset. apply fmod1_unit.
    pose proof (movementSpeed_range drawProgress). nra. }
  split; [exact Lt|].
  cbv zeta. set (t := link_t count i offset) in *.
  unfold cache_frac, cache_idx1, cache_idx0, CACHE_STEPS.
  pose proof (Zfloor_bound (t * 128)) as B.
  set (z := Zfloor (t * 128)) in *.
  assert (0 <= z)%Z as Z0.
  { apply Zfloor_lub. lra. }
  assert (z < 128)%Z as Z1.
  { apply lt_IZR. lra. }
  split; [lia|]. split; [lia|]. split; [lia|]. lra.
Qed.

Lemma spine_cache_in_bounds_witness :
  0 <= spine_offset 0.9 0.5 0.2 < 1 /\ 0 <= link_t 12 5 0.7 < 1.
Proof.
  destruct (spine_cache_in_bounds 12 5 0.9 0.5 0.2) as (A & _); [lra | lra |].
  destruct (spine_cache_in_bounds 12 5 0.7 0 0) as (_ & B & _); [lra | lra |].
  split; [exact A | exact B].
Defined.

(* ------------------------------------------------------------------ *)
(** ** Reticle, HUD panel and zone grid *)
(* ------------------------------------------------------------------ *)

Lemma dampValue_fixed (x r d : R) : dampValue x x r d = x.
Proof. rewrite dampValue_decay. unfold decay_formula. ring. Qed.

Lemma reticle_run_range (ticks : list (bool * bool * R)) : forall r,
  Forall (fun k => 0 <= snd k) ticks ->
  1 <= reticle_scale r <= 1.6 -> 0 <= reticle_opacity r <= 1 ->
  1 <= reticle_scale (reticle_run r ticks) <= 1.6 /\
  0 <= reticle_opacity (reticle_run r ticks) <= 1.
Proof.
  unfold reticle_run.
  induction ticks as [|[[h a] d] ticks IH]; intros r H Hs Ho; [split; assumption|].
  inversion H as [|? ? Hd Hrest]; subst. cbn [snd] in Hd.
  cbn [fold_left fst snd]. apply IH; [exact Hrest | |];
    unfold reticle_frame; cbn [reticle_scale reticle_opacity].
  - apply dampValue_in_range; [lra | exact Hs | destruct h; lra].
  - apply dampValue_in_range; [lra | exact Ho | destruct a, h; lra].
Qed.

Lemma reticle_run_hidden (ticks : list (bool * bool * R)) : forall r,
  Forall (fun k => snd (fst k) = false) ticks ->
  reticle_opacity r = 0 -> reticle_opacity (reticle_run r ticks) = 0.
Proof.
  unfold reticle_run.
  induction ticks as [|[[h a] d] ticks IH]; intros r H Ho; [exact Ho|].
  inversion H as [|? ? Ha Hrest]; subst. cbn [fst snd] in Ha. subst a.
  cbn [fold_left fst snd]. apply IH; [exact Hrest|].
  unfold reticle_frame. cbn [reticle_opacity]. rewrite Ho.
  replace 0.0 with 0 by lra. apply dampValue_fixed.
Qed.

(** X24.  Over any run of frames with non-negative deltas the reticle's
    scale stays between 1 and 1.6 and its opacity between 0 and 1; as
    long as the card has not appeared the reticle stays fully
    transparent, hovered or not.  The HUD panel's opacity and the zone
    grid's stay in [0,1] frame by frame, the grid lines never above
    0.12, and a grid at opacity 0 stays at 0 while the scroll position
    is outside [0.35, 0.85]. *)
Theorem card_hud_ranges (ticks : list (bool * bool * R)) (appeared dim : bool)
    (t delta op : R) :
  (Forall (fun k => 0 <= snd k) ticks ->
     1 <= reticle_scale (reticle_run reticle_init ticks) <= 1.6 /\
     0 <= reticle_opacity (reticle_run reticle_init ticks) <= 1) /\
  (Forall (fun k => snd (fst k) = false) ticks ->
     reticle_opacity (reticle_run reticle_init ticks) = 0) /\
  (0 <= delta -> 0 <= op <= 1 ->
     0 <= hud_frame appeared delta op <= 1 /\
     0 <= grid_frame t delta op <= 1 /\
     0 <= grid_line_opacity dim (grid_frame t delta op) <= 0.12) /\
  (t < 0.35 \/ 0.85 < t -> grid_frame t delta 0 = 0).
Proof.
  split; [|split; [|split]].
  - intros H. apply reticle_run_range; [exact H | cbn; lra | cbn; lra].
  - intros H. apply reticle_run_hidden; [exact H | reflexivity].
  - intros Hd Ho.
    assert (0 <= grid_frame t delta op <= 1) as G.
    { unfold grid_frame. apply dampValue_in_range; [lra | exact Ho |].
      destruct (Rge_dec t 0.35); [destruct (Rle_dec t 0.85)|]; lra. }
    split; [|split; [exact G|]].
    + unfold hud_frame. apply dampValue_in_range; [lra | exact Ho |].
      destruct appeared; lra.
    + unfold grid_line_opacity. destruct dim; lra.
  - intros H. unfold grid_frame.
    destruct (Rge_dec t 0.35); [destruct (Rle_dec t 0.85)|];
      try apply dampValue_fixed; lra.
Qed.

Lemma card_hud_ranges_witness :
  (1 <= reticle_scale (reticle_run reticle_init
                         [(true, true, 0.016); (false, true, 0.3)]) <= 1.6 /\
   0 <= reticle_opacity (reticle_run reticle_init
                           [(true, true, 0.016); (false, true, 0.3)]) <= 1) /\
  reticle_opacity (reticle_run reticle_init
                     [(true, false, 0.016); (false, false, 0.3)]) = 0 /\
  0 <= hud_frame true 0.016 0.5 <= 1 /\
  grid_frame 0.2 0.016 0 = 0.
Proof.
  destruct (card_hud_ranges [(true, true, 0.016); (false, true, 0.3)]
              true true 0.2 0.016 0.5) as (A & _ & C & D).
  destruct (card_hud_ranges [(true, false, 0.016); (false, false, 0.3)]
              true true 0.2 0.016 0.5) as (_ & B & _).
  split; [|split; [|split]].
  - apply A. repeat apply Forall_cons; try apply Forall_nil; cbn; lra.
  - apply B. repeat apply Forall_cons; try apply Forall_nil; reflexivity.
  - apply C; lra.
  - apply D. lra.
Defined.

(* ------------------------------------------------------------------ *)
(** ** Ambient motion *)
(* ------------------------------------------------------------------ *)

Lemma base_drift_range (d y : R) :
  0 <= d -> -15 <= y <= 15 -> -15 <= base_drift d y <= 15.
Proof.
  intros Hd Hy. unfold base_drift.
  destruct (Rlt_dec (y - d * 0.3) (-15)); lra.
Qed.

(** X25.  The base height of a particle stays within [-15, 15] over any
    run of frames with non-negative deltas: it sinks by [0.3 delta]
    per frame and is put back at 15 as soon as it would fall below
    -15. *)
Theorem particle_base_wraps (deltas : list R) (d y : R) :
  (Forall (fun x => 0 <= x) deltas -> -15 <= y <= 15 ->
     -15 <= base_drift_run deltas y <= 15) /\
  (y - d * 0.3 < -15 -> base_drift d y = 15) /\
  (-15 <= y - d * 0.3 -> base_drift d y = y - d * 0.3).
Proof.
  split; [|split].
  - revert y. induction deltas as [|x xs IH]; intros y H Hy; [exact Hy|].
    inversion H; subst. cbn [base_drift_run]. apply IH; [assumption|].
    apply base_drift_range; assumption.
  - intros H. unfold base_drift.
    destruct (Rlt_dec (y - d * 0.3) (-15)); [reflexivity | lra].
  - intros H. unfold base_drift.
    destruct (Rlt_dec (y - d * 0.3) (-15)); [lra | reflexivity].
Qed.

Lemma particle_base_wraps_witness :
  -15 <= base_drift_run [0.016; 30; 0.5] (-14.999) <= 15 /\
  base_drift 0.016 (-14.999) = 15 /\
  base_drift 0.016 3 = 3 - 0.016 * 0.3.
Proof.
  destruct (particle_base_wraps [0.016; 30; 0.5] 0.016 (-14.999)) as (A & B & _).
  destruct (particle_base_wraps [] 0.016 3) as (_ & _ & C).
  split; [|split].
  - apply A; [|lra]. repeat apply Forall_cons; try apply Forall_nil; lra.
  - apply B. lra.
  - apply C. lra.
Defined.

Lemma sin_scaled (x a : R) : 0 <= a -> - a <= sin x * a <= a.
Proof. intros H. pose proof (SIN_bound x). nra. Qed.

(** X26.  The modulated quantities stay in range at every clock time:
    the hue of the afterglow stays in [0,1) when advanced by a
    non-negative delta, as do the two shifted hues; the three light
    intensities stay within [5,11], [3.5,8.5] and [2,6], the floor
    grid's opacity within [0.05,0.11] and the cursor orb's scale within
    [0.96,1.04]. *)
Theorem modulations_in_range (hue delta t : R) :
  (0 <= hue -> 0 <= delta ->
     0 <= hue_step hue delta < 1 /\
     0 <= hue2 hue < 1 /\ 0 <= hue3 hue < 1) /\
  5 <= intensity1 t <= 11 /\
  3.5 <= intensity2 t <= 8.5 /\
  2 <= intensity3 t <= 6 /\
  0.05 <= bio_grid_opacity t <= 0.11 /\
  0.96 <= breathe t <= 1.04.
Proof.
  split.
  { intros Hh Hd. unfold hue_step, hue2, hue3.
    repeat split; apply fmod1_unit; nra. }
  unfold intensity1, intensity2, intensity3, bio_grid_opacity, breathe.
  pose proof (sin_scaled (t * 0.7) 3 ltac:(lra)).
  pose proof (sin_scaled (t * 0.5 + 1.2) 2.5 ltac:(lra)).
  pose proof (sin_scaled (t * 0.9 + 2.4) 2 ltac:(lra)).
  pose proof (sin_scaled (t * 0.8) 0.03 ltac:(lra)).
  pose proof (sin_scaled (t * 2.2) 0.04 ltac:(lra)).
  repeat split; lra.
Qed.

Lemma modulations_in_range_witness :
  0 <= hue_step 0.6 0.016 < 1 /\ 0 <= hue2 0.9 < 1 /\ 0 <= hue3 0.9 < 1.
Proof.
  destruct (modulations_in_range 0.6 0.016 0) as (A & _).
  destruct (modulations_in_range 0.9 0 0) as (B & _).
  split; [apply A; lra | apply B; lra].
Defined.

(* ------------------------------------------------------------------ *)
(** ** Fragmented portrait *)
(* ------------------------------------------------------------------ *)

Lemma INR_lt_nat (a b : nat) : (a < b)%nat -> INR a + 1 <= INR b.
Proof. intros H. rewrite <- S_INR. apply le_INR. lia. Qed.

(** With three textures the divisor [COLS * ROWS / textures.length]
    is 8. *)
Lemma texIndex_of_band (index q : nat) :
  (8 * q <= index < 8 * q + 8)%nat -> (q < 3)%nat -> texIndex_of index = q.
Proof.
  intros [L U] Hq. unfold texIndex_of, textures_length, COLS, ROWS.
  assert (INR 4 * INR 6 / INR 3 = 8) as E by (cbn; lra).
  rewrite E.
  assert (Zfloor (INR index / 8) = Z.of_nat q) as F.
  { apply Zfloor_eq. rewrite <- INR_IZR_INZ.
    apply le_INR in L. apply lt_INR in U.
    rewrite plus_INR, mult_INR in U. rewrite mult_INR in L.
    replace (INR 8) with 8 in * by (cbn; lra). lra. }
  rewrite F, Znat.Nat2Z.id. apply Nat.mod_small. exact Hq.
Qed.

(** X27.  The 24 shards of the portrait are pushed in row-major order.
    Shard (row, col) samples image [row / 2] of the three, so each
    image supplies one band of two rows; its texture rectangle lies in
    the unit square, and the rectangles of shards in different columns,
    or in different rows, do not overlap.  The centres of the shards
    form a grid of pitch [SHARD_W + GAP] by [SHARD_H + GAP] centred on
    the origin in x and y; whatever [Math.random] returns, the depth of
    a centre is within 0.6 of the plane and the three angles of the
    rotation within 0.06, 0.04 and 0.03. *)
Theorem portrait_shards_layout (rnd : nat -> R) (row col row' col' : nat) :
  (forall k, 0 <= rnd k < 1) ->
  (row < ROWS)%nat -> (col < COLS)%nat ->
  (row' < ROWS)%nat -> (col' < COLS)%nat ->
  length (shards rnd) = 24%nat /\
  nth (row * COLS + col) (shards rnd) (shard rnd 0 0) = shard rnd row col /\
  texIndex (shard rnd row col) = (row / 2)%nat /\
  (texIndex (shard rnd row col) < textures_length)%nat /\
  (let '(u0, v0) := uvOffset (shard rnd row col) in
   let '(uw, vh) := uvSize (shard rnd row col) in
   0 <= u0 /\ u0 + uw <= 1 /\ 0 <= v0 /\ v0 + vh <= 1) /\
  ((col < col')%nat ->
     fst (uvOffset (shard rnd row col)) + fst (uvSize (shard rnd row col))
       <= fst (uvOffset (shard rnd row' col'))) /\
  ((row < row')%nat ->
     snd (uvOffset (shard rnd row' col')) + snd (uvSize (shard rnd row' col'))
       <= snd (uvOffset (shard rnd row col))) /\
  vx (worldPos (shard rnd row' col')) - vx (worldPos (shard rnd row col))
    = (INR col' - INR col) * (SHARD_W + GAP) /\
  vy (worldPos (shard rnd row' col')) - vy (worldPos (shard rnd row col))
    = (INR row - INR row') * (SHARD_H + GAP) /\
  vx (worldPos (shard rnd row (COLS - 1 - col)))
    = - vx (worldPos (shard rnd row col)) /\
  vy (worldPos (shard rnd (ROWS - 1 - row) col))
    = - vy (worldPos (shard rnd row col)) /\
  Rabs (vz (worldPos (shard rnd row col))) <= 0.6 /\
  Rabs (vx (rotation (shard rnd row col))) <= 0.06 /\
  Rabs (vy (rotation (shard rnd row col))) <= 0.04 /\
  Rabs (vz (rotation (shard rnd row col))) <= 0.03.
Proof.
  intros Hrnd Hr Hc Hr' Hc'. unfold ROWS, COLS in Hr, Hc, Hr', Hc'.
  assert (0 <= INR row /\ INR row + 1 <= 6) as Br.
  { split; [apply pos_INR|]. replace 6 with (INR 6) by (cbn; lra).
    apply INR_lt_nat. exact Hr. }
  assert (0 <= INR col /\ INR col + 1 <= 4) as Bc.
  { split; [apply pos_INR|]. replace 4 with (INR 4) by (cbn; lra).
    apply INR_lt_nat. exact Hc. }
  assert (INR 4 = 4) as I4 by (cbn; lra).
  assert (INR 6 = 6) as I6 by (cbn; lra).
  assert (texIndex (shard rnd row col) = (row / 2)%nat) as TX.
  { unfold shard. cbn [texIndex]. unfold COLS.
    pose proof (Nat.div_mod_eq row 2) as D.
    pose proof (Nat.mod_upper_bound row 2 ltac:(lia)) as M.
    apply texIndex_of_band; lia. }
  split; [reflexivity|].
  split.
  { unfold COLS.
    do 6 (destruct row as [|row]; [do 4 (destruct col as [|col]; [reflexivity|]); lia|]).
    lia. }
  split; [exact TX|].
  split.
  { rewrite TX. unfold textures_length.
    pose proof (Nat.div_mod_eq row 2). lia. }
  unfold shard, vx, vy, vz, ROWS, COLS, SHARD_W, SHARD_H, GAP.
  cbn [uvOffset uvSize worldPos rotation fst snd]. rewrite I4, I6.
  split; [repeat split; lra|].
  split.
  { intros L. pose proof (INR_lt_nat col col' L). lra. }
  split.
  { intros L. pose proof (INR_lt_nat row row' L). lra. }
  split; [lra|].
  split; [lra|].
  split.
  { replace (INR (4 - 1 - col)) with (3 - INR col).
    + lra.
    + rewrite !minus_INR by lia. cbn. lra. }
  split.
  { replace (INR (6 - 1 - row)) with (5 - INR row).
    + lra.
    + rewrite !minus_INR by lia. cbn. lra. }
  repeat split; apply Rabs_le;
    match goal with |- context [rnd ?k] => pose proof (Hrnd k) end; lra.
Qed.

Lemma portrait_shards_layout_witness :
  nth (2 * COLS + 1) (shards (fun _ => 0.25)) (shard (fun _ => 0.25) 0 0)
    = shard (fun _ => 0.25) 2 1 /\
  texIndex (shard (fun _ => 0.25) 2 1) = 1%nat /\
  vx (worldPos (shard (fun _ => 0.25) 5 3))
    - vx (worldPos (shard (fun _ => 0.25) 2 1))
    = (INR 3 - INR 1) * (SHARD_W + GAP) /\
  Rabs (vz (worldPos (shard (fun _ => 0.25) 2 1))) <= 0.6.
Proof.
  assert (forall k : nat, 0 <= (fun _ : nat => 0.25) k < 1) as Hrnd
    by (intros k; lra).
  assert (2 < ROWS)%nat as R2 by (unfold ROWS; lia).
  assert (1 < COLS)%nat as C1 by (unfold COLS; lia).
  assert (5 < ROWS)%nat as R5 by (unfold ROWS; lia).
  assert (3 < COLS)%nat as C3 by (unfold COLS; lia).
  destruct (portrait_shards_layout (fun _ => 0.25) 2 1 5 3 Hrnd R2 C1 R5 C3)
    as (_ & A & B & _ & _ & _ & _ & C & _ & _ & _ & D & _).
  split; [exact A|]. split; [exact B|]. split; [exact C | exact D].
Defined.

